(** * CrawlMCP: the HTML content filter and the page enumeration of [src/index.ts]

    A shallow embedding of [removeUnwantedElements], [getTargets],
    [getHtmlContent] and [listPages].  JavaScript strings are sequences of
    UTF-16 code units; the regular expressions of the filter are values of a
    small syntax, run by a backtracking matcher that follows the ECMAScript
    priorities (greedy and lazy quantifiers, capture groups, a back
    reference, the [i] flag).

    The development is in four parts: the model (strings, regular
    expressions, the filter, the server, the options of the second variant),
    the splits that the three rewriting patterns compute and the shapes of
    the tags written out in full, the facts about the matcher and about each
    step of the filter up to the termination of its loop, and the properties
    of the specification and of the rest of the code. *)

From Stdlib Require Import String Ascii DecimalString.
From Stdlib Require Import List NArith ZArith Lia Bool Arith.
Import ListNotations.

(** ** JavaScript strings *)

Module JS.

(** A UTF-16 code unit. *)
Definition char := N.
Definition jsstring := list char.

(** String literals of the source, written as Rocq strings (ASCII). *)
Definition js (s : string) : jsstring :=
  map N_of_ascii (list_ascii_of_string s).
Arguments js s%_string.

(** The double quote, and literals in which it is written as a backquote. *)
Definition dquote : char := 34%N.

Definition qjs (s : string) : jsstring :=
  map (fun c => if N.eqb c 96 then dquote else c) (js s).
Arguments qjs s%_string.

Fixpoint jseqb (a b : jsstring) : bool :=
  match a, b with
  | [], [] => true
  | x :: a', y :: b' => N.eqb x y && jseqb a' b'
  | _, _ => false
  end.

(** [WhiteSpace] and [LineTerminator] code units: what [\s] matches. *)
Definition is_space (c : char) : bool :=
  ((9 <=? c) && (c <=? 13) || (c =? 32) || (c =? 160) || (c =? 5760)
   || (8192 <=? c) && (c <=? 8202) || (c =? 8232) || (c =? 8233)
   || (c =? 8239) || (c =? 8287) || (c =? 12288) || (c =? 65279))%N.

Definition toUpperAscii (c : char) : char :=
  if ((97 <=? c) && (c <=? 122))%N then (c - 32)%N else c.

Definition toLowerAscii (c : char) : char :=
  if ((65 <=? c) && (c <=? 90))%N then (c + 32)%N else c.

(** [String.prototype.toLowerCase] on the strings the filter applies it to:
    attribute names, which the pattern restricts to ASCII letters, digits and
    the hyphen. *)
Definition toLowerCase (s : jsstring) : jsstring := map toLowerAscii s.

(** [String.prototype.includes]. *)
Fixpoint starts (needle hay : jsstring) : bool :=
  match needle, hay with
  | [], _ => true
  | x :: needle', y :: hay' => N.eqb x y && starts needle' hay'
  | _ :: _, [] => false
  end.

Fixpoint includes (hay needle : jsstring) : bool :=
  starts needle hay ||
  match hay with
  | [] => false
  | _ :: hay' => includes hay' needle
  end.

(** [Array.prototype.join]. *)
Fixpoint join (sep : jsstring) (l : list jsstring) : jsstring :=
  match l with
  | [] => []
  | [x] => x
  | x :: l' => x ++ sep ++ join sep l'
  end.

End JS.

Import JS.

(** ** Regular expressions *)

Module Regex.

(** Character classes. *)
Inductive cset : Type :=
| CChar (c : char)            (* a single character *)
| CRange (lo hi : char)       (* lo-hi *)
| CSpace                      (* \s *)
| CUnion (a b : cset)         (* juxtaposition inside [...] *)
| CNot (a : cset).            (* [^...] and \S *)

(** The patterns of the filter: quantifiers are only ever applied to a single
    character class, and the syntax keeps that shape. *)
Inductive regex : Type :=
| REps
| RChar (c : char)
| RSet (cs : cset)
| RStar (cs : cset)           (* cs*  greedy *)
| RPlus (cs : cset)           (* cs+  greedy *)
| RLazyStar (cs : cset)       (* cs*? lazy *)
| RSeq (a b : regex)
| RGroup (n : nat) (r : regex)
| RBackref (n : nat).

Record RegExp : Type := mkRegExp { pattern : regex; ignoreCase : bool }.

Fixpoint cset_mem (cs : cset) (c : char) : bool :=
  match cs with
  | CChar x => N.eqb x c
  | CRange lo hi => N.leb lo c && N.leb c hi
  | CSpace => is_space c
  | CUnion a b => cset_mem a c || cset_mem b c
  | CNot a => negb (cset_mem a c)
  end.

(** With the [i] flag a class matches [c] when one of its members has the same
    canonical form as [c]; an inverted class inverts that test.  Without the
    [u] flag a code unit above 127 is never canonicalised to an ASCII one, so
    for the ASCII classes of the filter the members to try are [c] and its two
    ASCII case variants. *)
Fixpoint cset_match (ic : bool) (cs : cset) (c : char) : bool :=
  match cs with
  | CNot a => negb (cset_match ic a c)
  | CUnion a b => cset_match ic a c || cset_match ic b c
  | _ => if ic
         then cset_mem cs c || cset_mem cs (toUpperAscii c) || cset_mem cs (toLowerAscii c)
         else cset_mem cs c
  end.

Definition char_match (ic : bool) (p c : char) : bool :=
  if ic then N.eqb (toUpperAscii p) (toUpperAscii c) else N.eqb p c.

Definition captures := list (nat * jsstring).

Fixpoint get_cap (n : nat) (caps : captures) : jsstring :=
  match caps with
  | [] => []
  | (m, v) :: caps' => if Nat.eqb n m then v else get_cap n caps'
  end.

(** What was consumed between the input [s] and its suffix [s']. *)
Definition consumed (s s' : jsstring) : jsstring :=
  firstn (length s - length s') s.

(** Matching a captured text again (a back reference). *)
Fixpoint strip_prefix (ic : bool) (p s : jsstring) : option jsstring :=
  match p with
  | [] => Some s
  | x :: p' =>
      match s with
      | [] => None
      | y :: s' => if char_match ic x y then strip_prefix ic p' s' else None
      end
  end.

Section Matcher.
Variable R : Type.
Variable ic : bool.

(** Greedy [cs*]: take as many as possible, give back one at a time. *)
Fixpoint star_greedy (cs : cset) (s : jsstring) (k : jsstring -> option R)
  : option R :=
  match s with
  | [] => k []
  | c :: s' =>
      if cset_match ic cs c
      then match star_greedy cs s' k with
           | Some x => Some x
           | None => k s
           end
      else k s
  end.

(** Lazy [cs*?]: try the rest of the pattern first, take one more on failure. *)
Fixpoint star_lazy (cs : cset) (s : jsstring) (k : jsstring -> option R)
  : option R :=
  match k s with
  | Some x => Some x
  | None =>
      match s with
      | [] => None
      | c :: s' => if cset_match ic cs c then star_lazy cs s' k else None
      end
  end.

(** The backtracking matcher, in continuation-passing style: [k] is the
    rest of the pattern. *)
Fixpoint rmatch (r : regex) (caps : captures) (s : jsstring)
         (k : captures -> jsstring -> option R) : option R :=
  match r with
  | REps => k caps s
  | RChar p =>
      match s with
      | [] => None
      | c :: s' => if char_match ic p c then k caps s' else None
      end
  | RSet cs =>
      match s with
      | [] => None
      | c :: s' => if cset_match ic cs c then k caps s' else None
      end
  | RStar cs => star_greedy cs s (k caps)
  | RPlus cs =>
      match s with
      | [] => None
      | c :: s' => if cset_match ic cs c then star_greedy cs s' (k caps) else None
      end
  | RLazyStar cs => star_lazy cs s (k caps)
  | RSeq a b => rmatch a caps s (fun caps' s' => rmatch b caps' s' k)
  | RGroup n a =>
      rmatch a caps s (fun caps' s' => k ((n, consumed s s') :: caps') s')
  | RBackref n =>
      match strip_prefix ic (get_cap n caps) s with
      | Some s' => k caps s'
      | None => None
      end
  end.
End Matcher.

Arguments star_greedy {R} ic cs s k.
Arguments star_lazy {R} ic cs s k.
Arguments rmatch {R} ic r caps s k.

(** The result of one successful match: [m[0]], the groups, and the input
    after the match. *)
Record MatchResult : Type :=
  mkMatch { matched : jsstring; groups : captures; rest : jsstring }.

(** One attempt at the start of [s]. *)
Definition exec_at (re : RegExp) (s : jsstring) : option MatchResult :=
  rmatch (ignoreCase re) (pattern re) [] s
         (fun caps s' => Some (mkMatch (consumed s s') caps s')).

(** A global ([g]) scan cuts the input into the matches found, leftmost first
    and never overlapping, and the characters between them. *)
Inductive piece : Type :=
| PChar (c : char)
| PMatch (m : MatchResult).

(** [skip] is the number of characters still inside the last match.  After an
    empty match the scan moves one character on. *)
Fixpoint pieces_from (re : RegExp) (skip : nat) (s : jsstring) : list piece :=
  match s with
  | [] =>
      match skip with
      | O => match exec_at re [] with
             | Some m => [PMatch m]
             | None => []
             end
      | S _ => []
      end
  | c :: s' =>
      match skip with
      | S n => pieces_from re n s'
      | O =>
          match exec_at re s with
          | Some m =>
              PMatch m ::
                match length (matched m) with
                | O => PChar c :: pieces_from re 0 s'
                | S n => pieces_from re n s'
                end
          | None => PChar c :: pieces_from re 0 s'
          end
      end
  end.

Definition pieces (re : RegExp) (s : jsstring) : list piece :=
  pieces_from re 0 s.

(** [s.replaceAll(re, f)] for a global [re] and a replacer function [f]. *)
Definition replaceAllFn (re : RegExp) (f : MatchResult -> jsstring)
           (s : jsstring) : jsstring :=
  flat_map (fun p => match p with PChar c => [c] | PMatch m => f m end)
           (pieces re s).

(** [s.replaceAll(re, r)] for a replacement string [r] without [$]. *)
Definition replaceAll (re : RegExp) (r : jsstring) (s : jsstring) : jsstring :=
  replaceAllFn re (fun _ => r) s.

(** The successive results of [re.exec(s)] for a global [re], until [null]. *)
Definition execAll (re : RegExp) (s : jsstring) : list MatchResult :=
  flat_map (fun p => match p with PChar _ => [] | PMatch m => [m] end)
           (pieces re s).

(** [re.test(s)] from [lastIndex = 0]. *)
Definition test (re : RegExp) (s : jsstring) : bool :=
  match execAll re s with [] => false | _ :: _ => true end.

(** Pattern syntax. *)
Fixpoint lit (s : jsstring) : regex :=
  match s with
  | [] => REps
  | [c] => RChar c
  | c :: s' => RSeq (RChar c) (lit s')
  end.

Definition ch (a : ascii) : char := N_of_ascii a.
Arguments ch a%_char.

(** A literal run of characters of the pattern. *)
Definition str (s : string) : regex := lit (js s).
Arguments str s%_string.

End Regex.

Import Regex.

Declare Scope re_scope.
Delimit Scope re_scope with re.
Notation "a ;; b" := (RSeq a b) (at level 61, right associativity) : re_scope.

(** ** The content filter of [src/index.ts] *)

Module Filter.

Local Open Scope re_scope.

Definition c_gt := CChar (ch ">").
Definition c_az := CRange (ch "a") (ch "z").
Definition c_AZ := CRange (ch "A") (ch "Z").
Definition c_09 := CRange (ch "0") (ch "9").
(** [[\x22']] *)
Definition c_quote := CUnion (CChar dquote) (CChar (ch "'")).
(** [[\s\S]] *)
Definition c_any := CUnion CSpace (CNot CSpace).
(** [[a-z0-9]] and [[a-z0-9-]] *)
Definition c_alnum := CUnion c_az c_09.
Definition c_alnum_dash := CUnion c_az (CUnion c_09 (CChar (ch "-"))).

(** /<head[^>]*>[\s\S]*?<\/head>/gi and its three siblings *)
Definition element_re (name : string) : RegExp :=
  mkRegExp (str ("<" ++ name) ;; RStar (CNot c_gt) ;; RChar (ch ">") ;;
            RLazyStar c_any ;; str ("</" ++ name ++ ">")) true.

Definition re_head := element_re "head".
Definition re_script := element_re "script".
Definition re_style := element_re "style".
Definition re_svg := element_re "svg".
(** /<i[^>]*>[\s\S]*?<\/i>/gi *)
Definition re_i := element_re "i".

(** /<img[^>]*src=[\x22']data:image[^\x22']*;base64,[^\x22']*[\x22'][^>]*>/gi *)
Definition re_img_base64 : RegExp :=
  mkRegExp (str "<img" ;; RStar (CNot c_gt) ;; str "src=" ;; RSet c_quote ;;
            str "data:image" ;; RStar (CNot c_quote) ;; str ";base64," ;;
            RStar (CNot c_quote) ;; RSet c_quote ;; RStar (CNot c_gt) ;;
            RChar (ch ">")) true.

(** /<meta[^>]*>/gi and /<input[^>]*>/gi *)
Definition void_re (name : string) : RegExp :=
  mkRegExp (str ("<" ++ name) ;; RStar (CNot c_gt) ;; RChar (ch ">")) true.

Definition re_meta := void_re "meta".
Definition re_input := void_re "input".

(** /data:image[^\x22;)]*;base64,[A-Za-z0-9+/=]+/g *)
Definition re_data_uri : RegExp :=
  mkRegExp (str "data:image" ;;
            RStar (CNot (CUnion (CChar dquote)
                           (CUnion (CChar (ch ";")) (CChar (ch ")"))))) ;;
            str ";base64," ;;
            RPlus (CUnion c_AZ (CUnion c_az (CUnion c_09
                     (CUnion (CChar (ch "+")) (CUnion (CChar (ch "/"))
                                                 (CChar (ch "=")))))))) false.

(** /<([a-z][a-z0-9]* )\s+([^>]* )>/gi  (no space before a closing
    parenthesis in the source; it is written here to keep the comment open) *)
Definition re_tag : RegExp :=
  mkRegExp (RChar (ch "<") ;; RGroup 1 (RSet c_az ;; RStar c_alnum) ;;
            RPlus CSpace ;; RGroup 2 (RStar (CNot c_gt)) ;; RChar (ch ">")) true.

(** /([a-z][a-z0-9-]* )\s*=\s*[\x22']([^\x22']* )[\x22']/gi *)
Definition attrRegex : RegExp :=
  mkRegExp (RGroup 1 (RSet c_az ;; RStar c_alnum_dash) ;; RStar CSpace ;;
            RChar (ch "=") ;; RStar CSpace ;; RSet c_quote ;;
            RGroup 2 (RStar (CNot c_quote)) ;; RSet c_quote) true.

(** />\s+</g *)
Definition re_gap : RegExp :=
  mkRegExp (RChar (ch ">") ;; RPlus CSpace ;; RChar (ch "<")) false.

(** /<([a-z][a-z0-9]* )>\s*<\/\1>/gi *)
Definition re_empty : RegExp :=
  mkRegExp (RChar (ch "<") ;; RGroup 1 (RSet c_az ;; RStar c_alnum) ;;
            RChar (ch ">") ;; RStar CSpace ;; str "</" ;; RBackref 1 ;;
            RChar (ch ">")) true.

(** [new Set] of id, href and src. *)
Definition allowedAttrs : list jsstring := [js "id"; js "href"; js "src"].

Definition has (set : list jsstring) (x : jsstring) : bool :=
  existsb (jseqb x) set.

(** The [while ((attrMatch = attrRegex.exec(attrs)) !== null)] loop. *)
Definition cleanedAttrs (attrs : jsstring) : list jsstring :=
  map matched
      (filter (fun attrMatch =>
                 has allowedAttrs (toLowerCase (get_cap 1 (groups attrMatch))))
              (execAll attrRegex attrs)).

(** The replacer [(match, tag, attrs) => ...]. *)
Definition rebuildTag (tag attrs : jsstring) : jsstring :=
  let cleaned := cleanedAttrs attrs in
  js "<" ++ tag
     ++ (match cleaned with
         | [] => js ""
         | _ :: _ => js " " ++ join (js " ") cleaned
         end)
     ++ js ">".

Definition tagReplacer (m : MatchResult) : jsstring :=
  rebuildTag (get_cap 1 (groups m)) (get_cap 2 (groups m)).

(** The nine chained [replaceAll] calls of lines 45-54. *)
Definition removeElements (result : jsstring) : jsstring :=
  replaceAll re_input (js "")
    (replaceAll re_i (js "")
      (replaceAll re_data_uri (js "")
        (replaceAll re_meta (js "")
          (replaceAll re_img_base64 (js "")
            (replaceAll re_svg (js "")
              (replaceAll re_style (js "")
                (replaceAll re_script (js "")
                  (replaceAll re_head (js "") result)))))))).

Definition stripAttributes (result : jsstring) : jsstring :=
  replaceAllFn re_tag tagReplacer result.

Definition collapseGaps (result : jsstring) : jsstring :=
  replaceAll re_gap (js "><") result.

Definition pruneEmpty (result : jsstring) : jsstring :=
  replaceAll re_empty (js "") result.

(** The body of the [do ... while] loop. *)
Definition pass (result : jsstring) : jsstring :=
  pruneEmpty (collapseGaps (stripAttributes (removeElements result))).

(** [do { previous = result; result = pass(result) } while (result !== previous)],
    with the number of iterations bounded by [fuel]. *)
Fixpoint sanitizeLoop (fuel : nat) (result : jsstring) : option jsstring :=
  match fuel with
  | O => None
  | S fuel' =>
      let previous := result in
      let result := pass result in
      if jseqb result previous then Some result else sanitizeLoop fuel' result
  end.

(** Non-whitespace characters: every step of the loop keeps or lowers their
    number, which bounds the number of iterations. *)
Definition weight (s : jsstring) : nat :=
  length (filter (fun c => negb (is_space c)) s).

Definition iterations (html : jsstring) : nat := 2 * weight html + 2.

Definition removeUnwantedElements (html : jsstring) : jsstring :=
  match sanitizeLoop (iterations html) html with
  | Some result => result
  | None => html
  end.

End Filter.

Import Filter.

(** ** Page enumeration and fetch

    The browser is an oracle: what [CDP.List] resolves to (or that it
    rejects), which targets accept a session, and what [Runtime.evaluate]
    answers.  A call returns its outcome together with the session events it
    caused, in order. *)

Module Server.

Local Open Scope string_scope.

Record CDPTarget : Type := mkTarget {
  id : string;
  title : string;
  url : string;
  type : string;
  webSocketDebuggerUrl : option string
}.

Inductive ErrorCode : Type := InternalError | InvalidRequest.

Record McpError : Type := mkMcpError { code : ErrorCode; message : string }.

(** A promise settles with a value, an [McpError], or some other error. *)
Inductive outcome (A : Type) : Type :=
| Resolved (a : A)
| Rejected (e : McpError)
| RejectedOther.

Arguments Resolved {A} a.
Arguments Rejected {A} e.
Arguments RejectedOther {A}.

(** The expression given to [Runtime.evaluate]. *)
Inductive expression : Type :=
| OuterHTML                          (* document.documentElement.outerHTML *)
| QuerySelector (selector : string). (* the arrow function around querySelector *)

(** [{ result: { value }, exceptionDetails }]; [value] is [None] for [null]
    and [undefined]. *)
Record Evaluation : Type := mkEvaluation {
  exceptionDetails : bool;
  value : option jsstring
}.

Record Chrome : Type := mkChrome {
  CDP_HOST : string;
  CDP_PORT : string;                 (* as a template literal prints it *)
  CDP_List : option (list CDPTarget); (* [None]: the listing call rejects *)
  connect : string -> bool;          (* does CDP({target}) resolve? *)
  evaluate : string -> expression -> option Evaluation
                                     (* [None]: the evaluation call rejects *)
}.

Inductive event : Type :=
| Opened (target : string)
| Closed (target : string).

Definition getTargets (chrome : Chrome) : outcome (list CDPTarget) :=
  match CDP_List chrome with
  | Some targets => Resolved (filter (fun t => String.eqb (type t) "page") targets)
  | None =>
      Rejected (mkMcpError InternalError
        ("Failed to connect to Chrome DevTools at " ++ CDP_HOST chrome ++ ":"
           ++ CDP_PORT chrome
           ++ ". Ensure Chrome is running with --remote-debugging-port="
           ++ CDP_PORT chrome))
  end.

(** [`${n}`] for a natural number. *)
Definition decimal (n : nat) : string := NilZero.string_of_uint (Nat.to_uint n).

(** A selector counts when it is given and not the empty string. *)
Definition truthy (selector : option string) : option string :=
  match selector with
  | Some EmptyString => None
  | other => other
  end.

(** [targets[pageIndex]].  The page index is an integer, as the
    specification has it; the schema of the tool would take any number. *)
Definition at_index (targets : list CDPTarget) (pageIndex : Z) : option CDPTarget :=
  if (pageIndex <? 0)%Z then None else nth_error targets (Z.to_nat pageIndex).

Definition getHtmlContent (chrome : Chrome) (pageIndex : option Z)
           (selector : option string) : outcome jsstring * list event :=
  let pageIndex := match pageIndex with Some i => i | None => 0%Z end in
  match getTargets chrome with
  | Rejected e => (Rejected e, [])
  | RejectedOther => (RejectedOther, [])
  | Resolved targets =>
      if Nat.eqb (length targets) 0
      then (Rejected (mkMcpError InvalidRequest "No open pages found in Chrome"), [])
      else if ((pageIndex <? 0) || (Z.of_nat (length targets) <=? pageIndex))%Z
      then (Rejected (mkMcpError InvalidRequest
              ("Invalid page index. Available pages: 0-"
                 ++ decimal (length targets - 1))), [])
      else
        match at_index targets pageIndex with
        | None => (RejectedOther, [])
        | Some target =>
            if negb (connect chrome (id target)) then (RejectedOther, [])
            else
              (* try ... finally { await client.close() } *)
              let expression :=
                match truthy selector with
                | Some sel => QuerySelector sel
                | None => OuterHTML
                end in
              let body :=
                match evaluate chrome (id target) expression with
                | None => RejectedOther
                | Some result =>
                    if exceptionDetails result
                    then Rejected (mkMcpError InternalError
                           "Failed to evaluate expression in page context")
                    else
                      match value result with
                      | None =>
                          Rejected (mkMcpError InvalidRequest
                            (match truthy selector with
                             | Some sel => "Element not found for selector: " ++ sel
                             | None => "Failed to get HTML content"
                             end))
                      | Some html => Resolved (removeUnwantedElements html)
                      end
                end in
              (body, [Opened (id target); Closed (id target)])
        end
  end.

Record PageInfo : Type := mkPageInfo {
  index : nat;
  page_title : string;
  page_url : string
}.

(** [targets.map((t, index) => ...)], counting from [index]. *)
Fixpoint mapi (index : nat) (targets : list CDPTarget) : list PageInfo :=
  match targets with
  | [] => []
  | t :: rest => mkPageInfo index (title t) (url t) :: mapi (S index) rest
  end.

Definition listPages (chrome : Chrome) : outcome (list PageInfo) :=
  match getTargets chrome with
  | Resolved targets => Resolved (mapi 0 targets)
  | Rejected e => Rejected e
  | RejectedOther => RejectedOther
  end.

End Server.

Import Server.

(** ** The second variant of the filter

    The other copy of the server replaces the loop by one call of the
    [sanitize-html] package.  The package is not part of the repository: the
    variant is the options it passes, over whatever function the package
    provides. *)

Module SanitizeVariant.

Local Open Scope string_scope.

Record Options : Type := mkOptions {
  allowedTags : list string;
  allowedAttributes : list (string * list string);
  allowedSchemes : list string;
  allowedSchemesAppliedToAttributes : list string;
  allowProtocolRelative : bool;
  allowedSchemesByTag : list (string * list string)
}.

Definition options : Options :=
  mkOptions
    ["a"; "p"; "div"; "span"; "ul"; "ol"; "li"; "strong"; "em"; "b"; "u";
     "small"; "sub"; "sup"; "br"; "hr"; "code"; "pre"; "blockquote"; "table";
     "thead"; "tbody"; "tr"; "th"; "td"; "img"; "button"]
    [("*", ["id"]); ("a", ["href"]); ("img", ["src"; "alt"])]
    ["http"; "https"; "mailto"]
    ["href"; "src"]
    false
    [("img", ["http"; "https"])].

Section Package.
Variable sanitizeHtml : jsstring -> Options -> jsstring.

Definition removeUnwantedElements (html : jsstring) : jsstring :=
  sanitizeHtml html options.
End Package.

End SanitizeVariant.

(** ** What the three patterns of the rewriting steps accept

    Each of them commits at every quantifier, so that a match is a
    left-to-right split of the input; [tag_parse], [attr_parse] and
    [gap_parse] compute that split and are proved equal to the matcher on
    [re_tag], [attrRegex] and [re_gap]. *)

Module Shapes.

Definition suffix (s' s : jsstring) : Prop := exists m, s = m ++ s'.

(** The literal a pattern starts with, when it starts with one. *)
Fixpoint first_char (r : regex) : option char :=
  match r with
  | RChar c => Some c
  | RSeq a _ => first_char a
  | RGroup _ a => first_char a
  | _ => None
  end.

(** Patterns of which every match starts with a character satisfying [P]. *)
Definition starts_with (P : char -> bool) (re : RegExp) : Prop :=
  forall s m, exec_at re s = Some m ->
              exists c t, matched m = c :: t /\ P c = true.

Definition nonspace (c : char) : bool := negb (is_space c).

Fixpoint takeWhile (p : char -> bool) (s : jsstring) : jsstring :=
  match s with
  | [] => []
  | c :: s' => if p c then c :: takeWhile p s' else []
  end.

Fixpoint dropWhile (p : char -> bool) (s : jsstring) : jsstring :=
  match s with
  | [] => []
  | c :: s' => if p c then dropWhile p s' else s
  end.

(** [s] is empty or starts with a character outside [p]. *)
Definition stops (p : char -> bool) (s : jsstring) : Prop :=
  match s with [] => True | c :: _ => p c = false end.

Definition is_letter (c : char) : Prop := (65 <= c <= 90 \/ 97 <= c <= 122)%N.
Definition is_digit (c : char) : Prop := (48 <= c <= 57)%N.

Definition letter := cset_match true c_az.
Definition alnum := cset_match true c_alnum.
Definition alnum_dash := cset_match true c_alnum_dash.
Definition not_gt := cset_match true (CNot c_gt).
Definition not_quote := cset_match true (CNot c_quote).

Definition tag_parse (s : jsstring) : option MatchResult :=
  match s with
  | c :: a :: s2 =>
      if char_match true (ch "<") c && cset_match true c_az a then
        match dropWhile alnum s2 with
        | w :: s3 =>
            if is_space w then
              let s4 := dropWhile is_space s3 in
              match dropWhile not_gt s4 with
              | g :: r =>
                  Some (mkMatch
                          (c :: a :: takeWhile alnum s2 ++ w :: takeWhile is_space s3
                             ++ takeWhile not_gt s4 ++ [g])
                          [(2, takeWhile not_gt s4); (1, a :: takeWhile alnum s2)] r)
              | [] => None
              end
            else None
        | [] => None
        end
      else None
  | _ => None
  end.

Definition attr_parse (s : jsstring) : option MatchResult :=
  match s with
  | a :: s1 =>
      if cset_match true c_az a then
        let s2 := dropWhile alnum_dash s1 in
        match dropWhile is_space s2 with
        | e :: s3 =>
            if char_match true (ch "=") e then
              match dropWhile is_space s3 with
              | q1 :: s4 =>
                  if cset_match true c_quote q1 then
                    match dropWhile not_quote s4 with
                    | q2 :: r =>
                        Some (mkMatch
                                (a :: takeWhile alnum_dash s1 ++ takeWhile is_space s2
                                   ++ e :: takeWhile is_space s3
                                   ++ q1 :: takeWhile not_quote s4 ++ [q2])
                                [(2, takeWhile not_quote s4);
                                 (1, a :: takeWhile alnum_dash s1)] r)
                    | [] => None
                    end
                  else None
              | [] => None
              end
            else None
        | [] => None
        end
      else None
  | [] => None
  end.

Definition gap_parse (s : jsstring) : option MatchResult :=
  match s with
  | g :: w :: s2 =>
      if char_match false (ch ">") g && is_space w then
        match dropWhile is_space s2 with
        | l :: r =>
            if char_match false (ch "<") l
            then Some (mkMatch (g :: w :: takeWhile is_space s2 ++ [l]) [] r)
            else None
        | [] => None
        end
      else None
  | _ => None
  end.

(** Is the name of this attribute on the allow-list? *)
Definition allowed (m : MatchResult) : bool :=
  has allowedAttrs (toLowerCase (get_cap 1 (groups m))).

(** A kept attribute: its text parses to itself, with an allowed name,
    whatever follows it. *)
Definition kept (k : jsstring) : Prop :=
  exists g, allowed (mkMatch k g []) = true /\
            forall z, attr_parse (k ++ z) = Some (mkMatch k g z).

(** A step that changes its input removes a character that is not white
    space. *)
Definition shrinks (f : jsstring -> jsstring) : Prop :=
  forall s, f s = s \/ weight (f s) < weight s.

(** The characters of a string that are not white space, in order. *)
Definition visible (s : jsstring) : jsstring := filter nonspace s.

(** [a] is [b] with some characters left out. *)
Inductive subseq : jsstring -> jsstring -> Prop :=
| subseq_nil : subseq [] []
| subseq_skip c a b : subseq a b -> subseq a (c :: b)
| subseq_keep c a b : subseq a b -> subseq (c :: a) (c :: b).

Definition is_lt (c : char) : bool := N.eqb c (ch "<").
Definition no_lt (c : char) : bool := negb (N.eqb c (ch "<")).
Definition no_bracket (c : char) : bool :=
  negb (N.eqb c (ch "<")) && negb (N.eqb c (ch ">")).

(** [n] is [name] up to the case of its letters. *)
Definition same_name (n : jsstring) (name : string) : bool :=
  jseqb (map toUpperAscii n) (map toUpperAscii (js name)).

(** An element written out: the opening tag named [n1] with attribute text
    [a], the content [b], the closing tag named [n2]. *)
Definition element (n1 n2 a b : jsstring) : jsstring :=
  ch "<" :: n1 ++ a ++ ch ">" :: b ++ js "</" ++ n2 ++ [ch ">"].

(** A tag without a closing one. *)
Definition void_tag (n a : jsstring) : jsstring :=
  ch "<" :: n ++ a ++ [ch ">"].

(** [[A-Za-z0-9+/=]] *)
Definition c_base64 : cset :=
  CUnion c_AZ (CUnion c_az (CUnion c_09
    (CUnion (CChar (ch "+")) (CUnion (CChar (ch "/")) (CChar (ch "=")))))).

(** The characters of an attribute value and of a text with which no rule of
    the filter interferes: no quote (in a value), no angle bracket, no
    semicolon. *)
Definition no_semicolon (c : char) : bool := negb (N.eqb c (ch ";")).
Definition value_char (c : char) : bool :=
  not_quote c && no_bracket c && no_semicolon c.
Definition text_char (c : char) : bool := no_bracket c && no_semicolon c.

(** An attribute written [name="value"], and a list of them, one space
    before each. *)
Definition attribute (nv : jsstring * jsstring) : jsstring :=
  fst nv ++ ch "=" :: dquote :: snd nv ++ [dquote].

Definition attributes (l : list (jsstring * jsstring)) : jsstring :=
  concat (map (fun nv => ch " " :: attribute nv) l).

(** A tag name is a letter followed by letters and digits; an attribute name
    may have hyphens too. *)
Definition tag_name (n : jsstring) : bool :=
  match n with a :: n' => letter a && forallb alnum n' | [] => false end.

Definition attr_name (n : jsstring) : bool :=
  match n with a :: n' => letter a && forallb alnum_dash n' | [] => false end.

Definition wellformed (nv : jsstring * jsstring) : bool :=
  attr_name (fst nv) && forallb value_char (snd nv).

(** Is the name of this attribute [id], [href] or [src], case apart? *)
Definition on_allow_list (nv : jsstring * jsstring) : bool :=
  has allowedAttrs (toLowerCase (fst nv)).

(** Does [n] begin with [p], case apart? *)
Definition begins (p : string) (n : jsstring) : bool :=
  match strip_prefix true (js p) n with Some _ => true | None => false end.

Definition close_tag (name : jsstring) : jsstring := js "</" ++ name ++ [ch ">"].

(** An opening tag with attribute text [a], followed by [r]. *)
Definition markup (name a r : jsstring) : jsstring :=
  ch "<" :: (name ++ a) ++ ch ">" :: r.

(** The names of the five element rules. *)
Definition element_names : list string :=
  ["head"; "script"; "style"; "svg"; "i"]%string.

(** An [img] tag whose [src] is a quoted base64 image: attribute text [a1],
    [src=], a quote, [data:image], [v1], [;base64,], [v2], a quote,
    attribute text [a2]. *)
Definition base64_image (n a1 : jsstring) (q1 : char) (v1 v2 : jsstring)
           (q2 : char) (a2 : jsstring) : jsstring :=
  void_tag n (a1 ++ js "src=" ++ q1 :: js "data:image" ++ v1
                ++ js ";base64," ++ v2 ++ q2 :: a2).

End Shapes.

Import Shapes.

(** ** General facts about the matcher and the global scan *)

Module RegexFacts.

Lemma suffix_refl s : suffix s s.
Proof. exists []. reflexivity. Qed.

Lemma suffix_cons c s' s : suffix s' s -> suffix s' (c :: s).
Proof. intros [m ->]. exists (c :: m). reflexivity. Qed.

Lemma suffix_trans a b c : suffix a b -> suffix b c -> suffix a c.
Proof. intros [m ->] [n ->]. exists (n ++ m). now rewrite app_assoc. Qed.

Lemma consumed_app m s' : consumed (m ++ s') s' = m.
Proof.
  unfold consumed. rewrite length_app.
  replace (length m + length s' - length s') with (length m + 0) by lia.
  rewrite firstn_app_2. simpl. apply app_nil_r.
Qed.

Section Suffix.
Variable R : Type.
Variable ic : bool.

Lemma star_greedy_suffix cs s (k : jsstring -> option R) x :
  star_greedy ic cs s k = Some x -> exists s', suffix s' s /\ k s' = Some x.
Proof.
  induction s as [|c s IH]; simpl; intros H.
  - exists []. split; [apply suffix_refl | exact H].
  - destruct (cset_match ic cs c).
    + destruct (star_greedy ic cs s k) eqn:E.
      * inversion H; subst. destruct (IH eq_refl) as (s' & Hs & Hk).
        exists s'. split; [now apply suffix_cons | exact Hk].
      * exists (c :: s). split; [apply suffix_refl | exact H].
    + exists (c :: s). split; [apply suffix_refl | exact H].
Qed.

Lemma star_lazy_suffix cs s (k : jsstring -> option R) x :
  star_lazy ic cs s k = Some x -> exists s', suffix s' s /\ k s' = Some x.
Proof.
  induction s as [|c s IH]; simpl; intros H.
  - destruct (k []) eqn:E; [|discriminate].
    exists []. split; [apply suffix_refl | congruence].
  - destruct (k (c :: s)) eqn:E.
    + exists (c :: s). split; [apply suffix_refl | congruence].
    + destruct (cset_match ic cs c); [|discriminate].
      destruct (IH H) as (s' & Hs & Hk).
      exists s'. split; [now apply suffix_cons | exact Hk].
Qed.

Lemma strip_prefix_suffix p s s' :
  strip_prefix ic p s = Some s' -> suffix s' s.
Proof.
  revert s; induction p as [|x p IH]; simpl; intros s H.
  - inversion H. apply suffix_refl.
  - destruct s as [|y s]; [discriminate|].
    destruct (char_match ic x y); [|discriminate].
    apply suffix_cons. now apply IH.
Qed.

(** Whatever the pattern, the continuation is run on a suffix of the input. *)
Lemma rmatch_suffix r : forall caps s (k : captures -> jsstring -> option R) x,
  rmatch ic r caps s k = Some x ->
  exists caps' s', suffix s' s /\ k caps' s' = Some x.
Proof.
  induction r as [|p|cs|cs|cs|cs|a IHa b IHb|n a IHa|n]; simpl; intros caps s k x H.
  - exists caps, s. split; [apply suffix_refl | exact H].
  - destruct s as [|c s]; [discriminate|].
    destruct (char_match ic p c); [|discriminate].
    exists caps, s. split; [apply suffix_cons, suffix_refl | exact H].
  - destruct s as [|c s]; [discriminate|].
    destruct (cset_match ic cs c); [|discriminate].
    exists caps, s. split; [apply suffix_cons, suffix_refl | exact H].
  - apply star_greedy_suffix in H. destruct H as (s' & Hs & Hk).
    now exists caps, s'.
  - destruct s as [|c s]; [discriminate|].
    destruct (cset_match ic cs c); [|discriminate].
    apply star_greedy_suffix in H. destruct H as (s' & Hs & Hk).
    exists caps, s'. split; [now apply suffix_cons | exact Hk].
  - apply star_lazy_suffix in H. destruct H as (s' & Hs & Hk).
    now exists caps, s'.
  - apply IHa in H. destruct H as (c1 & s1 & Hs1 & H).
    apply IHb in H. destruct H as (c2 & s2 & Hs2 & H).
    exists c2, s2. split; [eapply suffix_trans; eassumption | exact H].
  - apply IHa in H. destruct H as (c1 & s1 & Hs1 & H).
    now exists ((n, consumed s s1) :: c1), s1.
  - destruct (strip_prefix ic (get_cap n caps) s) as [s'|] eqn:E; [|discriminate].
    exists caps, s'. split; [eapply strip_prefix_suffix; eassumption | exact H].
Qed.

Lemma rmatch_first_char r : forall p caps s (k : captures -> jsstring -> option R) x,
  first_char r = Some p ->
  rmatch ic r caps s k = Some x ->
  exists c t caps' s',
    s = c :: t /\ char_match ic p c = true /\ suffix s' t /\ k caps' s' = Some x.
Proof.
  induction r as [|q|cs|cs|cs|cs|a IHa b IHb|n a IHa|n]; simpl;
    intros p caps s k x Hp H; try discriminate.
  - inversion Hp; subst q. destruct s as [|c s]; [discriminate|].
    destruct (char_match ic p c) eqn:E; [|discriminate].
    exists c, s, caps, s. repeat split; auto using suffix_refl.
  - destruct (IHa _ _ _ _ _ Hp H) as (c & t & c1 & s1 & -> & Hc & Hs1 & H1).
    apply rmatch_suffix in H1. destruct H1 as (c2 & s2 & Hs2 & H2).
    exists c, t, c2, s2. repeat split; auto. eapply suffix_trans; eassumption.
  - destruct (IHa _ _ _ _ _ Hp H) as (c & t & c1 & s1 & -> & Hc & Hs1 & H1).
    exists c, t, ((n, consumed (c :: t) s1) :: c1), s1. repeat split; auto.
Qed.
End Suffix.

(** A successful attempt splits its input into the match and the rest. *)
Lemma exec_at_split re s m : exec_at re s = Some m -> s = matched m ++ rest m.
Proof.
  unfold exec_at. intros H. apply rmatch_suffix in H.
  destruct H as (caps & s' & [mm ->] & H). inversion H; subst; simpl.
  now rewrite consumed_app.
Qed.

Lemma starts_with_first_char re p (P : char -> bool) :
  first_char (pattern re) = Some p ->
  (forall c, char_match (ignoreCase re) p c = true -> P c = true) ->
  starts_with P re.
Proof.
  intros Hp HP s m H. unfold exec_at in H.
  destruct (rmatch_first_char _ _ _ _ _ _ _ _ Hp H)
    as (c & t & caps & s' & -> & Hc & [mm ->] & Hk).
  inversion Hk; subst; simpl.
  change (c :: mm ++ s') with ((c :: mm) ++ s'). rewrite consumed_app.
  exists c, mm. split; [reflexivity | now apply HP].
Qed.

Lemma starts_with_nonempty P re s m :
  starts_with P re -> exec_at re s = Some m -> matched m <> [].
Proof. intros H E. destruct (H _ _ E) as (c & t & -> & _). discriminate. Qed.

Lemma starts_with_nil P re : starts_with P re -> exec_at re [] = None.
Proof.
  intros H. destruct (exec_at re []) as [m|] eqn:E; [|reflexivity].
  destruct (H _ _ E) as (c & t & Hm & _).
  apply exec_at_split in E. rewrite Hm in E. discriminate.
Qed.

(** *** The scan, one match at a time *)

Lemma pieces_from_skip re m r :
  pieces_from re (length m) (m ++ r) = pieces_from re 0 r.
Proof. induction m as [|c m IH]; simpl; [now destruct r | exact IH]. Qed.

Lemma pieces_nil re : exec_at re [] = None -> pieces re [] = [].
Proof. unfold pieces. simpl. now intros ->. Qed.

Lemma pieces_miss re c s :
  exec_at re (c :: s) = None -> pieces re (c :: s) = PChar c :: pieces re s.
Proof. unfold pieces. simpl pieces_from. now intros ->. Qed.

Lemma pieces_hit re s m :
  exec_at re s = Some m -> matched m <> [] ->
  pieces re s = PMatch m :: pieces re (rest m).
Proof.
  intros E Hne. pose proof (exec_at_split _ _ _ E) as Hs.
  destruct (matched m) as [|c mm] eqn:Hm; [congruence|].
  unfold pieces. destruct s as [|c' s']; [discriminate|].
  simpl pieces_from. rewrite E, Hm. simpl length.
  simpl in Hs. inversion Hs; subst. now rewrite pieces_from_skip.
Qed.

Section Scan.
Variable re : RegExp.
Variable P : char -> bool.
Hypothesis Hre : starts_with P re.

Lemma replaceAllFn_nil f : replaceAllFn re f [] = [].
Proof. unfold replaceAllFn. now rewrite pieces_nil by exact (starts_with_nil _ _ Hre). Qed.

Lemma replaceAllFn_miss f c s :
  exec_at re (c :: s) = None ->
  replaceAllFn re f (c :: s) = c :: replaceAllFn re f s.
Proof. intros E. unfold replaceAllFn. now rewrite pieces_miss. Qed.

Lemma replaceAllFn_hit f s m :
  exec_at re s = Some m ->
  replaceAllFn re f s = f m ++ replaceAllFn re f (rest m).
Proof.
  intros E. unfold replaceAllFn.
  now rewrite (pieces_hit _ _ _ E (starts_with_nonempty _ _ _ _ Hre E)).
Qed.

Lemma execAll_nil : execAll re [] = [].
Proof. unfold execAll. now rewrite pieces_nil by exact (starts_with_nil _ _ Hre). Qed.

Lemma execAll_miss c s :
  exec_at re (c :: s) = None -> execAll re (c :: s) = execAll re s.
Proof. intros E. unfold execAll. now rewrite pieces_miss. Qed.

Lemma execAll_hit s m :
  exec_at re s = Some m -> execAll re s = m :: execAll re (rest m).
Proof.
  intros E. unfold execAll.
  now rewrite (pieces_hit _ _ _ E (starts_with_nonempty _ _ _ _ Hre E)).
Qed.

(** Induction along the scan. *)
Lemma scan_ind (Q : jsstring -> Prop) :
  Q [] ->
  (forall c s, exec_at re (c :: s) = None -> Q s -> Q (c :: s)) ->
  (forall s m, exec_at re s = Some m -> Q (rest m) -> Q s) ->
  forall s, Q s.
Proof.
  intros Hnil Hmiss Hhit s.
  remember (length s) as n eqn:Hn. revert s Hn.
  induction n as [n IH] using lt_wf_ind. intros s Hn.
  destruct s as [|c s]; [exact Hnil|].
  destruct (exec_at re (c :: s)) as [m|] eqn:E.
  - apply (Hhit _ _ E). pose proof (exec_at_split _ _ _ E) as Hs.
    destruct (Hre _ _ E) as (c' & t & Hm & _).
    apply (IH (length (rest m))); [|reflexivity].
    rewrite Hn, Hs, Hm. simpl. rewrite length_app. lia.
  - apply Hmiss; [exact E|]. apply (IH (length s)); [|reflexivity].
    rewrite Hn. simpl. lia.
Qed.
End Scan.

End RegexFacts.

(** ** Facts about the steps of the filter *)

Module FilterFacts.

Import RegexFacts.

Lemma weight_cons c s :
  weight (c :: s) = (if is_space c then 0 else 1) + weight s.
Proof. unfold weight. simpl. now destruct (is_space c). Qed.

Lemma weight_app a b : weight (a ++ b) = weight a + weight b.
Proof. unfold weight. now rewrite filter_app, length_app. Qed.

Lemma jseqb_eq a b : jseqb a b = true <-> a = b.
Proof.
  revert b; induction a as [|x a IH]; destruct b as [|y b]; simpl;
    try (split; [discriminate | discriminate]); try tauto.
  rewrite andb_true_iff, N.eqb_eq, IH. split.
  - intros [-> ->]. reflexivity.
  - intros H. inversion H. auto.
Qed.

Lemma jseqb_refl a : jseqb a a = true.
Proof. now apply jseqb_eq. Qed.

(** Characters without a case variant match only themselves. *)
Lemma char_match_exact ic p c :
  toUpperAscii p = p -> (p < 65 \/ 90 < p)%N ->
  char_match ic p c = true -> c = p.
Proof.
  unfold char_match, toUpperAscii. intros Hp Hr.
  destruct ic.
  - destruct ((97 <=? p) && (p <=? 122))%N eqn:Ep;
      destruct ((97 <=? c) && (c <=? 122))%N eqn:Ec;
      rewrite ?andb_true_iff, ?andb_false_iff, ?N.leb_le, ?N.leb_gt in *;
      rewrite N.eqb_eq; lia.
  - rewrite N.eqb_eq. congruence.
Qed.

Lemma char_match_lt ic c : char_match ic (ch "<") c = true -> c = ch "<".
Proof. apply char_match_exact; [reflexivity | left; reflexivity]. Qed.

Lemma char_match_gt ic c : char_match ic (ch ">") c = true -> c = ch ">".
Proof. apply char_match_exact; [reflexivity | left; reflexivity]. Qed.

Lemma char_match_refl ic c : char_match ic c c = true.
Proof. unfold char_match. destruct ic; apply N.eqb_refl. Qed.

(** *** The removals never add a character that is not white space *)

Lemma removal_weight re :
  starts_with nonspace re ->
  forall s, replaceAll re [] s = s \/ weight (replaceAll re [] s) < weight s.
Proof.
  intros Hre. unfold replaceAll.
  apply (scan_ind re nonspace Hre).
  - left. apply (replaceAllFn_nil _ _ Hre).
  - intros c s E [IH|IH]; rewrite (replaceAllFn_miss _ _ _ _ E).
    + left. now rewrite IH.
    + right. rewrite !weight_cons. lia.
  - intros s m E IH. right.
    rewrite (replaceAllFn_hit _ _ Hre _ _ _ E). simpl.
    destruct (Hre _ _ E) as (c & t & Hm & Hc).
    rewrite (exec_at_split _ _ _ E) at 1. rewrite weight_app, Hm, weight_cons.
    unfold nonspace in Hc. apply negb_true_iff in Hc. rewrite Hc.
    destruct IH as [IH|IH]; [rewrite IH|]; lia.
Qed.

Lemma starts_lt re :
  first_char (pattern re) = Some (ch "<") -> starts_with nonspace re.
Proof.
  intros H. apply (starts_with_first_char _ _ _ H).
  intros c Hc. apply char_match_lt in Hc. now subst.
Qed.

Lemma starts_head : starts_with nonspace re_head.
Proof. now apply starts_lt. Qed.
Lemma starts_script : starts_with nonspace re_script.
Proof. now apply starts_lt. Qed.
Lemma starts_style : starts_with nonspace re_style.
Proof. now apply starts_lt. Qed.
Lemma starts_svg : starts_with nonspace re_svg.
Proof. now apply starts_lt. Qed.
Lemma starts_img_base64 : starts_with nonspace re_img_base64.
Proof. now apply starts_lt. Qed.
Lemma starts_meta : starts_with nonspace re_meta.
Proof. now apply starts_lt. Qed.
Lemma starts_i : starts_with nonspace re_i.
Proof. now apply starts_lt. Qed.
Lemma starts_input : starts_with nonspace re_input.
Proof. now apply starts_lt. Qed.
Lemma starts_empty : starts_with nonspace re_empty.
Proof. now apply starts_lt. Qed.
Lemma starts_tag : starts_with nonspace re_tag.
Proof. now apply starts_lt. Qed.

Lemma starts_data_uri : starts_with nonspace re_data_uri.
Proof.
  apply (starts_with_first_char _ (ch "d")); [reflexivity|].
  intros c Hc. change (N.eqb (ch "d") c = true) in Hc.
  apply N.eqb_eq in Hc. now subst.
Qed.

Lemma starts_gap : starts_with nonspace re_gap.
Proof.
  apply (starts_with_first_char _ (ch ">")); [reflexivity|].
  intros c Hc. apply char_match_gt in Hc. now subst.
Qed.

(** *** Prefixes kept and dropped *)

Lemma take_drop p s : takeWhile p s ++ dropWhile p s = s.
Proof.
  induction s as [|c s IH]; simpl; [reflexivity|].
  destruct (p c); simpl; congruence.
Qed.

Lemma dropWhile_head p s c t : dropWhile p s = c :: t -> p c = false.
Proof.
  induction s as [|x s IH]; simpl; [discriminate|].
  destruct (p x) eqn:E; [exact IH|]. intros H. inversion H; subst. exact E.
Qed.

Lemma takeWhile_all p s : forallb p (takeWhile p s) = true.
Proof.
  induction s as [|x s IH]; simpl; [reflexivity|].
  destruct (p x) eqn:E; simpl; [now rewrite E | reflexivity].
Qed.

Lemma dropWhile_stops p s : stops p (dropWhile p s).
Proof.
  destruct (dropWhile p s) eqn:E; simpl; [exact I|].
  eapply dropWhile_head; eauto.
Qed.

Lemma takeWhile_app p a b :
  forallb p a = true -> stops p b -> takeWhile p (a ++ b) = a.
Proof.
  induction a as [|x a IH]; simpl.
  - intros _ H. destruct b; simpl in *; [reflexivity| now rewrite H].
  - rewrite andb_true_iff. intros [-> Ha] Hb. now rewrite IH.
Qed.

Lemma dropWhile_app p a b :
  forallb p a = true -> stops p b -> dropWhile p (a ++ b) = b.
Proof.
  induction a as [|x a IH]; simpl.
  - intros _ H. destruct b; simpl in *; [reflexivity| now rewrite H].
  - rewrite andb_true_iff. intros [-> Ha] Hb. now rewrite IH.
Qed.

(** A greedy quantifier commits to the longest run when giving a character
    back cannot turn a failure of the rest of the pattern into a success. *)
Lemma star_greedy_mono {R} ic cs s (k : jsstring -> option R) :
  (forall c t, cset_match ic cs c = true -> k t = None -> k (c :: t) = None) ->
  star_greedy ic cs s k = k (dropWhile (cset_match ic cs) s).
Proof.
  intros Hk.
  assert (Hback : forall s, k (dropWhile (cset_match ic cs) s) = None -> k s = None).
  { induction s0 as [|c s0 IH]; simpl; [auto|].
    destruct (cset_match ic cs c) eqn:E; auto. }
  induction s as [|c s IH]; simpl; [reflexivity|].
  destruct (cset_match ic cs c) eqn:E; [|reflexivity].
  rewrite IH. destruct (k (dropWhile (cset_match ic cs) s)) eqn:Ek; [reflexivity|].
  apply Hk; auto.
Qed.

Lemma star_greedy_commit {R} ic cs s (k : jsstring -> option R) :
  (forall c t, cset_match ic cs c = true -> k (c :: t) = None) ->
  star_greedy ic cs s k = k (dropWhile (cset_match ic cs) s).
Proof. intros Hk. apply star_greedy_mono. auto. Qed.

(** *** Character classes *)

Lemma upper_cases c :
  (toUpperAscii c = c /\ ~ (97 <= c <= 122)%N)
  \/ ((97 <= c <= 122)%N /\ toUpperAscii c = (c - 32)%N).
Proof.
  unfold toUpperAscii. destruct ((97 <=? c) && (c <=? 122))%N eqn:E.
  - right. rewrite andb_true_iff, !N.leb_le in E. auto.
  - left. rewrite andb_false_iff, !N.leb_gt in E. split; [reflexivity | lia].
Qed.

Lemma lower_cases c :
  (toLowerAscii c = c /\ ~ (65 <= c <= 90)%N)
  \/ ((65 <= c <= 90)%N /\ toLowerAscii c = (c + 32)%N).
Proof.
  unfold toLowerAscii. destruct ((65 <=? c) && (c <=? 90))%N eqn:E.
  - right. rewrite andb_true_iff, !N.leb_le in E. auto.
  - left. rewrite andb_false_iff, !N.leb_gt in E. split; [reflexivity | lia].
Qed.

(** Boolean comparisons of code units as linear arithmetic. *)
Ltac b2p :=
  repeat (rewrite ?orb_true_iff, ?andb_true_iff, ?negb_true_iff,
           ?orb_false_iff, ?andb_false_iff, ?negb_false_iff,
           ?N.leb_le, ?N.leb_gt, ?N.eqb_eq, ?N.eqb_neq in * ).

Ltac cases_of c :=
  let U := fresh "U" in let Lo := fresh "Lo" in
  destruct (upper_cases c) as [[U ?]|[? U]];
  destruct (lower_cases c) as [[Lo ?]|[? Lo]];
  rewrite ?U, ?Lo in *.

(** Character literals as numbers. *)
Ltac chars :=
  unfold dquote in *;
  repeat match goal with
    | |- context [ch ?a] =>
        let x := eval vm_compute in (ch a) in change (ch a) with x
    | H : context [ch ?a] |- _ =>
        let x := eval vm_compute in (ch a) in change (ch a) with x in H
    end.

Ltac class_solve c := chars; cases_of c; b2p; lia.

Lemma az_iff c : cset_match true c_az c = true <-> is_letter c.
Proof.
  unfold is_letter, c_az. cbn [cset_match cset_mem]. class_solve c.
Qed.

Lemma alnum_iff c : cset_match true c_alnum c = true <-> is_letter c \/ is_digit c.
Proof.
  unfold is_letter, is_digit, c_alnum, c_az, c_09. cbn [cset_match cset_mem]. class_solve c.
Qed.

Lemma alnum_dash_iff c :
  cset_match true c_alnum_dash c = true <-> is_letter c \/ is_digit c \/ c = 45%N.
Proof.
  unfold is_letter, is_digit, c_alnum_dash, c_az, c_09. cbn [cset_match cset_mem]. class_solve c.
Qed.

Lemma space_match ic c : cset_match ic CSpace c = is_space c.
Proof.
  destruct ic; cbn [cset_match cset_mem]; [|reflexivity].
  destruct (is_space c) eqn:E; [reflexivity|]. simpl.
  unfold is_space in *. cases_of c; b2p; lia.
Qed.

Lemma quote_iff ic c : cset_match ic c_quote c = true <-> c = 34%N \/ c = 39%N.
Proof.
  unfold c_quote. destruct ic; cbn [cset_match cset_mem]; chars; [cases_of c|]; b2p; lia.
Qed.

Lemma not_gt_iff ic c : cset_match ic (CNot c_gt) c = true <-> c <> 62%N.
Proof.
  unfold c_gt. destruct ic; cbn [cset_match cset_mem]; chars; [cases_of c|]; b2p; lia.
Qed.

Lemma space_range c : is_space c = true -> (9 <= c <= 13 \/ c = 32 \/ 160 <= c)%N.
Proof. unfold is_space. b2p. lia. Qed.

Lemma dropWhile_ext p q s : (forall c, p c = q c) -> dropWhile p s = dropWhile q s.
Proof. intros H. induction s as [|c s IH]; simpl; [reflexivity|]. rewrite H, IH. reflexivity. Qed.

Lemma consumed_take p s : consumed s (dropWhile p s) = takeWhile p s.
Proof. rewrite <- (take_drop p s) at 1. apply consumed_app. Qed.

Lemma alnum_not_space c : alnum c = true -> is_space c = false.
Proof.
  intros H. apply alnum_iff in H. destruct (is_space c) eqn:E; [|reflexivity].
  apply space_range in E. unfold is_letter, is_digit in H. lia.
Qed.

(** *** The matcher on the three patterns *)

Lemma exec_tag s : exec_at re_tag s = tag_parse s.
Proof.
  unfold exec_at, re_tag, tag_parse. cbn [pattern ignoreCase rmatch].
  destruct s as [|c s1]; [reflexivity|].
  destruct (char_match true (ch "<") c) eqn:Ec; [|destruct s1; reflexivity].
  destruct s1 as [|a s2]; [reflexivity|].
  destruct (cset_match true c_az a) eqn:Ea; [|reflexivity].
  cbn [andb].
  rewrite star_greedy_commit.
  2:{ intros x t Hx. rewrite space_match. now rewrite (alnum_not_space x Hx). }
  fold alnum.
  destruct (dropWhile alnum s2) as [|w s3] eqn:Ed; [reflexivity|].
  rewrite space_match. destruct (is_space w) eqn:Ew; [|reflexivity].
  assert (Htail : forall caps t,
    star_greedy true (CNot c_gt) t
      (fun s' => match s' with
                 | [] => None
                 | c0 :: s'0 =>
                     if char_match true (ch ">") c0
                     then Some (mkMatch (consumed (c :: a :: s2) s'0)
                                  ((2, consumed t s') :: caps) s'0)
                     else None
                 end)
    = match dropWhile not_gt t with
      | [] => None
      | g :: r => Some (mkMatch (consumed (c :: a :: s2) r)
                          ((2, takeWhile not_gt t) :: caps) r)
      end).
  { intros caps t. rewrite star_greedy_commit.
    - fold not_gt. destruct (dropWhile not_gt t) as [|g r] eqn:Eg; [reflexivity|].
      pose proof (dropWhile_head _ _ _ _ Eg) as Hg.
      assert (g = 62%N) as ->.
      { destruct (N.eq_dec g 62); [assumption|].
        apply (not_gt_iff true) in n. unfold not_gt in Hg. congruence. }
      rewrite char_match_refl. rewrite <- Eg, consumed_take. reflexivity.
    - intros x t' Hx. apply not_gt_iff in Hx.
      destruct (char_match true (ch ">") x) eqn:E; [|reflexivity].
      apply char_match_gt in E. subst. now elim Hx. }
  rewrite star_greedy_mono.
  2:{ intros x t Hx. rewrite !Htail. rewrite space_match in Hx.
      simpl dropWhile.
      assert (not_gt x = true) as ->.
      { apply not_gt_iff. apply space_range in Hx. lia. }
      destruct (dropWhile not_gt t); [reflexivity|discriminate]. }
  rewrite Htail.
  rewrite (dropWhile_ext (cset_match true CSpace) is_space) by (apply space_match).
  cbn zeta.
  destruct (dropWhile not_gt (dropWhile is_space s3)) as [|g r] eqn:Eg; [reflexivity|].
  f_equal. f_equal.
  - pose proof (take_drop alnum s2) as H2. rewrite Ed in H2.
    pose proof (take_drop is_space s3) as H3.
    pose proof (take_drop not_gt (dropWhile is_space s3)) as H4. rewrite Eg in H4.
    rewrite <- H2 at 1. rewrite <- H3 at 1. rewrite <- H4 at 1.
    replace (c :: a :: takeWhile alnum s2 ++ w :: takeWhile is_space s3 ++
               takeWhile not_gt (dropWhile is_space s3) ++ g :: r)
      with ((c :: a :: takeWhile alnum s2 ++ w :: takeWhile is_space s3 ++
               takeWhile not_gt (dropWhile is_space s3) ++ [g]) ++ r).
    + apply consumed_app.
    + simpl. repeat (rewrite <- app_assoc; simpl). reflexivity.
  - f_equal. f_equal. f_equal.
    change (a :: s2) with ([a] ++ s2). rewrite <- Ed.
    rewrite <- (take_drop alnum s2) at 1. rewrite app_assoc. rewrite consumed_app.
    reflexivity.
Qed.

Lemma char_match_eq ic c : char_match ic (ch "=") c = true -> c = ch "=".
Proof. apply char_match_exact; [reflexivity | left; reflexivity]. Qed.

Lemma alnum_dash_not_space c : alnum_dash c = true -> is_space c = false.
Proof.
  intros H. apply alnum_dash_iff in H. destruct (is_space c) eqn:E; [|reflexivity].
  apply space_range in E. unfold is_letter, is_digit in H. lia.
Qed.

Lemma not_quote_neg ic c : cset_match ic (CNot c_quote) c = negb (cset_match ic c_quote c).
Proof. reflexivity. Qed.

Lemma exec_attr s : exec_at attrRegex s = attr_parse s.
Proof.
  unfold exec_at, attrRegex, attr_parse. cbn [pattern ignoreCase rmatch].
  destruct s as [|a s1]; [reflexivity|].
  destruct (cset_match true c_az a) eqn:Ea; [|reflexivity].
  rewrite star_greedy_commit.
  2:{ intros x t Hx. cbn [star_greedy]. rewrite space_match.
      rewrite (alnum_dash_not_space x Hx).
      destruct (char_match true (ch "=") x) eqn:E; [|reflexivity].
      apply char_match_eq in E. subst x. discriminate. }
  fold alnum_dash.
  rewrite star_greedy_commit.
  2:{ intros x t Hx. rewrite space_match in Hx.
      destruct (char_match true (ch "=") x) eqn:E; [|reflexivity].
      apply char_match_eq in E. subst x. discriminate. }
  rewrite (dropWhile_ext (cset_match true CSpace) is_space) by (apply space_match).
  cbn zeta.
  destruct (dropWhile is_space (dropWhile alnum_dash s1)) as [|e s3] eqn:E3; [reflexivity|].
  destruct (char_match true (ch "=") e) eqn:Ee; [|reflexivity].
  rewrite star_greedy_commit.
  2:{ intros x t Hx. rewrite space_match in Hx.
      destruct (cset_match true c_quote x) eqn:E; [|reflexivity].
      apply quote_iff in E. apply space_range in Hx. lia. }
  rewrite (dropWhile_ext (cset_match true CSpace) is_space) by (apply space_match).
  destruct (dropWhile is_space s3) as [|q1 s4] eqn:E4; [reflexivity|].
  destruct (cset_match true c_quote q1) eqn:Eq1; [|reflexivity].
  rewrite star_greedy_commit.
  2:{ intros x t Hx. rewrite not_quote_neg in Hx. apply negb_true_iff in Hx.
      now rewrite Hx. }
  fold not_quote.
  destruct (dropWhile not_quote s4) as [|q2 r] eqn:E5; [reflexivity|].
  pose proof (dropWhile_head _ _ _ _ E5) as Hq2. unfold not_quote in Hq2.
  rewrite not_quote_neg in Hq2. apply negb_false_iff in Hq2. rewrite Hq2.
  pose proof (take_drop alnum_dash s1) as H1.
  pose proof (take_drop is_space (dropWhile alnum_dash s1)) as H2. rewrite E3 in H2.
  pose proof (take_drop is_space s3) as H3. rewrite E4 in H3.
  pose proof (take_drop not_quote s4) as H4. rewrite E5 in H4.
  f_equal. f_equal.
  - rewrite <- H1 at 1. rewrite <- H2 at 1. rewrite <- H3 at 1. rewrite <- H4 at 1.
    match goal with |- consumed ?x r = ?y => replace x with (y ++ r) end.
    + apply consumed_app.
    + simpl. repeat (rewrite <- app_assoc; simpl). reflexivity.
  - f_equal.
    + f_equal. rewrite <- E5. apply consumed_take.
    + f_equal. f_equal. change (a :: s1) with ([a] ++ s1).
      rewrite <- H1 at 1. rewrite app_assoc. apply consumed_app.
Qed.

Lemma exec_gap s : exec_at re_gap s = gap_parse s.
Proof.
  unfold exec_at, re_gap, gap_parse. cbn [pattern ignoreCase rmatch].
  destruct s as [|g s1]; [reflexivity|].
  destruct (char_match false (ch ">") g) eqn:Eg; [|destruct s1; reflexivity].
  destruct s1 as [|w s2]; [reflexivity|].
  rewrite space_match. cbn [andb]. destruct (is_space w) eqn:Ew; [|reflexivity].
  rewrite star_greedy_commit.
  2:{ intros x t Hx. rewrite space_match in Hx.
      destruct (char_match false (ch "<") x) eqn:E; [|reflexivity].
      apply char_match_lt in E. subst x. discriminate. }
  rewrite (dropWhile_ext (cset_match false CSpace) is_space) by (apply space_match).
  destruct (dropWhile is_space s2) as [|l r] eqn:E2; [reflexivity|].
  destruct (char_match false (ch "<") l); [|reflexivity].
  f_equal. f_equal.
  pose proof (take_drop is_space s2) as H2. rewrite E2 in H2.
  rewrite <- H2 at 1.
  match goal with |- consumed ?x r = ?y => replace x with (y ++ r) end.
  - apply consumed_app.
  - simpl. repeat (rewrite <- app_assoc; simpl). reflexivity.
Qed.

Lemma stops_takeWhile p q s : stops p s -> stops p (takeWhile q s).
Proof. destruct s as [|c s]; simpl; [auto|]. intros H. destruct (q c); simpl; auto. Qed.

Lemma stops_app p a b : stops p a -> stops p b -> stops p (a ++ b).
Proof. destruct a; simpl; auto. Qed.

Lemma space_not_alnum c : is_space c = true -> alnum c = false.
Proof.
  intros H. destruct (alnum c) eqn:E; [|reflexivity].
  apply alnum_not_space in E. congruence.
Qed.

Lemma space_not_gt c : is_space c = true -> not_gt c = true.
Proof. intros H. apply not_gt_iff. apply space_range in H. lia. Qed.

Lemma not_gt_false c : not_gt c = false -> c = ch ">".
Proof.
  intros H. destruct (N.eq_dec c 62) as [->|n]; [reflexivity|].
  apply (not_gt_iff true) in n. unfold not_gt in H. congruence.
Qed.

Lemma letter_alnum c : letter c = true -> alnum c = true.
Proof. unfold letter, alnum. rewrite az_iff, alnum_iff. auto. Qed.

Lemma alnum_not_gt c : alnum c = true -> not_gt c = true.
Proof.
  unfold alnum, not_gt. rewrite alnum_iff, not_gt_iff.
  unfold is_letter, is_digit. lia.
Qed.

Lemma alnum_not_lt c : alnum c = true -> c <> ch "<".
Proof.
  unfold alnum. rewrite alnum_iff. unfold is_letter, is_digit. chars. lia.
Qed.

Lemma tag_parse_elim s m :
  tag_parse s = Some m ->
  exists a n w ws attrs,
    s = ch "<" :: a :: n ++ w :: ws ++ attrs ++ ch ">" :: rest m /\
    letter a = true /\ forallb alnum n = true /\
    is_space w = true /\ forallb is_space ws = true /\
    forallb not_gt attrs = true /\ stops is_space attrs /\
    m = mkMatch (ch "<" :: a :: n ++ w :: ws ++ attrs ++ [ch ">"])
                [(2, attrs); (1, a :: n)] (rest m).
Proof.
  unfold tag_parse. destruct s as [|c [|a s2]]; try discriminate.
  destruct (char_match true (ch "<") c) eqn:Ec; [|discriminate].
  destruct (cset_match true c_az a) eqn:Ea; [|discriminate]. cbn [andb].
  destruct (dropWhile alnum s2) as [|w s3] eqn:E2; [discriminate|].
  destruct (is_space w) eqn:Ew; [|discriminate]. cbn zeta.
  destruct (dropWhile not_gt (dropWhile is_space s3)) as [|g r] eqn:E4; [discriminate|].
  intros H. inversion H; subst m; clear H. cbn [rest].
  apply char_match_lt in Ec. subst c.
  pose proof (not_gt_false _ (dropWhile_head _ _ _ _ E4)) as ->.
  exists a, (takeWhile alnum s2), w, (takeWhile is_space s3),
    (takeWhile not_gt (dropWhile is_space s3)).
  repeat split; auto using takeWhile_all.
  - rewrite <- E4, take_drop, take_drop, <- E2, take_drop. reflexivity.
  - apply stops_takeWhile, dropWhile_stops.
Qed.

Lemma tag_parse_intro a n w ws attrs z :
  letter a = true -> forallb alnum n = true ->
  is_space w = true -> forallb is_space ws = true ->
  forallb not_gt attrs = true -> stops is_space attrs ->
  tag_parse (ch "<" :: a :: n ++ w :: ws ++ attrs ++ ch ">" :: z) =
  Some (mkMatch (ch "<" :: a :: n ++ w :: ws ++ attrs ++ [ch ">"])
                [(2, attrs); (1, a :: n)] z).
Proof.
  intros Ha Hn Hw Hws Hat Hst. unfold tag_parse. unfold letter in Ha.
  rewrite Ha, char_match_refl. cbn [andb].
  rewrite (dropWhile_app alnum n), (takeWhile_app alnum n); auto;
    try (simpl; now apply space_not_alnum).
  rewrite Hw. cbn zeta.
  assert (Hs : stops is_space (attrs ++ ch ">" :: z)).
  { apply stops_app; [assumption | reflexivity]. }
  rewrite (dropWhile_app is_space ws), (takeWhile_app is_space ws); auto.
  rewrite (dropWhile_app not_gt attrs), (takeWhile_app not_gt attrs); auto;
    try reflexivity.
Qed.

(** A tag match depends only on the text of the tag. *)
Lemma tag_parse_prefix s m z :
  tag_parse s = Some m ->
  tag_parse (matched m ++ z) = Some (mkMatch (matched m) (groups m) z).
Proof.
  intros H. destruct (tag_parse_elim _ _ H)
    as (a & n & w & ws & attrs & Hs & Ha & Hn & Hw & Hws & Hat & Hst & Hm).
  rewrite Hm. cbn [matched groups].
  rewrite <- (tag_parse_intro a n w ws attrs z) by assumption.
  f_equal. simpl. f_equal. f_equal. repeat (rewrite <- app_assoc; simpl). reflexivity.
Qed.

Lemma tag_parse_other c s : c <> ch "<" -> tag_parse (c :: s) = None.
Proof.
  intros Hc. unfold tag_parse. destruct s as [|a s]; [reflexivity|].
  destruct (char_match true (ch "<") c) eqn:E; [|reflexivity].
  apply char_match_lt in E. contradiction.
Qed.

(** *** The attribute step, one tag at a time *)

Lemma strip_nil : stripAttributes [] = [].
Proof. apply (replaceAllFn_nil _ _ starts_tag). Qed.

Lemma strip_miss c s :
  tag_parse (c :: s) = None ->
  stripAttributes (c :: s) = c :: stripAttributes s.
Proof. intros H. apply replaceAllFn_miss. now rewrite exec_tag. Qed.

Lemma strip_hit s m :
  tag_parse s = Some m ->
  stripAttributes s = tagReplacer m ++ stripAttributes (rest m).
Proof.
  intros H. apply (replaceAllFn_hit _ _ starts_tag). now rewrite exec_tag.
Qed.

Lemma tag_ind (Q : jsstring -> Prop) :
  Q [] ->
  (forall c s, tag_parse (c :: s) = None -> Q s -> Q (c :: s)) ->
  (forall s m, tag_parse s = Some m -> Q (rest m) -> Q s) ->
  forall s, Q s.
Proof.
  intros H0 H1 H2. apply (scan_ind _ _ starts_tag); auto.
  - intros c s E. apply H1. now rewrite <- exec_tag.
  - intros s m E. apply H2. now rewrite <- exec_tag.
Qed.

(** *** The gap step *)

Lemma gap_parse_elim s m :
  gap_parse s = Some m ->
  exists w ws,
    s = ch ">" :: w :: ws ++ ch "<" :: rest m /\
    is_space w = true /\ forallb is_space ws = true /\
    matched m = ch ">" :: w :: ws ++ [ch "<"].
Proof.
  unfold gap_parse. destruct s as [|g [|w s2]]; try discriminate.
  destruct (char_match false (ch ">") g) eqn:Eg; [|discriminate].
  destruct (is_space w) eqn:Ew; [|discriminate]. cbn [andb].
  destruct (dropWhile is_space s2) as [|l r] eqn:E2; [discriminate|].
  destruct (char_match false (ch "<") l) eqn:El; [|discriminate].
  intros H. inversion H; subst m; clear H. cbn [rest matched].
  apply char_match_gt in Eg. apply char_match_lt in El. subst.
  exists w, (takeWhile is_space s2). repeat split; auto using takeWhile_all.
  rewrite <- E2, take_drop. reflexivity.
Qed.

Lemma gap_parse_other c s : c <> ch ">" -> gap_parse (c :: s) = None.
Proof.
  intros Hc. unfold gap_parse. destruct s as [|a s]; [reflexivity|].
  destruct (char_match false (ch ">") c) eqn:E; [|reflexivity].
  apply char_match_gt in E. contradiction.
Qed.

Lemma collapse_nil : collapseGaps [] = [].
Proof. apply (replaceAllFn_nil _ _ starts_gap). Qed.

Lemma collapse_miss c s :
  gap_parse (c :: s) = None -> collapseGaps (c :: s) = c :: collapseGaps s.
Proof. intros H. apply replaceAllFn_miss. now rewrite exec_gap. Qed.

Lemma collapse_hit s m :
  gap_parse s = Some m ->
  collapseGaps s = ch ">" :: ch "<" :: collapseGaps (rest m).
Proof.
  intros H. unfold collapseGaps, replaceAll.
  rewrite (replaceAllFn_hit _ _ starts_gap _ _ m); [reflexivity|].
  now rewrite exec_gap.
Qed.

Lemma gap_ind (Q : jsstring -> Prop) :
  Q [] ->
  (forall c s, gap_parse (c :: s) = None -> Q s -> Q (c :: s)) ->
  (forall s m, gap_parse s = Some m -> Q (rest m) -> Q s) ->
  forall s, Q s.
Proof.
  intros H0 H1 H2. apply (scan_ind _ _ starts_gap); auto.
  - intros c s E. apply H1. now rewrite <- exec_gap.
  - intros s m E. apply H2. now rewrite <- exec_gap.
Qed.

Lemma weight_spaces ws : forallb is_space ws = true -> weight ws = 0.
Proof.
  induction ws as [|c ws IH]; simpl; [reflexivity|].
  rewrite andb_true_iff. intros [Hc Hws]. rewrite weight_cons, Hc. auto.
Qed.

(** The gap step only deletes white space. *)
Lemma collapse_weight s : weight (collapseGaps s) = weight s.
Proof.
  induction s using gap_ind.
  - now rewrite collapse_nil.
  - rewrite collapse_miss by assumption. rewrite !weight_cons. lia.
  - rewrite (collapse_hit _ _ H).
    destruct (gap_parse_elim _ _ H) as (w & ws & Hs & Hw & Hws & _).
    rewrite Hs at 1. rewrite !weight_cons, weight_app, !weight_cons, Hw.
    rewrite (weight_spaces ws Hws). simpl. lia.
Qed.

Lemma collapse_other c s : c <> ch ">" -> collapseGaps (c :: s) = c :: collapseGaps s.
Proof. intros H. apply collapse_miss. now apply gap_parse_other. Qed.

Lemma collapse_head c s : exists s', collapseGaps (c :: s) = c :: s'.
Proof.
  destruct (gap_parse (c :: s)) as [m|] eqn:E.
  - rewrite (collapse_hit _ _ E).
    destruct (gap_parse_elim _ _ E) as (w & ws & Hs & _). inversion Hs; subst.
    eauto.
  - rewrite collapse_miss by assumption. eauto.
Qed.

Lemma collapse_prefix a s :
  forallb (fun c => negb (N.eqb c (ch ">"))) a = true ->
  collapseGaps (a ++ s) = a ++ collapseGaps s.
Proof.
  induction a as [|c a IH]; simpl; [reflexivity|].
  rewrite andb_true_iff, negb_true_iff, N.eqb_neq. intros [Hc Ha].
  rewrite collapse_other by assumption. now rewrite IH.
Qed.

(** *** Attributes *)

Lemma letter_not_space c : letter c = true -> is_space c = false.
Proof. intros H. apply alnum_not_space. now apply letter_alnum. Qed.

Lemma space_not_alnum_dash c : is_space c = true -> alnum_dash c = false.
Proof.
  intros H. destruct (alnum_dash c) eqn:E; [|reflexivity].
  apply alnum_dash_not_space in E. congruence.
Qed.

Lemma quote_not_space c : cset_match true c_quote c = true -> is_space c = false.
Proof.
  rewrite quote_iff. intros H. destruct (is_space c) eqn:E; [|reflexivity].
  apply space_range in E. lia.
Qed.

Lemma quote_not_quote c : cset_match true c_quote c = true -> not_quote c = false.
Proof. intros H. unfold not_quote. rewrite not_quote_neg, H. reflexivity. Qed.

Lemma attr_parse_elim s m :
  attr_parse s = Some m ->
  exists a n w1 w2 q1 v q2,
    s = a :: n ++ w1 ++ ch "=" :: w2 ++ q1 :: v ++ q2 :: rest m /\
    letter a = true /\ forallb alnum_dash n = true /\
    forallb is_space w1 = true /\ forallb is_space w2 = true /\
    cset_match true c_quote q1 = true /\ forallb not_quote v = true /\
    cset_match true c_quote q2 = true /\
    m = mkMatch (a :: n ++ w1 ++ ch "=" :: w2 ++ q1 :: v ++ [q2])
                [(2, v); (1, a :: n)] (rest m).
Proof.
  unfold attr_parse. destruct s as [|a s1]; try discriminate.
  destruct (cset_match true c_az a) eqn:Ea; [|discriminate]. cbn zeta.
  destruct (dropWhile is_space (dropWhile alnum_dash s1)) as [|e s3] eqn:E3;
    [discriminate|].
  destruct (char_match true (ch "=") e) eqn:Ee; [|discriminate].
  destruct (dropWhile is_space s3) as [|q1 s4] eqn:E4; [discriminate|].
  destruct (cset_match true c_quote q1) eqn:Eq1; [|discriminate].
  destruct (dropWhile not_quote s4) as [|q2 r] eqn:E5; [discriminate|].
  intros H. inversion H; subst m; clear H. cbn [rest].
  apply char_match_eq in Ee. subst e.
  pose proof (dropWhile_head _ _ _ _ E5) as Hq2. unfold not_quote in Hq2.
  rewrite not_quote_neg in Hq2. apply negb_false_iff in Hq2.
  exists a, (takeWhile alnum_dash s1), (takeWhile is_space (dropWhile alnum_dash s1)),
    (takeWhile is_space s3), q1, (takeWhile not_quote s4), q2.
  repeat split; auto using takeWhile_all.
  rewrite <- E5, take_drop, <- E4, take_drop, <- E3, take_drop, take_drop. reflexivity.
Qed.

Lemma attr_parse_intro a n w1 w2 q1 v q2 z :
  letter a = true -> forallb alnum_dash n = true ->
  forallb is_space w1 = true -> forallb is_space w2 = true ->
  cset_match true c_quote q1 = true -> forallb not_quote v = true ->
  cset_match true c_quote q2 = true ->
  attr_parse (a :: n ++ w1 ++ ch "=" :: w2 ++ q1 :: v ++ q2 :: z) =
  Some (mkMatch (a :: n ++ w1 ++ ch "=" :: w2 ++ q1 :: v ++ [q2])
                [(2, v); (1, a :: n)] z).
Proof.
  intros Ha Hn H1 H2 Hq1 Hv Hq2. unfold attr_parse. unfold letter in Ha.
  rewrite Ha. cbn zeta.
  assert (S1 : stops alnum_dash (w1 ++ ch "=" :: w2 ++ q1 :: v ++ q2 :: z)).
  { destruct w1 as [|x w1]; simpl; [reflexivity|].
    simpl in H1. apply andb_true_iff in H1. now apply space_not_alnum_dash. }
  rewrite (dropWhile_app alnum_dash n), (takeWhile_app alnum_dash n); auto.
  rewrite (dropWhile_app is_space w1), (takeWhile_app is_space w1); auto;
    try reflexivity.
  rewrite char_match_refl.
  rewrite (dropWhile_app is_space w2), (takeWhile_app is_space w2); auto;
    try (simpl; now apply quote_not_space).
  rewrite Hq1.
  rewrite (dropWhile_app not_quote v), (takeWhile_app not_quote v); auto;
    try (simpl; now apply quote_not_quote).
Qed.

(** An attribute match depends only on the text of the attribute. *)
Lemma attr_parse_prefix s m z :
  attr_parse s = Some m ->
  attr_parse (matched m ++ z) = Some (mkMatch (matched m) (groups m) z).
Proof.
  intros H. destruct (attr_parse_elim _ _ H)
    as (a & n & w1 & w2 & q1 & v & q2 & Hs & Ha & Hn & H1 & H2 & Hq1 & Hv & Hq2 & Hm).
  rewrite Hm. cbn [matched groups].
  rewrite <- (attr_parse_intro a n w1 w2 q1 v q2 z) by assumption.
  f_equal. simpl. f_equal. repeat (rewrite <- app_assoc; simpl). reflexivity.
Qed.

Lemma attr_parse_other c s : letter c = false -> attr_parse (c :: s) = None.
Proof. intros Hc. unfold attr_parse. unfold letter in Hc. now rewrite Hc. Qed.

Lemma starts_attr : starts_with letter attrRegex.
Proof.
  intros s m H. rewrite exec_attr in H.
  destruct (attr_parse_elim _ _ H) as (a & n & w1 & w2 & q1 & v & q2 & _ & Ha & Hm).
  destruct Hm as (_ & _ & _ & _ & _ & _ & ->). cbn [matched]. eauto.
Qed.

Lemma cleaned_nil : cleanedAttrs [] = [].
Proof. unfold cleanedAttrs. now rewrite (execAll_nil _ _ starts_attr). Qed.

Lemma cleaned_miss c s :
  attr_parse (c :: s) = None -> cleanedAttrs (c :: s) = cleanedAttrs s.
Proof.
  intros H. unfold cleanedAttrs. rewrite execAll_miss; [reflexivity|].
  now rewrite exec_attr.
Qed.

Lemma cleaned_hit s m :
  attr_parse s = Some m ->
  cleanedAttrs s =
  (if allowed m then [matched m] else []) ++ cleanedAttrs (rest m).
Proof.
  intros H. unfold cleanedAttrs.
  rewrite (execAll_hit _ _ starts_attr _ m) by (now rewrite exec_attr).
  cbn [filter]. fold (allowed m). now destruct (allowed m).
Qed.

Lemma attr_ind (Q : jsstring -> Prop) :
  Q [] ->
  (forall c s, attr_parse (c :: s) = None -> Q s -> Q (c :: s)) ->
  (forall s m, attr_parse s = Some m -> Q (rest m) -> Q s) ->
  forall s, Q s.
Proof.
  intros H0 H1 H2. apply (scan_ind _ _ starts_attr); auto.
  - intros c s E. apply H1. now rewrite <- exec_attr.
  - intros s m E. apply H2. now rewrite <- exec_attr.
Qed.

Lemma cleaned_kept s : Forall kept (cleanedAttrs s).
Proof.
  induction s using attr_ind.
  - rewrite cleaned_nil. constructor.
  - now rewrite cleaned_miss.
  - rewrite (cleaned_hit _ _ H). destruct (allowed m) eqn:E; [|assumption].
    constructor; [|assumption].
    exists (groups m). split; [exact E|].
    intros z. now apply attr_parse_prefix with (s := s).
Qed.

Lemma cleaned_sub (p : char -> bool) (s : jsstring) :
  forallb p s = true -> Forall (fun k => forallb p k = true) (cleanedAttrs s).
Proof.
  induction s using attr_ind; intros Hp.
  - rewrite cleaned_nil. constructor.
  - rewrite cleaned_miss by assumption. simpl in Hp.
    apply andb_true_iff in Hp. now apply IHs.
  - rewrite (cleaned_hit _ _ H).
    pose proof (exec_at_split attrRegex s m) as Hs. rewrite exec_attr in Hs.
    rewrite (Hs H), forallb_app in Hp. apply andb_true_iff in Hp as [Hp1 Hp2].
    destruct (allowed m); simpl; auto.
Qed.

Lemma cleaned_weight s : weight (concat (cleanedAttrs s)) <= weight s.
Proof.
  induction s using attr_ind.
  - rewrite cleaned_nil. simpl. lia.
  - rewrite cleaned_miss by assumption. rewrite weight_cons. lia.
  - rewrite (cleaned_hit _ _ H). rewrite concat_app, weight_app.
    pose proof (exec_at_split attrRegex s m) as Hs. rewrite exec_attr in Hs.
    rewrite (Hs H) at 1. rewrite weight_app.
    destruct (allowed m); simpl; rewrite ?app_nil_r; lia.
Qed.

Lemma join_cons sep x y l : join sep (x :: y :: l) = x ++ sep ++ join sep (y :: l).
Proof. reflexivity. Qed.

Lemma weight_join l : weight (join (js " ") l) = weight (concat l).
Proof.
  induction l as [|x [|y l] IH].
  - reflexivity.
  - simpl. now rewrite app_nil_r.
  - rewrite join_cons. rewrite !weight_app, IH. cbn [concat].
    rewrite !weight_app. reflexivity.
Qed.

Lemma forallb_join p l :
  p 32%N = true -> Forall (fun k => forallb p k = true) l ->
  forallb p (join (js " ") l) = true.
Proof.
  intros Hsp. induction l as [|x [|y l] IH]; intros Hl.
  - reflexivity.
  - now inversion Hl.
  - rewrite join_cons. inversion Hl; subst.
    rewrite forallb_app. change (js " " ++ join (js " ") (y :: l))
      with (32%N :: join (js " ") (y :: l)).
    cbn [forallb]. apply andb_true_iff; split; [assumption|].
    apply andb_true_iff; split; [assumption|]. now apply IH.
Qed.

Lemma kept_letter k : kept k -> exists a t, k = a :: t /\ letter a = true.
Proof.
  intros (g & _ & Hk). specialize (Hk []). rewrite app_nil_r in Hk.
  destruct (attr_parse_elim _ _ Hk) as (a & n & w1 & w2 & q1 & v & q2 & Hs & Ha & _).
  eauto.
Qed.

(** Cleaning the joined attributes again finds the same attributes. *)
Lemma cleaned_join l : Forall kept l -> cleanedAttrs (join (js " ") l) = l.
Proof.
  induction l as [|x [|y l] IH]; intros Hl.
  - apply cleaned_nil.
  - inversion Hl as [|? ? (g & Hg & Hx) _]; subst. simpl.
    specialize (Hx []). rewrite app_nil_r in Hx.
    rewrite (cleaned_hit _ _ Hx). cbn [rest matched].
    unfold allowed in *. cbn [groups] in *. rewrite Hg, cleaned_nil. reflexivity.
  - inversion Hl as [|? ? (g & Hg & Hx) Hl']; subst.
    rewrite join_cons. rewrite (cleaned_hit _ _ (Hx _)). cbn [rest matched].
    unfold allowed in *. cbn [groups] in *. rewrite Hg.
    change (js " " ++ join (js " ") (y :: l)) with (32%N :: join (js " ") (y :: l)).
    rewrite cleaned_miss by (now apply attr_parse_other).
    rewrite IH by assumption. reflexivity.
Qed.

Lemma cleaned_idem attrs :
  cleanedAttrs (join (js " ") (cleanedAttrs attrs)) = cleanedAttrs attrs.
Proof. apply cleaned_join, cleaned_kept. Qed.

(** *** Rebuilt tags *)

Lemma tagReplacer_parse s m :
  tag_parse s = Some m ->
  exists a n attrs,
    letter a = true /\ forallb alnum n = true /\ forallb not_gt attrs = true /\
    tagReplacer m = rebuildTag (a :: n) attrs /\
    weight (rebuildTag (a :: n) attrs) <= weight (matched m).
Proof.
  intros H. destruct (tag_parse_elim _ _ H)
    as (a & n & w & ws & attrs & Hs & Ha & Hn & Hw & Hws & Hat & Hst & Hm).
  exists a, n, attrs. repeat split; auto.
  - rewrite Hm. reflexivity.
  - rewrite Hm. cbn [matched]. unfold rebuildTag.
    change (js "<" ++ (a :: n) ++ ?x ++ js ">")
      with (ch "<" :: a :: n ++ x ++ [ch ">"]).
    rewrite !weight_cons, !weight_app, !weight_cons, !weight_app.
    change (weight [ch ">"]) with 1. change (weight []) with 0.
    change (is_space (ch ">")) with false. cbn iota.
    pose proof (cleaned_weight attrs) as Hc.
    destruct (cleanedAttrs attrs) as [|k ks] eqn:E.
    + change (weight (js "")) with 0. lia.
    + rewrite weight_app, weight_join. change (weight (js " ")) with 0. lia.
Qed.

Lemma strip_weight s : weight (stripAttributes s) <= weight s.
Proof.
  induction s using tag_ind.
  - now rewrite strip_nil.
  - rewrite strip_miss by assumption. rewrite !weight_cons. lia.
  - rewrite (strip_hit _ _ H).
    destruct (tagReplacer_parse _ _ H) as (a & n & attrs & _ & _ & _ & -> & Hw).
    pose proof (exec_at_split re_tag s m) as Hs. rewrite exec_tag in Hs.
    rewrite (Hs H) at 1. rewrite !weight_app. lia.
Qed.

Lemma strip_other c s : c <> ch "<" -> stripAttributes (c :: s) = c :: stripAttributes s.
Proof. intros H. apply strip_miss. now apply tag_parse_other. Qed.

Lemma rebuildTag_head tag attrs : exists t, rebuildTag tag attrs = ch "<" :: t.
Proof. unfold rebuildTag. simpl. eauto. Qed.

Lemma strip_head c s : exists s', stripAttributes (c :: s) = c :: s'.
Proof.
  destruct (tag_parse (c :: s)) as [m|] eqn:E.
  - rewrite (strip_hit _ _ E).
    destruct (tag_parse_elim _ _ E) as (a & n & w & ws & attrs & Hs & _).
    destruct (tagReplacer_parse _ _ E) as (a' & n' & attrs' & _ & _ & _ & -> & _).
    destruct (rebuildTag_head (a' :: n') attrs') as [t ->].
    inversion Hs; subst. simpl. eauto.
  - rewrite strip_miss by assumption. eauto.
Qed.

Lemma strip_prefix_other a s :
  forallb (fun c => negb (N.eqb c (ch "<"))) a = true ->
  stripAttributes (a ++ s) = a ++ stripAttributes s.
Proof.
  induction a as [|c a IH]; simpl; [reflexivity|].
  rewrite andb_true_iff, negb_true_iff, N.eqb_neq. intros [Hc Ha].
  rewrite strip_other by assumption. now rewrite IH.
Qed.

Lemma strip_gt s : In (ch ">") (stripAttributes s) -> In (ch ">") s.
Proof.
  induction s using tag_ind.
  - now rewrite strip_nil.
  - rewrite strip_miss by assumption. simpl. tauto.
  - intros _. destruct (tag_parse_elim _ _ H) as (a & n & w & ws & attrs & -> & _).
    right. right. apply in_or_app. right. right. apply in_or_app. right.
    apply in_or_app. right. left. reflexivity.
Qed.

Lemma collapse_gt s : In (ch ">") (collapseGaps s) -> In (ch ">") s.
Proof.
  induction s using gap_ind.
  - now rewrite collapse_nil.
  - rewrite collapse_miss by assumption. simpl. tauto.
  - intros _. destruct (gap_parse_elim _ _ H) as (w & ws & -> & _). now left.
Qed.

(** *** Steps that leave the failure of a tag match alone *)

Lemma In_dropWhile p x s : In x s -> p x = false -> In x (dropWhile p s).
Proof.
  induction s as [|c s IH]; simpl; [tauto|].
  intros [->|H] Hx.
  - rewrite Hx. now left.
  - destruct (p c); [auto | now right; assumption].
Qed.

Lemma tag_parse_some a n w s :
  letter a = true -> forallb alnum n = true -> is_space w = true ->
  In (ch ">") s -> tag_parse (ch "<" :: a :: n ++ w :: s) <> None.
Proof.
  intros Ha Hn Hw Hin. unfold tag_parse. unfold letter in Ha.
  rewrite char_match_refl, Ha. cbn [andb].
  rewrite (dropWhile_app alnum n); auto; [|simpl; now apply space_not_alnum].
  rewrite Hw. cbn zeta.
  assert (In (ch ">") (dropWhile not_gt (dropWhile is_space s))) as Hd.
  { apply In_dropWhile; [|reflexivity]. apply In_dropWhile; [assumption|reflexivity]. }
  destruct (dropWhile not_gt (dropWhile is_space s)); [destruct Hd | discriminate].
Qed.

Section Preserved.
Variable F : jsstring -> jsstring.
Hypothesis F_nil : F [] = [].
Hypothesis F_other :
  forall c s, c <> ch "<" -> c <> ch ">" -> F (c :: s) = c :: F s.
Hypothesis F_head : forall c s, exists s', F (c :: s) = c :: s'.
Hypothesis F_gt : forall s, In (ch ">") (F s) -> In (ch ">") s.

Lemma F_head_inv x X s : F s = x :: X -> exists s0, s = x :: s0.
Proof.
  destruct s as [|c s]; [rewrite F_nil; discriminate|].
  destruct (F_head c s) as [s' ->]. intros H. inversion H; subst. eauto.
Qed.

Lemma F_name_inv p : forall w X s,
  forallb alnum p = true -> is_space w = true ->
  F s = p ++ w :: X -> exists s', s = p ++ w :: s' /\ X = F s'.
Proof.
  induction p as [|x p IH]; intros w X s Hp Hw H; simpl in *.
  - destruct (F_head_inv _ _ _ H) as [s0 ->].
    rewrite F_other in H.
    + inversion H. eauto.
    + intros ->. discriminate.
    + intros ->. discriminate.
  - apply andb_true_iff in Hp as [Hx Hp].
    destruct (F_head_inv _ _ _ H) as [s0 ->].
    rewrite F_other in H.
    + inversion H as [H']. destruct (IH _ _ _ Hp Hw H') as (s' & -> & ->). eauto.
    + now apply alnum_not_lt.
    + intros ->. discriminate.
Qed.

Lemma tag_none_preserved c s :
  tag_parse (c :: s) = None -> tag_parse (c :: F s) = None.
Proof.
  intros Hn. destruct (tag_parse (c :: F s)) as [m|] eqn:E; [exfalso|reflexivity].
  destruct (tag_parse_elim _ _ E)
    as (a & n & w & ws & attrs & Hs & Ha & Hnm & Hw & Hws & Hat & Hst & Hm).
  inversion Hs as [[Hc HF]]. subst c.
  assert (Hp : forallb alnum (a :: n) = true).
  { simpl. now rewrite (letter_alnum _ Ha). }
  destruct (F_name_inv (a :: n) w _ s Hp Hw HF) as (s' & -> & HX).
  revert Hn. apply tag_parse_some; auto.
  apply F_gt. rewrite <- HX. apply in_or_app. right. apply in_or_app. right.
  now left.
Qed.
End Preserved.

Lemma strip_none_preserved c s :
  tag_parse (c :: s) = None -> tag_parse (c :: stripAttributes s) = None.
Proof.
  apply tag_none_preserved.
  - apply strip_nil.
  - intros; now apply strip_other.
  - apply strip_head.
  - apply strip_gt.
Qed.

Lemma collapse_none_preserved c s :
  tag_parse (c :: s) = None -> tag_parse (c :: collapseGaps s) = None.
Proof.
  apply tag_none_preserved.
  - apply collapse_nil.
  - intros; now apply collapse_other.
  - apply collapse_head.
  - apply collapse_gt.
Qed.

(** *** The attribute step is idempotent *)

Lemma tag_parse_closed a n Y :
  forallb alnum n = true -> tag_parse (ch "<" :: a :: n ++ ch ">" :: Y) = None.
Proof.
  intros Hn. unfold tag_parse.
  destruct (char_match true (ch "<") (ch "<") && cset_match true c_az a); [|reflexivity].
  rewrite (dropWhile_app alnum n); auto; reflexivity.
Qed.

Lemma alnum_other n :
  forallb alnum n = true -> forallb (fun c => negb (N.eqb c (ch "<"))) n = true.
Proof.
  induction n as [|c n IH]; simpl; [reflexivity|].
  rewrite !andb_true_iff. intros [Hc Hn]. split; [|auto].
  apply negb_true_iff, N.eqb_neq. now apply alnum_not_lt.
Qed.

Lemma rebuildTag_nil tag attrs :
  cleanedAttrs attrs = [] -> rebuildTag tag attrs = ch "<" :: tag ++ [ch ">"].
Proof. intros E. unfold rebuildTag. rewrite E. reflexivity. Qed.

Lemma rebuildTag_cons tag attrs k ks :
  cleanedAttrs attrs = k :: ks ->
  rebuildTag tag attrs
  = ch "<" :: tag ++ 32%N :: join (js " ") (k :: ks) ++ [ch ">"].
Proof. intros E. unfold rebuildTag. rewrite E. reflexivity. Qed.

Lemma rebuild_fixed a n attrs Y :
  letter a = true -> forallb alnum n = true -> forallb not_gt attrs = true ->
  stripAttributes (rebuildTag (a :: n) attrs ++ Y)
  = rebuildTag (a :: n) attrs ++ stripAttributes Y.
Proof.
  intros Ha Hn Hat.
  destruct (cleanedAttrs attrs) as [|k ks] eqn:E.
  - rewrite (rebuildTag_nil _ _ E).
    replace ((ch "<" :: (a :: n) ++ [ch ">"]) ++ Y)
      with (ch "<" :: a :: n ++ ch ">" :: Y)
      by (simpl; now rewrite <- app_assoc).
    rewrite strip_miss by (now apply tag_parse_closed).
    change (a :: n ++ ch ">" :: Y) with ((a :: n) ++ ch ">" :: Y).
    rewrite strip_prefix_other.
    + rewrite strip_other by discriminate.
      simpl. now rewrite <- app_assoc.
    + apply alnum_other. simpl. now rewrite (letter_alnum _ Ha).
  - rewrite (rebuildTag_cons _ _ _ _ E).
    pose proof (cleaned_kept attrs) as Hk. rewrite E in Hk.
    pose proof (cleaned_sub not_gt attrs Hat) as Hg. rewrite E in Hg.
    assert (HS : stops is_space (join (js " ") (k :: ks))).
    { inversion Hk as [|? ? Hk1 _]; subst.
      destruct (kept_letter _ Hk1) as (a' & t & Hk' & Ha'). rewrite Hk'.
      destruct ks; simpl; now apply letter_not_space. }
    assert (HcJ : cleanedAttrs (join (js " ") (k :: ks)) = k :: ks)
      by (now apply cleaned_join).
    assert (HJ : forallb not_gt (join (js " ") (k :: ks)) = true)
      by (now apply forallb_join).
    remember (join (js " ") (k :: ks)) as J eqn:EJ.
    pose proof (tag_parse_intro a n 32%N [] J Y Ha Hn eq_refl eq_refl HJ HS) as Hp.
    replace ((ch "<" :: (a :: n) ++ 32%N :: J ++ [ch ">"]) ++ Y)
      with (ch "<" :: a :: n ++ 32%N :: [] ++ J ++ ch ">" :: Y)
      by (simpl; rewrite <- app_assoc; simpl; now rewrite <- app_assoc).
    etransitivity; [exact (strip_hit _ _ Hp)|]. cbn [rest].
    change (tagReplacer _) with (rebuildTag (a :: n) J).
    rewrite (rebuildTag_cons _ _ _ _ HcJ), <- EJ. reflexivity.
Qed.

Lemma strip_idem s : stripAttributes (stripAttributes s) = stripAttributes s.
Proof.
  induction s using tag_ind.
  - now rewrite !strip_nil.
  - rewrite strip_miss by assumption.
    rewrite strip_miss by (now apply strip_none_preserved).
    now rewrite IHs.
  - rewrite (strip_hit _ _ H).
    destruct (tagReplacer_parse _ _ H) as (a & n & attrs & Ha & Hn & Hat & -> & _).
    rewrite rebuild_fixed by assumption. now rewrite IHs.
Qed.

(** *** The gap step is idempotent *)

Lemma gap_parse_intro w ws z :
  is_space w = true -> forallb is_space ws = true ->
  gap_parse (ch ">" :: w :: ws ++ ch "<" :: z)
  = Some (mkMatch (ch ">" :: w :: ws ++ [ch "<"]) [] z).
Proof.
  intros Hw Hws. unfold gap_parse. rewrite Hw. cbn [char_match andb].
  rewrite N.eqb_refl.
  rewrite (dropWhile_app is_space ws), (takeWhile_app is_space ws); auto;
    try reflexivity.
Qed.

Lemma collapse_head_inv x X s : collapseGaps s = x :: X -> exists s0, s = x :: s0.
Proof.
  destruct s as [|c s]; [rewrite collapse_nil; discriminate|].
  destruct (collapse_head c s) as [s' ->]. intros H. inversion H; subst. eauto.
Qed.

Lemma space_not_gt_char c : is_space c = true -> c <> ch ">".
Proof. intros H ->. discriminate. Qed.

Lemma collapse_spaces_inv sp : forall x X s,
  forallb is_space sp = true ->
  collapseGaps s = sp ++ x :: X -> exists s', s = sp ++ x :: s'.
Proof.
  induction sp as [|p sp IH]; intros x X s Hsp H; simpl in *.
  - apply (collapse_head_inv _ _ _ H).
  - apply andb_true_iff in Hsp as [Hp Hsp].
    destruct (collapse_head_inv _ _ _ H) as [s0 ->].
    rewrite collapse_other in H by (now apply space_not_gt_char).
    inversion H as [H']. destruct (IH _ _ _ Hsp H') as [s' ->]. eauto.
Qed.

Lemma gap_none_preserved c s :
  gap_parse (c :: s) = None -> gap_parse (c :: collapseGaps s) = None.
Proof.
  intros Hn. destruct (gap_parse (c :: collapseGaps s)) as [m|] eqn:E;
    [exfalso|reflexivity].
  destruct (gap_parse_elim _ _ E) as (w & ws & Hs & Hw & Hws & _).
  inversion Hs as [[Hc HW]]. subst c.
  destruct (collapse_spaces_inv (w :: ws) (ch "<") (rest m) s) as [s' ->].
  - simpl. now rewrite Hw.
  - exact HW.
  - pose proof (gap_parse_intro w ws s' Hw Hws) as Hi.
    change (gap_parse (ch ">" :: w :: ws ++ ch "<" :: s') = None) in Hn.
    congruence.
Qed.

Lemma collapse_idem s : collapseGaps (collapseGaps s) = collapseGaps s.
Proof.
  induction s using gap_ind.
  - now rewrite !collapse_nil.
  - rewrite collapse_miss by assumption.
    rewrite collapse_miss by (now apply gap_none_preserved).
    now rewrite IHs.
  - rewrite (collapse_hit _ _ H).
    rewrite collapse_miss by reflexivity.
    rewrite collapse_other by discriminate.
    now rewrite IHs.
Qed.

(** *** After the attribute step, the gap step leaves the tags as they are *)

Lemma spaces_other_gt sp :
  forallb is_space sp = true -> forallb (fun c => negb (N.eqb c (ch ">"))) sp = true.
Proof.
  induction sp as [|c sp IH]; simpl; [reflexivity|].
  rewrite !andb_true_iff. intros [Hc Hsp]. split; [|auto].
  apply negb_true_iff, N.eqb_neq. now apply space_not_gt_char.
Qed.

Lemma spaces_other_lt sp :
  forallb is_space sp = true -> forallb (fun c => negb (N.eqb c (ch "<"))) sp = true.
Proof.
  induction sp as [|c sp IH]; simpl; [reflexivity|].
  rewrite !andb_true_iff. intros [Hc Hsp]. split; [|auto].
  apply negb_true_iff, N.eqb_neq. intros ->. discriminate.
Qed.

Lemma after_gt r :
  exists Z, collapseGaps (ch ">" :: r) = ch ">" :: Z /\
            (stripAttributes (collapseGaps r) = collapseGaps r ->
             stripAttributes Z = Z).
Proof.
  destruct (gap_parse (ch ">" :: r)) as [m|] eqn:E.
  - destruct (gap_parse_elim _ _ E) as (w & ws & Hs & Hw & Hws & _).
    assert (Hr : r = (w :: ws) ++ ch "<" :: rest m) by (now injection Hs).
    exists (ch "<" :: collapseGaps (rest m)).
    split; [apply (collapse_hit _ _ E)|].
    assert (Hsp : forallb is_space (w :: ws) = true) by (simpl; now rewrite Hw).
    rewrite Hr.
    rewrite collapse_prefix by (now apply spaces_other_gt).
    rewrite collapse_other by discriminate.
    rewrite strip_prefix_other by (now apply spaces_other_lt).
    intros H. now apply app_inv_head in H.
  - exists (collapseGaps r). split; [now apply collapse_miss | auto].
Qed.

Lemma gt_split X1 : forall Y1 X2 Y2,
  forallb not_gt X1 = true -> forallb not_gt X2 = true ->
  X1 ++ ch ">" :: Y1 = X2 ++ ch ">" :: Y2 -> X1 = X2 /\ Y1 = Y2.
Proof.
  induction X1 as [|x X1 IH]; intros Y1 X2 Y2 H1 H2 H;
    destruct X2 as [|x2 X2]; simpl in *.
  - inversion H. auto.
  - inversion H; subst. discriminate.
  - inversion H; subst. discriminate.
  - apply andb_true_iff in H1 as [_ H1]. apply andb_true_iff in H2 as [_ H2].
    inversion H; subst. destruct (IH _ _ _ H1 H2 H4) as [-> ->]. auto.
Qed.

Lemma not_gt_other X :
  forallb not_gt X = true -> forallb (fun c => negb (N.eqb c (ch ">"))) X = true.
Proof.
  induction X as [|c X IH]; simpl; [reflexivity|].
  rewrite !andb_true_iff. intros [Hc HX]. split; [|auto].
  apply negb_true_iff, N.eqb_neq. now apply (not_gt_iff true).
Qed.

Lemma forallb_weaken (p q : char -> bool) (s : jsstring) :
  (forall c, p c = true -> q c = true) -> forallb p s = true -> forallb q s = true.
Proof.
  intros H. induction s as [|c s IH]; simpl; [reflexivity|].
  rewrite !andb_true_iff. intros [Hc Hs]. auto.
Qed.

(** The text of a tag without its closing bracket, before and after the
    attribute step, has no bracket. *)
Lemma tag_bodies s m :
  tag_parse s = Some m ->
  exists X X',
    matched m = X ++ [ch ">"] /\ tagReplacer m = X' ++ [ch ">"] /\
    forallb not_gt X = true /\ forallb not_gt X' = true.
Proof.
  intros H. destruct (tag_parse_elim _ _ H)
    as (a & n & w & ws & attrs & Hs & Ha & Hn & Hw & Hws & Hat & Hst & Hm).
  assert (Hn' : forallb not_gt (a :: n) = true).
  { apply (forallb_weaken alnum); [apply alnum_not_gt|].
    simpl. now rewrite (letter_alnum _ Ha). }
  assert (Hws' : forallb not_gt (w :: ws) = true).
  { apply (forallb_weaken is_space); [apply space_not_gt|]. simpl. now rewrite Hw. }
  exists (ch "<" :: (a :: n) ++ (w :: ws) ++ attrs).
  rewrite Hm. cbn [matched]. change (tagReplacer _) with (rebuildTag (a :: n) attrs).
  destruct (cleanedAttrs attrs) as [|k ks] eqn:E.
  - exists (ch "<" :: a :: n). rewrite (rebuildTag_nil _ _ E).
    repeat split.
    + simpl. repeat (rewrite <- app_assoc; simpl). reflexivity.
    + cbn [forallb]. rewrite !forallb_app, Hn', Hws', Hat. reflexivity.
    + cbn [forallb] in *. now rewrite Hn'.
  - exists (ch "<" :: (a :: n) ++ 32%N :: join (js " ") (k :: ks)).
    rewrite (rebuildTag_cons _ _ _ _ E).
    pose proof (cleaned_sub not_gt attrs Hat) as Hg. rewrite E in Hg.
    repeat split.
    + simpl. repeat (rewrite <- app_assoc; simpl). reflexivity.
    + simpl. repeat (rewrite <- app_assoc; simpl). reflexivity.
    + cbn [forallb]. rewrite !forallb_app, Hn', Hws', Hat. reflexivity.
    + change (forallb not_gt ([ch "<"] ++ (a :: n) ++ [32%N]
                                ++ join (js " ") (k :: ks)) = true).
      rewrite !forallb_app.
      apply andb_true_iff; split; [reflexivity|].
      apply andb_true_iff; split; [exact Hn'|].
      apply andb_true_iff; split; [reflexivity|].
      now apply forallb_join.
Qed.

Lemma strip_fixed_collapse t :
  stripAttributes t = t ->
  stripAttributes (collapseGaps t) = collapseGaps t.
Proof.
  revert t. apply (tag_ind (fun t => stripAttributes t = t ->
    stripAttributes (collapseGaps t) = collapseGaps t)).
  - intros _. now rewrite collapse_nil, strip_nil.
  - intros c t Hnone IHt Hfix.
    rewrite strip_miss in Hfix by assumption.
    assert (Hfix' : stripAttributes t = t) by (now injection Hfix).
    specialize (IHt Hfix').
    destruct (N.eq_dec c (ch ">")) as [->|Hc].
    + destruct (after_gt t) as (Z & -> & HZ).
      rewrite strip_other by discriminate. now rewrite HZ.
    + rewrite collapse_other by assumption.
      rewrite strip_miss by (now apply collapse_none_preserved).
      now rewrite IHt.
  - intros t m H IHt Hfix.
    pose proof (exec_at_split re_tag t m) as Hs. rewrite exec_tag in Hs.
    specialize (Hs H).
    destruct (tag_bodies _ _ H) as (X & X' & HX & HX' & HgX & HgX').
    assert (Hfix2 : X' ++ ch ">" :: stripAttributes (rest m)
                    = X ++ ch ">" :: rest m).
    { transitivity t.
      - rewrite <- Hfix at 1. rewrite (strip_hit _ _ H), HX', <- app_assoc.
        reflexivity.
      - rewrite Hs at 1. rewrite HX, <- app_assoc. reflexivity. }
    destruct (gt_split _ _ _ _ HgX' HgX Hfix2) as [HXX Hrest].
    specialize (IHt Hrest).
    destruct (after_gt (rest m)) as (Z & HZ1 & HZ2). specialize (HZ2 IHt).
    assert (Hc : collapseGaps t = matched m ++ Z).
    { rewrite Hs at 1. rewrite HX, <- !app_assoc.
      change ([ch ">"] ++ rest m) with (ch ">" :: rest m).
      rewrite collapse_prefix by (now apply not_gt_other). now rewrite HZ1. }
    rewrite Hc.
    etransitivity; [exact (strip_hit _ _ (tag_parse_prefix _ _ Z H))|].
    cbn [rest].
    change (tagReplacer (mkMatch (matched m) (groups m) Z)) with (tagReplacer m).
    rewrite HZ2, HX', HXX, HX. reflexivity.
Qed.

(** *** The loop *)

Lemma shrinks_le f s : shrinks f -> weight (f s) <= weight s.
Proof. intros H. destruct (H s) as [->|L]; lia. Qed.

Lemma shrinks_fixed f s : shrinks f -> weight s <= weight (f s) -> f s = s.
Proof. intros H L. destruct (H s) as [E|L']; [exact E | lia]. Qed.

Lemma shrinks_comp f g : shrinks f -> shrinks g -> shrinks (fun s => g (f s)).
Proof.
  intros Hf Hg s. destruct (Hf s) as [E|L].
  - rewrite E. apply Hg.
  - right. pose proof (shrinks_le g (f s) Hg). lia.
Qed.

Lemma removal_shrinks re : starts_with nonspace re -> shrinks (replaceAll re []).
Proof. intros H s. now apply removal_weight. Qed.

Lemma removeElements_shrinks : shrinks removeElements.
Proof.
  unfold removeElements.
  repeat (apply (shrinks_comp _ (replaceAll _ (js "")));
          [|apply removal_shrinks;
            first [ exact starts_script | exact starts_style | exact starts_svg
                  | exact starts_img_base64 | exact starts_meta
                  | exact starts_data_uri | exact starts_i | exact starts_input ]]).
  apply removal_shrinks, starts_head.
Qed.

Lemma pruneEmpty_shrinks : shrinks pruneEmpty.
Proof. apply removal_shrinks, starts_empty. Qed.

Lemma pass_weight s : weight (pass s) <= weight s.
Proof.
  unfold pass.
  pose proof (shrinks_le _ (collapseGaps (stripAttributes (removeElements s)))
                pruneEmpty_shrinks) as H1.
  pose proof (collapse_weight (stripAttributes (removeElements s))) as H2.
  pose proof (strip_weight (removeElements s)) as H3.
  pose proof (shrinks_le _ s removeElements_shrinks) as H4.
  lia.
Qed.

(** A pass that keeps the weight only ran the two rewriting steps. *)
Lemma pass_stable s :
  weight (pass s) = weight s ->
  removeElements s = s /\
  pass s = collapseGaps (stripAttributes s) /\
  pruneEmpty (pass s) = pass s.
Proof.
  unfold pass. intros H.
  pose proof (shrinks_le _ (collapseGaps (stripAttributes (removeElements s)))
                pruneEmpty_shrinks) as H1.
  pose proof (collapse_weight (stripAttributes (removeElements s))) as H2.
  pose proof (strip_weight (removeElements s)) as H3.
  pose proof (shrinks_le _ s removeElements_shrinks) as H4.
  assert (E1 : removeElements s = s).
  { apply (shrinks_fixed _ _ removeElements_shrinks). lia. }
  rewrite E1 in *.
  assert (E2 : pruneEmpty (collapseGaps (stripAttributes s))
               = collapseGaps (stripAttributes s)).
  { apply (shrinks_fixed _ _ pruneEmpty_shrinks). lia. }
  rewrite E2. repeat split. now rewrite E2.
Qed.

Lemma pass_twice s :
  weight (pass (pass s)) = weight s -> pass (pass s) = pass s.
Proof.
  intros H. pose proof (pass_weight s). pose proof (pass_weight (pass s)).
  destruct (pass_stable s) as (_ & E1 & _); [lia|].
  destruct (pass_stable (pass s)) as (_ & E2 & _); [lia|].
  rewrite E2. rewrite E1 at 1 2.
  rewrite (strip_fixed_collapse _ (strip_idem s)).
  now rewrite collapse_idem.
Qed.

Lemma sanitizeLoop_bound n : forall s,
  weight s <= n ->
  exists r, sanitizeLoop (2 * n + 2) s = Some r /\ pass r = r.
Proof.
  induction n as [|n IH]; intros s Hs.
  - cbn [Nat.mul Nat.add sanitizeLoop].
    destruct (jseqb (pass s) s) eqn:E1.
    + apply jseqb_eq in E1. exists (pass s). split; [reflexivity | now rewrite E1].
    + destruct (jseqb (pass (pass s)) (pass s)) eqn:E2.
      * apply jseqb_eq in E2. exists (pass (pass s)). split; [reflexivity|].
        now rewrite E2.
      * exfalso. pose proof (pass_weight s). pose proof (pass_weight (pass s)).
        rewrite pass_twice in E2 by lia. now rewrite jseqb_refl in E2.
  - replace (2 * S n + 2) with (S (S (2 * n + 2))) by lia.
    cbn [sanitizeLoop].
    destruct (jseqb (pass s) s) eqn:E1.
    + apply jseqb_eq in E1. exists (pass s). split; [reflexivity | now rewrite E1].
    + destruct (jseqb (pass (pass s)) (pass s)) eqn:E2.
      * apply jseqb_eq in E2. exists (pass (pass s)). split; [reflexivity|].
        now rewrite E2.
      * apply IH. pose proof (pass_weight s). pose proof (pass_weight (pass s)).
        destruct (Nat.eq_dec (weight (pass (pass s))) (weight s)) as [E|E]; [|lia].
        rewrite pass_twice in E2 by assumption. now rewrite jseqb_refl in E2.
Qed.

Lemma sanitizeLoop_more n : forall s r,
  sanitizeLoop n s = Some r -> sanitizeLoop (S n) s = Some r.
Proof.
  induction n as [|n IH]; intros s r H; [discriminate|].
  cbn [sanitizeLoop] in *. destruct (jseqb (pass s) s); [exact H | now apply IH].
Qed.

Lemma sanitizeLoop_fixed n s r : sanitizeLoop n s = Some r -> pass r = r.
Proof.
  revert s. induction n as [|n IH]; intros s H; [discriminate|].
  cbn [sanitizeLoop] in H. destruct (jseqb (pass s) s) eqn:E.
  - apply jseqb_eq in E. inversion H; subst. now rewrite E.
  - now apply IH with (s := pass s).
Qed.

Lemma removeUnwantedElements_run html :
  sanitizeLoop (iterations html) html = Some (removeUnwantedElements html).
Proof.
  unfold removeUnwantedElements, iterations.
  destruct (sanitizeLoop_bound (weight html) html (le_n _)) as (r & -> & _).
  reflexivity.
Qed.

Lemma removeUnwantedElements_fixed html :
  pass (removeUnwantedElements html) = removeUnwantedElements html.
Proof. apply (sanitizeLoop_fixed _ _ _ (removeUnwantedElements_run html)). Qed.

(** What a fixed point of the pass looks like: no step applies to it. *)
Lemma replaceAll_fixed re s :
  starts_with nonspace re -> replaceAll re [] s = s -> execAll re s = [].
Proof.
  intros Hre. revert s.
  apply (scan_ind re nonspace Hre
           (fun s => replaceAll re [] s = s -> execAll re s = [])).
  - intros _. apply (execAll_nil _ _ Hre).
  - intros c s E IH H. unfold replaceAll in H.
    rewrite (replaceAllFn_miss _ _ _ _ E) in H.
    rewrite (execAll_miss _ _ _ E). apply IH. now injection H.
  - intros s m E _ H. exfalso. unfold replaceAll in H.
    rewrite (replaceAllFn_hit _ _ Hre _ _ _ E) in H. cbn [app] in H.
    pose proof (shrinks_le _ (rest m) (removal_shrinks re Hre)) as L.
    unfold replaceAll in L. rewrite H in L.
    destruct (Hre _ _ E) as (c & t & Hm & Hc).
    rewrite (exec_at_split _ _ _ E) in L at 1.
    rewrite weight_app, Hm, weight_cons in L.
    unfold nonspace in Hc. apply negb_true_iff in Hc. rewrite Hc in L. lia.
Qed.

Lemma test_false re s : execAll re s = [] -> test re s = false.
Proof. unfold test. now intros ->. Qed.

(** *** What does not change under a pass *)

Lemma shrinks_both f g s :
  shrinks f -> shrinks g -> g (f s) = s -> f s = s /\ g s = s.
Proof.
  intros Hf Hg H.
  assert (E : f s = s).
  { apply (shrinks_fixed _ _ Hf). rewrite <- H at 1. now apply shrinks_le. }
  split; [exact E | now rewrite E in H].
Qed.

Lemma removeElements_fixed s :
  removeElements s = s ->
  replaceAll re_head [] s = s /\ replaceAll re_script [] s = s /\
  replaceAll re_style [] s = s /\ replaceAll re_svg [] s = s /\
  replaceAll re_img_base64 [] s = s /\ replaceAll re_meta [] s = s /\
  replaceAll re_data_uri [] s = s /\ replaceAll re_i [] s = s /\
  replaceAll re_input [] s = s.
Proof.
  unfold removeElements. change (js "") with (@nil char). intros H9.
  set (h1 := removal_shrinks _ starts_head).
  set (h2 := removal_shrinks _ starts_script).
  set (h3 := removal_shrinks _ starts_style).
  set (h4 := removal_shrinks _ starts_svg).
  set (h5 := removal_shrinks _ starts_img_base64).
  set (h6 := removal_shrinks _ starts_meta).
  set (h7 := removal_shrinks _ starts_data_uri).
  set (h8 := removal_shrinks _ starts_i).
  set (h9 := removal_shrinks _ starts_input).
  pose proof (shrinks_comp _ _ h1 h2) as c2.
  pose proof (shrinks_comp _ _ c2 h3) as c3.
  pose proof (shrinks_comp _ _ c3 h4) as c4.
  pose proof (shrinks_comp _ _ c4 h5) as c5.
  pose proof (shrinks_comp _ _ c5 h6) as c6.
  pose proof (shrinks_comp _ _ c6 h7) as c7.
  pose proof (shrinks_comp _ _ c7 h8) as c8.
  destruct (shrinks_both _ _ s c8 h9 H9) as [H8 E9].
  destruct (shrinks_both _ _ s c7 h8 H8) as [H7 E8].
  destruct (shrinks_both _ _ s c6 h7 H7) as [H6 E7].
  destruct (shrinks_both _ _ s c5 h6 H6) as [H5 E6].
  destruct (shrinks_both _ _ s c4 h5 H5) as [H4 E5].
  destruct (shrinks_both _ _ s c3 h4 H4) as [H3 E4].
  destruct (shrinks_both _ _ s c2 h3 H3) as [H2 E3].
  destruct (shrinks_both _ _ s h1 h2 H2) as [E1 E2].
  repeat split; assumption.
Qed.

Lemma pass_fixed r :
  pass r = r ->
  removeElements r = r /\ stripAttributes r = r /\
  collapseGaps r = r /\ pruneEmpty r = r.
Proof.
  intros H.
  destruct (pass_stable r) as (E1 & E2 & E3); [now rewrite H|].
  rewrite H in E2, E3.
  assert (EW : collapseGaps r = r).
  { rewrite E2 at 1. rewrite collapse_idem. now symmetry. }
  assert (ET : stripAttributes r = r).
  { rewrite E2 at 1. rewrite (strip_fixed_collapse _ (strip_idem r)). now symmetry. }
  auto.
Qed.

Lemma collapse_fixed r : collapseGaps r = r -> execAll re_gap r = [].
Proof.
  revert r. apply (gap_ind (fun r => collapseGaps r = r -> execAll re_gap r = [])).
  - intros _. apply (execAll_nil _ _ starts_gap).
  - intros c s E IH H. rewrite collapse_miss in H by assumption.
    rewrite execAll_miss by (now rewrite exec_gap). apply IH. now injection H.
  - intros s m E _ H. exfalso. rewrite (collapse_hit _ _ E) in H.
    destruct (gap_parse_elim _ _ E) as (w & ws & Hs & Hw & _).
    rewrite Hs in H. injection H as H. subst w. discriminate.
Qed.

(** The tags of a string on which the attribute step does nothing. *)
Lemma execAll_origin re P s m :
  starts_with P re -> In m (execAll re s) -> exists s', exec_at re s' = Some m.
Proof.
  intros Hre. revert s.
  apply (scan_ind re P Hre
           (fun s => In m (execAll re s) -> exists s', exec_at re s' = Some m)).
  - rewrite (execAll_nil _ _ Hre). intros [].
  - intros c s E IH. now rewrite (execAll_miss _ _ _ E).
  - intros s m' E IH. rewrite (execAll_hit _ _ Hre _ _ E).
    intros [->|H]; eauto.
Qed.

Lemma strip_fixed_tags r :
  stripAttributes r = r ->
  forall m, In m (execAll re_tag r) -> tagReplacer m = matched m.
Proof.
  revert r. apply (tag_ind (fun r => stripAttributes r = r ->
    forall m, In m (execAll re_tag r) -> tagReplacer m = matched m)).
  - intros _ m. rewrite (execAll_nil _ _ starts_tag). intros [].
  - intros c s E IH H m. rewrite strip_miss in H by assumption.
    rewrite execAll_miss by (now rewrite exec_tag). apply IH. now injection H.
  - intros s m' E IH H m.
    pose proof (exec_at_split re_tag s m') as Hs. rewrite exec_tag in Hs.
    specialize (Hs E).
    destruct (tag_bodies _ _ E) as (X & X' & HX & HX' & HgX & HgX').
    assert (H2 : X' ++ ch ">" :: stripAttributes (rest m')
                 = X ++ ch ">" :: rest m').
    { transitivity s.
      - rewrite <- H at 1. rewrite (strip_hit _ _ E), HX', <- app_assoc.
        reflexivity.
      - rewrite Hs at 1. rewrite HX, <- app_assoc. reflexivity. }
    destruct (gt_split _ _ _ _ HgX' HgX H2) as [HXX Hrest].
    rewrite (execAll_hit _ _ starts_tag _ m') by (now rewrite exec_tag).
    intros [<-|Hin].
    + now rewrite HX, HX', HXX.
    + now apply IH.
Qed.

Lemma execAll_join_allowed l :
  Forall kept l ->
  Forall (fun m => allowed m = true) (execAll attrRegex (join (js " ") l)).
Proof.
  induction l as [|x [|y l] IH]; intros Hl.
  - cbn [join]. rewrite (execAll_nil _ _ starts_attr). constructor.
  - inversion Hl as [|? ? (g & Hg & Hx) _]; subst. cbn [join].
    specialize (Hx []). rewrite app_nil_r in Hx.
    rewrite (execAll_hit _ _ starts_attr _ _) by (rewrite exec_attr; exact Hx).
    cbn [rest]. rewrite (execAll_nil _ _ starts_attr). repeat constructor.
    exact Hg.
  - inversion Hl as [|? ? (g & Hg & Hx) Hl']; subst.
    rewrite join_cons.
    rewrite (execAll_hit _ _ starts_attr _ _) by (rewrite exec_attr; apply Hx).
    cbn [rest]. constructor; [exact Hg|].
    change (js " " ++ join (js " ") (y :: l)) with (32%N :: join (js " ") (y :: l)).
    rewrite execAll_miss by (rewrite exec_attr; now apply attr_parse_other).
    now apply IH.
Qed.

Lemma spaces_then_stop (ws attrs J : jsstring) :
  forallb is_space ws = true -> stops is_space J -> J <> [] ->
  J = ws ++ attrs -> ws = [].
Proof.
  intros Hws HJ Hne E. destruct ws as [|x ws]; [reflexivity|].
  simpl in Hws. apply andb_true_iff in Hws as [Hx _].
  subst J. simpl in HJ. congruence.
Qed.

(** In a tag that the attribute step leaves as it is, every attribute is an
    allowed one. *)
Lemma fixed_tag_attrs s m :
  tag_parse s = Some m -> tagReplacer m = matched m ->
  Forall (fun a => allowed a = true) (execAll attrRegex (get_cap 2 (groups m))).
Proof.
  intros H Hfix. destruct (tag_parse_elim _ _ H)
    as (a & n & w & ws & attrs & Hs & Ha & Hn & Hw & Hws & Hat & Hst & Hm).
  rewrite Hm in Hfix |- *. cbn [matched groups get_cap Nat.eqb] in *.
  change (tagReplacer _) with (rebuildTag (a :: n) attrs) in Hfix.
  destruct (cleanedAttrs attrs) as [|k ks] eqn:E.
  - exfalso. rewrite (rebuildTag_nil _ _ E) in Hfix.
    injection Hfix as Hfix. apply app_inv_head in Hfix.
    injection Hfix as Hfix _. subst w. discriminate.
  - rewrite (rebuildTag_cons _ _ _ _ E) in Hfix.
    injection Hfix as Hfix. apply app_inv_head in Hfix.
    injection Hfix as Hw' Hfix.
    rewrite app_assoc in Hfix. apply app_inv_tail in Hfix.
    pose proof (cleaned_kept attrs) as Hk. rewrite E in Hk.
    assert (HS : stops is_space (join (js " ") (k :: ks))
                 /\ join (js " ") (k :: ks) <> []).
    { inversion Hk as [|? ? Hk1 _]; subst.
      destruct (kept_letter _ Hk1) as (a' & t & Hk' & Ha'). rewrite Hk'.
      destruct ks; simpl; split; try discriminate; now apply letter_not_space. }
    destruct HS as [HS Hne].
    pose proof (spaces_then_stop ws attrs _ Hws HS Hne Hfix) as ->.
    cbn [app] in Hfix. rewrite <- Hfix.
    now apply (execAll_join_allowed (k :: ks)).
Qed.

Lemma fixed_attributes r :
  stripAttributes r = r ->
  forall m, In m (execAll re_tag r) ->
  Forall (fun a => allowed a = true) (execAll attrRegex (get_cap 2 (groups m))).
Proof.
  intros H m Hin.
  destruct (execAll_origin _ _ _ _ starts_tag Hin) as [s' Hs'].
  rewrite exec_tag in Hs'.
  apply (fixed_tag_attrs _ _ Hs'). now apply strip_fixed_tags with (r := r).
Qed.

Lemma fixed_tests r :
  pass r = r ->
  test re_head r = false /\ test re_script r = false /\
  test re_style r = false /\ test re_svg r = false /\
  test re_img_base64 r = false /\ test re_meta r = false /\
  test re_data_uri r = false /\ test re_i r = false /\
  test re_input r = false /\ test re_gap r = false /\
  test re_empty r = false /\ stripAttributes r = r.
Proof.
  intros H. destruct (pass_fixed r H) as (HA & HT & HW & HP).
  destruct (removeElements_fixed r HA)
    as (E1 & E2 & E3 & E4 & E5 & E6 & E7 & E8 & E9).
  repeat split; try exact HT; apply test_false;
    try (apply replaceAll_fixed; [|assumption]).
  - exact starts_head.
  - exact starts_script.
  - exact starts_style.
  - exact starts_svg.
  - exact starts_img_base64.
  - exact starts_meta.
  - exact starts_data_uri.
  - exact starts_i.
  - exact starts_input.
  - now apply collapse_fixed.
  - exact starts_empty.
Qed.

Lemma sanitizeLoop_plus n k s r :
  sanitizeLoop n s = Some r -> sanitizeLoop (n + k) s = Some r.
Proof.
  intros H. induction k as [|k IH].
  - now rewrite Nat.add_0_r.
  - rewrite Nat.add_succ_r. now apply sanitizeLoop_more.
Qed.

Lemma mapi_index k l : map index (mapi k l) = seq k (length l).
Proof.
  revert k; induction l as [|t l IH]; intros k; simpl; [reflexivity|].
  now rewrite IH.
Qed.

Lemma mapi_fields k l :
  map (fun p => (page_title p, page_url p)) (mapi k l)
  = map (fun t => (title t, url t)) l.
Proof.
  revert k; induction l as [|t l IH]; intros k; simpl; [reflexivity|].
  now rewrite IH.
Qed.

Lemma cleaned_single (name v : jsstring) a n :
  name = a :: n -> letter a = true -> forallb alnum_dash n = true ->
  has allowedAttrs (toLowerCase name) = true ->
  forallb not_quote v = true ->
  cleanedAttrs (name ++ ch "=" :: dquote :: v ++ [dquote])
  = [name ++ ch "=" :: dquote :: v ++ [dquote]].
Proof.
  intros -> Ha Hn Hal Hv.
  pose proof (attr_parse_intro a n [] [] dquote v dquote [] Ha Hn eq_refl eq_refl
                eq_refl Hv eq_refl) as Hp.
  cbn [app] in Hp.
  assert (E : (a :: n) ++ ch "=" :: dquote :: v ++ [dquote]
              = a :: n ++ ch "=" :: dquote :: v ++ [dquote]) by reflexivity.
  rewrite E. rewrite (cleaned_hit _ _ Hp). cbn [rest matched].
  unfold allowed. cbn [groups get_cap Nat.eqb]. rewrite Hal, cleaned_nil.
  reflexivity.
Qed.

End FilterFacts.

Import RegexFacts FilterFacts.

(** ** More facts about the steps *)

Module MoreFacts.

(** *** Leaving characters out *)

Lemma subseq_refl s : subseq s s.
Proof. induction s; [apply subseq_nil | now apply subseq_keep]. Qed.

Lemma subseq_nil_l s : subseq [] s.
Proof. induction s; [apply subseq_nil | now apply subseq_skip]. Qed.

Lemma subseq_trans a b c : subseq a b -> subseq b c -> subseq a c.
Proof.
  intros Hab Hbc. revert a Hab.
  induction Hbc as [|x b c Hbc IH|x b c Hbc IH]; intros a Hab.
  - exact Hab.
  - apply subseq_skip. now apply IH.
  - inversion Hab; subst.
    + apply subseq_skip. now apply IH.
    + apply subseq_keep. now apply IH.
Qed.

Lemma subseq_app a b c d : subseq a b -> subseq c d -> subseq (a ++ c) (b ++ d).
Proof.
  intros Hab Hcd. induction Hab; simpl.
  - exact Hcd.
  - now apply subseq_skip.
  - now apply subseq_keep.
Qed.

Lemma subseq_drop p s : subseq s (p ++ s).
Proof. induction p; simpl; [apply subseq_refl | now apply subseq_skip]. Qed.

Lemma subseq_filter (f : char -> bool) a b :
  subseq a b -> subseq (filter f a) (filter f b).
Proof.
  intros H. induction H; simpl.
  - apply subseq_nil.
  - destruct (f c); [apply subseq_skip|]; assumption.
  - destruct (f c); [apply subseq_keep|]; assumption.
Qed.

Lemma visible_app a b : visible (a ++ b) = visible a ++ visible b.
Proof. unfold visible. apply filter_app. Qed.

Lemma visible_spaces ws : forallb is_space ws = true -> visible ws = [].
Proof.
  induction ws as [|c ws IH]; simpl; [reflexivity|].
  rewrite andb_true_iff. intros [Hc Hws]. unfold nonspace. rewrite Hc. simpl.
  now apply IH.
Qed.

Lemma visible_join l : visible (join (js " ") l) = visible (concat l).
Proof.
  induction l as [|x [|y l] IH].
  - reflexivity.
  - simpl. now rewrite app_nil_r.
  - rewrite join_cons. rewrite !visible_app, IH. cbn [concat].
    rewrite !visible_app. reflexivity.
Qed.

(** *** Every step only deletes *)

Lemma removal_subseq re P s :
  starts_with P re -> subseq (replaceAll re [] s) s.
Proof.
  intros Hre. revert s.
  apply (scan_ind re P Hre (fun s => subseq (replaceAll re [] s) s)).
  - unfold replaceAll. rewrite (replaceAllFn_nil _ _ Hre). constructor.
  - intros c s E IH. unfold replaceAll in *.
    rewrite (replaceAllFn_miss _ _ _ _ E). now apply subseq_keep.
  - intros s m E IH. unfold replaceAll in *.
    rewrite (replaceAllFn_hit _ _ Hre _ _ _ E). cbn [app].
    rewrite (exec_at_split _ _ _ E) at 1.
    eapply subseq_trans; [exact IH | apply subseq_drop].
Qed.

Lemma cleaned_subseq (s : jsstring) : subseq (concat (cleanedAttrs s)) s.
Proof.
  induction s using attr_ind.
  - rewrite cleaned_nil. constructor.
  - rewrite cleaned_miss by assumption. now apply subseq_skip.
  - rewrite (cleaned_hit _ _ H), concat_app.
    pose proof (exec_at_split attrRegex s m) as Hs. rewrite exec_attr in Hs.
    rewrite (Hs H) at 1.
    destruct (allowed m); cbn [concat].
    + rewrite app_nil_r. apply subseq_app; [apply subseq_refl | assumption].
    + cbn [app]. eapply subseq_trans; [eassumption | apply subseq_drop].
Qed.

Lemma rebuild_subseq s m :
  tag_parse s = Some m -> subseq (visible (tagReplacer m)) (visible (matched m)).
Proof.
  intros H. destruct (tag_parse_elim _ _ H)
    as (a & n & w & ws & attrs & Hs & Ha & Hn & Hw & Hws & Hat & Hst & Hm).
  rewrite Hm. cbn [matched]. change (tagReplacer _) with (rebuildTag (a :: n) attrs).
  assert (Hsp : visible (w :: ws) = []).
  { apply visible_spaces. simpl. now rewrite Hw. }
  assert (Hk : subseq (visible (concat (cleanedAttrs attrs))) (visible attrs)).
  { apply subseq_filter, cleaned_subseq. }
  change (ch "<" :: a :: n ++ w :: ws ++ attrs ++ [ch ">"])
    with ([ch "<"] ++ (a :: n) ++ (w :: ws) ++ attrs ++ [ch ">"]).
  rewrite !visible_app, Hsp. cbn [app].
  destruct (cleanedAttrs attrs) as [|k ks] eqn:E.
  - rewrite (rebuildTag_nil _ _ E).
    change (ch "<" :: (a :: n) ++ [ch ">"]) with ([ch "<"] ++ (a :: n) ++ [ch ">"]).
    rewrite !visible_app.
    apply subseq_app; [apply subseq_refl|].
    apply subseq_app; [apply subseq_refl|]. apply subseq_drop.
  - rewrite (rebuildTag_cons _ _ _ _ E).
    change (ch "<" :: (a :: n) ++ 32%N :: join (js " ") (k :: ks) ++ [ch ">"])
      with ([ch "<"] ++ (a :: n) ++ [32%N] ++ join (js " ") (k :: ks) ++ [ch ">"]).
    rewrite !visible_app, visible_join.
    change (visible [32%N]) with (@nil char). cbn [app].
    apply subseq_app; [apply subseq_refl|].
    apply subseq_app; [apply subseq_refl|].
    apply subseq_app; [assumption | apply subseq_refl].
Qed.

Lemma strip_visible s : subseq (visible (stripAttributes s)) (visible s).
Proof.
  induction s using tag_ind.
  - rewrite strip_nil. constructor.
  - rewrite strip_miss by assumption.
    change (c :: stripAttributes s) with ([c] ++ stripAttributes s).
    change (c :: s) with ([c] ++ s). rewrite !visible_app.
    apply subseq_app; [apply subseq_refl | assumption].
  - rewrite (strip_hit _ _ H).
    pose proof (exec_at_split re_tag s m) as Hs. rewrite exec_tag in Hs.
    rewrite (Hs H) at 1. rewrite !visible_app.
    apply subseq_app; [now apply rebuild_subseq with (s := s) | assumption].
Qed.

Lemma collapse_visible s : visible (collapseGaps s) = visible s.
Proof.
  induction s using gap_ind.
  - now rewrite collapse_nil.
  - rewrite collapse_miss by assumption.
    change (c :: collapseGaps s) with ([c] ++ collapseGaps s).
    change (c :: s) with ([c] ++ s). now rewrite !visible_app, IHs.
  - rewrite (collapse_hit _ _ H).
    destruct (gap_parse_elim _ _ H) as (w & ws & Hs & Hw & Hws & _).
    rewrite Hs at 1.
    change (ch ">" :: ch "<" :: collapseGaps (rest m))
      with ([ch ">"] ++ [ch "<"] ++ collapseGaps (rest m)).
    change (ch ">" :: w :: ws ++ ch "<" :: rest m)
      with ([ch ">"] ++ (w :: ws) ++ [ch "<"] ++ rest m).
    rewrite !visible_app, IHs.
    rewrite (visible_spaces (w :: ws)) by (simpl; now rewrite Hw).
    reflexivity.
Qed.

Lemma removeElements_visible s : subseq (visible (removeElements s)) (visible s).
Proof.
  apply subseq_filter. unfold removeElements. change (js "") with (@nil char).
  repeat (eapply subseq_trans;
          [eapply removal_subseq;
           first [ exact starts_script | exact starts_style | exact starts_svg
                 | exact starts_img_base64 | exact starts_meta
                 | exact starts_data_uri | exact starts_i | exact starts_input ]|]).
  eapply removal_subseq, starts_head.
Qed.

Lemma pass_visible s : subseq (visible (pass s)) (visible s).
Proof.
  unfold pass.
  eapply subseq_trans.
  { apply subseq_filter. eapply removal_subseq, starts_empty. }
  rewrite collapse_visible.
  eapply subseq_trans; [apply strip_visible | apply removeElements_visible].
Qed.

Lemma sanitizeLoop_visible n : forall s r,
  sanitizeLoop n s = Some r -> subseq (visible r) (visible s).
Proof.
  induction n as [|n IH]; intros s r H; [discriminate|].
  cbn [sanitizeLoop] in H. destruct (jseqb (pass s) s).
  - inversion H; subst. apply pass_visible.
  - eapply subseq_trans; [apply (IH _ _ H) | apply pass_visible].
Qed.


(** *** Strings on which a step does nothing *)

Lemma replaceAllFn_unmatched re P f s :
  starts_with P re -> execAll re s = [] -> replaceAllFn re f s = s.
Proof.
  intros Hre. revert s.
  apply (scan_ind re P Hre
           (fun s => execAll re s = [] -> replaceAllFn re f s = s)).
  - intros _. apply (replaceAllFn_nil _ _ Hre).
  - intros c s E IH H. rewrite (execAll_miss _ _ _ E) in H.
    rewrite (replaceAllFn_miss _ _ _ _ E). now rewrite IH.
  - intros s m E _ H. rewrite (execAll_hit _ _ Hre _ _ E) in H. discriminate.
Qed.

Lemma test_unmatched re s : test re s = false -> execAll re s = [].
Proof. unfold test. destruct (execAll re s); [reflexivity | discriminate]. Qed.

Lemma starts_is_lt re :
  first_char (pattern re) = Some (ch "<") -> starts_with is_lt re.
Proof.
  intros H. apply (starts_with_first_char _ _ _ H).
  intros c Hc. apply char_match_lt in Hc. now subst.
Qed.

Lemma exec_at_no_lt re c s :
  starts_with is_lt re -> c <> ch "<" -> exec_at re (c :: s) = None.
Proof.
  intros Hre Hc. destruct (exec_at re (c :: s)) as [m|] eqn:E; [exfalso|reflexivity].
  destruct (Hre _ _ E) as (c' & t & Hm & Hc').
  apply exec_at_split in E. rewrite Hm in E. injection E as E _.
  unfold is_lt in Hc'. apply N.eqb_eq in Hc'. congruence.
Qed.

Lemma replaceAllFn_no_lt re f p s :
  starts_with is_lt re -> forallb no_lt p = true ->
  replaceAllFn re f (p ++ s) = p ++ replaceAllFn re f s.
Proof.
  intros Hre. induction p as [|c p IH]; simpl; [reflexivity|].
  rewrite andb_true_iff. unfold no_lt at 1. rewrite negb_true_iff, N.eqb_neq.
  intros [Hc Hp]. rewrite replaceAllFn_miss by (now apply exec_at_no_lt).
  now rewrite IH.
Qed.

Lemma replaceAllFn_plain re f s :
  starts_with is_lt re -> forallb no_lt s = true -> replaceAllFn re f s = s.
Proof.
  intros Hre Hs. rewrite <- (app_nil_r s) at 1.
  rewrite replaceAllFn_no_lt by assumption.
  now rewrite (replaceAllFn_nil _ _ Hre), app_nil_r.
Qed.

Lemma In_forallb_false (p : char -> bool) x (s : jsstring) :
  In x s -> p x = false -> forallb p s = true -> False.
Proof.
  intros Hin Hx Hs. rewrite forallb_forall in Hs. specialize (Hs _ Hin). congruence.
Qed.

Lemma collapse_plain (s : jsstring) :
  forallb no_lt s = true -> collapseGaps s = s.
Proof.
  induction s using gap_ind; intros Hs.
  - apply collapse_nil.
  - rewrite collapse_miss by assumption. simpl in Hs.
    apply andb_true_iff in Hs as [_ Hs]. now rewrite IHs.
  - exfalso. destruct (gap_parse_elim _ _ H) as (w & ws & Heq & _).
    apply (In_forallb_false no_lt (ch "<") s); [|reflexivity|assumption].
    rewrite Heq. right. right. apply in_or_app. right. now left.
Qed.

(** *** The loop, one pass at a time *)

Lemma sanitizeLoop_result n s r :
  sanitizeLoop n s = Some r -> removeUnwantedElements s = r.
Proof.
  intros H.
  pose proof (sanitizeLoop_plus _ (iterations s) _ _ H) as H1.
  pose proof (sanitizeLoop_plus _ n _ _ (removeUnwantedElements_run s)) as H2.
  rewrite Nat.add_comm in H2. congruence.
Qed.

Lemma fixed_returned s : pass s = s -> removeUnwantedElements s = s.
Proof.
  intros H. apply (sanitizeLoop_result 1). cbn [sanitizeLoop].
  now rewrite H, jseqb_refl.
Qed.

Lemma pass_then_filter s :
  removeUnwantedElements (pass s) = removeUnwantedElements s.
Proof.
  destruct (jseqb (pass s) s) eqn:E.
  - apply jseqb_eq in E. now rewrite E.
  - symmetry. apply (sanitizeLoop_result (S (iterations (pass s)))).
    cbn [sanitizeLoop]. rewrite E. apply removeUnwantedElements_run.
Qed.

(** *** Attribute text without a quoted value *)

Lemma cleaned_unquoted (s : jsstring) :
  forallb not_quote s = true -> cleanedAttrs s = [].
Proof.
  induction s using attr_ind; intros Hs.
  - apply cleaned_nil.
  - rewrite cleaned_miss by assumption. simpl in Hs.
    apply andb_true_iff in Hs as [_ Hs]. now apply IHs.
  - exfalso.
    destruct (attr_parse_elim _ _ H)
      as (a & n & w1 & w2 & q1 & v & q2 & Heq & _ & _ & _ & _ & Hq1 & _).
    apply (In_forallb_false not_quote q1 s); [|now apply quote_not_quote|assumption].
    rewrite Heq. right. apply in_or_app. right. apply in_or_app. right.
    right. apply in_or_app. right. now left.
Qed.

(** *** Skipping content lazily *)

Lemma star_lazy_skip {R} ic cs b : forall t (k : jsstring -> option R),
  forallb (cset_match ic cs) b = true ->
  (forall c u, In c b -> k (c :: u) = None) ->
  star_lazy ic cs (b ++ t) k = star_lazy ic cs t k.
Proof.
  induction b as [|c b IH]; intros t k Hb Hk; [reflexivity|].
  simpl in Hb. apply andb_true_iff in Hb as [Hc Hb].
  cbn [app star_lazy]. rewrite (Hk c (b ++ t)) by (now left). rewrite Hc.
  apply IH; [assumption|]. intros c0 u Hin. apply Hk. now right.
Qed.

Lemma star_lazy_now {R} ic cs t (k : jsstring -> option R) x :
  k t = Some x -> star_lazy ic cs t k = Some x.
Proof. intros H. destruct t; simpl; now rewrite H. Qed.

(** *** Literals, whatever the case *)

Lemma lit_spec {R} ic p : forall caps s (k : captures -> jsstring -> option R),
  rmatch ic (lit p) caps s k
  = match strip_prefix ic p s with
    | Some s' => k caps s'
    | None => None
    end.
Proof.
  induction p as [|c p IH]; intros caps s k; [reflexivity|].
  destruct p as [|c' p].
  - cbn [lit rmatch strip_prefix]. destruct s as [|x s]; [reflexivity|].
    now destruct (char_match ic c x).
  - change (lit (c :: c' :: p)) with (RSeq (RChar c) (lit (c' :: p))).
    cbn [rmatch]. destruct s as [|x s]; [reflexivity|].
    cbn [strip_prefix]. destruct (char_match ic c x); [apply IH | reflexivity].
Qed.

Lemma strip_prefix_same p' : forall p s,
  map toUpperAscii p' = map toUpperAscii p ->
  strip_prefix true p (p' ++ s) = Some s.
Proof.
  induction p' as [|x p' IH]; intros p s H; destruct p as [|y p];
    try discriminate; [reflexivity|].
  simpl in H. injection H as Hxy H. cbn [app strip_prefix].
  unfold char_match. rewrite Hxy, N.eqb_refl. now apply IH.
Qed.

Lemma same_name_eq n name :
  same_name n name = true -> map toUpperAscii n = map toUpperAscii (js name).
Proof. unfold same_name. apply jseqb_eq. Qed.

(** *** A whole element at the start of the input *)

Lemma any_match ic c : cset_match ic c_any c = true.
Proof. unfold c_any. cbn [cset_match]. apply orb_negb_r. Qed.

Lemma forallb_any ic (b : jsstring) : forallb (cset_match ic c_any) b = true.
Proof.
  induction b as [|c b IH]; cbn [forallb]; [reflexivity|].
  now rewrite any_match.
Qed.

Lemma no_bracket_not_gt (a : jsstring) :
  forallb no_bracket a = true -> forallb not_gt a = true.
Proof.
  apply forallb_weaken. intros c. unfold no_bracket.
  rewrite andb_true_iff, !negb_true_iff, !N.eqb_neq. intros [_ H].
  now apply (not_gt_iff true).
Qed.

Lemma no_bracket_no_lt (a : jsstring) :
  forallb no_bracket a = true -> forallb no_lt a = true.
Proof.
  apply forallb_weaken. intros c. unfold no_bracket, no_lt.
  rewrite andb_true_iff. tauto.
Qed.

Lemma js_app a b : js (a ++ b) = js a ++ js b.
Proof.
  unfold js. induction a as [|x a IH]; simpl; [reflexivity|]. now rewrite IH.
Qed.

Lemma element_exec name n1 n2 a b t :
  same_name n1 name = true -> same_name n2 name = true ->
  forallb not_gt a = true -> forallb no_lt b = true ->
  exec_at (element_re name) (element n1 n2 a b ++ t)
  = Some (mkMatch (element n1 n2 a b) [] t).
Proof.
  intros H1 H2 Ha Hb. apply same_name_eq in H1, H2.
  unfold exec_at, element_re. cbn [pattern ignoreCase].
  set (k0 := fun (caps : captures) (s' : jsstring) =>
               Some (mkMatch (consumed (element n1 n2 a b ++ t) s') caps s')).
  assert (Hs : element n1 n2 a b ++ t
               = (ch "<" :: n1) ++ a ++ ch ">" :: b ++ (js "</" ++ n2 ++ [ch ">"]) ++ t).
  { unfold element. cbn [app]. f_equal.
    repeat (rewrite <- app_assoc; cbn [app]). reflexivity. }
  rewrite Hs at 1.
  change (rmatch true (str ("<" ++ name) ;; ?r)%re [] ?s k0)
    with (rmatch true (lit (js ("<" ++ name))) [] s
            (fun caps' s' => rmatch true r caps' s' k0)).
  rewrite lit_spec, (strip_prefix_same (ch "<" :: n1))
    by (change (js ("<" ++ name)) with (ch "<" :: js name); simpl; now rewrite H1).
  cbn [rmatch].
  rewrite star_greedy_commit.
  2:{ intros c u Hc. apply not_gt_iff in Hc.
      destruct (char_match true (ch ">") c) eqn:E; [|reflexivity].
      apply char_match_gt in E. contradiction. }
  fold not_gt. rewrite (dropWhile_app not_gt a) by (auto; reflexivity).
  rewrite char_match_refl.
  rewrite star_lazy_skip.
  - apply star_lazy_now. unfold str. rewrite lit_spec, strip_prefix_same.
    + unfold k0. now rewrite consumed_app.
    + change (js ("</" ++ name ++ ">")) with (js "</" ++ js (name ++ ">")).
      rewrite js_app, !map_app, H2. reflexivity.
  - apply forallb_any.
  - intros c u Hin. unfold str. rewrite lit_spec.
    change (js ("</" ++ name ++ ">")) with (ch "<" :: ch "/" :: js (name ++ ">")).
    cbn [strip_prefix].
    destruct (char_match true (ch "<") c) eqn:E; [|reflexivity].
    apply char_match_lt in E. subst c. exfalso.
    now apply (In_forallb_false no_lt (ch "<") b).
Qed.

Lemma starts_element name : starts_with is_lt (element_re name).
Proof.
  apply starts_is_lt. unfold element_re. cbn [pattern first_char].
  unfold str. change (js ("<" ++ name)) with (ch "<" :: js name).
  destruct (js name); reflexivity.
Qed.

Lemma element_step name n1 n2 a b :
  same_name n1 name = true -> same_name n2 name = true ->
  forallb not_gt a = true -> forallb no_lt b = true ->
  replaceAll (element_re name) [] (element n1 n2 a b) = [].
Proof.
  intros H1 H2 Ha Hb. pose proof (element_exec name n1 n2 a b [] H1 H2 Ha Hb) as E.
  rewrite app_nil_r in E. unfold replaceAll.
  rewrite (replaceAllFn_hit _ _ (starts_element name) _ _ _ E). cbn [rest app].
  apply (replaceAllFn_nil _ _ (starts_element name)).
Qed.

Lemma strip_prefix_clash p : forall q s,
  firstn (length q) (map toUpperAscii p) <> firstn (length p) (map toUpperAscii q) ->
  strip_prefix true p (q ++ s) = None.
Proof.
  induction p as [|y p IH]; intros q s H.
  - exfalso. apply H. now destruct q.
  - destruct q as [|x q]; [exfalso; now apply H|].
    cbn [app strip_prefix]. unfold char_match.
    destruct (N.eqb_spec (toUpperAscii y) (toUpperAscii x)) as [E|E]; [|reflexivity].
    apply IH. intros H'. apply H. cbn [length firstn map]. now rewrite E, H'.
Qed.

Lemma lit_clash (p : string) r q s :
  firstn (length q) (map toUpperAscii (js p))
  <> firstn (length (js p)) (map toUpperAscii q) ->
  exec_at (mkRegExp (RSeq (str p) r) true) (q ++ s) = None.
Proof.
  intros H. unfold exec_at. cbn [pattern ignoreCase rmatch].
  unfold str. rewrite lit_spec. now rewrite strip_prefix_clash.
Qed.

(** A pattern for one tag name fails at a tag of another name. *)
Lemma name_miss (p : string) r n (name : string) s :
  same_name n name = true ->
  firstn (S (length (js name))) (map toUpperAscii (js p))
  <> firstn (length (js p)) (ch "<" :: map toUpperAscii (js name)) ->
  exec_at (mkRegExp (RSeq (str p) r) true) (ch "<" :: n ++ s) = None.
Proof.
  intros Hn H. apply same_name_eq in Hn.
  apply (lit_clash p r (ch "<" :: n) s).
  cbn [length map]. rewrite Hn.
  replace (length n) with (length (js name)); [exact H|].
  rewrite <- (length_map toUpperAscii (js name)), <- Hn. apply length_map.
Qed.

Lemma upper_forallb (P Q : char -> bool) (n : jsstring) :
  (forall c, P (toUpperAscii c) = true -> Q c = true) ->
  forallb P (map toUpperAscii n) = true -> forallb Q n = true.
Proof.
  intros H. induction n as [|c n IH]; simpl; [reflexivity|].
  rewrite !andb_true_iff. intros [Hc Hn]. auto.
Qed.

Lemma upper_no_bracket c : no_bracket (toUpperAscii c) = true -> no_bracket c = true.
Proof.
  unfold no_bracket. rewrite !andb_true_iff, !negb_true_iff, !N.eqb_neq.
  chars. destruct (upper_cases c) as [[-> _]|[H ->]]; lia.
Qed.

Lemma name_no_bracket n (name : string) :
  same_name n name = true ->
  forallb no_bracket (map toUpperAscii (js name)) = true ->
  forallb no_bracket n = true.
Proof.
  intros Hn H. apply same_name_eq in Hn. rewrite <- Hn in H.
  exact (upper_forallb _ _ n upper_no_bracket H).
Qed.

(** A step for another tag passes over the element. *)
Lemma other_step re n1 n2 a b :
  starts_with is_lt re ->
  (forall s, exec_at re (ch "<" :: n1 ++ s) = None) ->
  (forall s, exec_at re (ch "<" :: ch "/" :: s) = None) ->
  forallb no_lt n1 = true -> forallb no_lt n2 = true ->
  forallb no_lt a = true -> forallb no_lt b = true ->
  replaceAll re [] (element n1 n2 a b) = element n1 n2 a b.
Proof.
  intros Hre Hopen Hclose H1 H2 Ha Hb. unfold replaceAll, element.
  rewrite replaceAllFn_miss by apply Hopen. f_equal.
  replace (n1 ++ a ++ ch ">" :: b ++ js "</" ++ n2 ++ [ch ">"])
    with ((n1 ++ a ++ ch ">" :: b) ++ ch "<" :: ch "/" :: n2 ++ [ch ">"])
    by (repeat (rewrite <- app_assoc; cbn [app]); reflexivity).
  rewrite replaceAllFn_no_lt; [|assumption|].
  - f_equal. rewrite replaceAllFn_miss by apply Hclose. f_equal.
    apply (replaceAllFn_plain _ _ _ Hre).
    cbn [forallb]. rewrite forallb_app, H2. reflexivity.
  - rewrite !forallb_app. cbn [forallb]. rewrite H1, Ha, Hb. reflexivity.
Qed.

Ltac other_name name :=
  first [ now apply starts_is_lt
        | intros ?; unfold element_re, void_re, re_img_base64;
          first [ apply (name_miss _ _ _ name); [assumption | vm_compute; discriminate]
                | apply (lit_clash _ _ [ch "<"; ch "/"]); vm_compute; discriminate ]
        | assumption ].

Lemma pass_element name n1 n2 a b :
  In name ["head"; "script"; "style"; "svg"]%string ->
  same_name n1 name = true -> same_name n2 name = true ->
  forallb no_bracket a = true -> forallb no_lt b = true ->
  pass (element n1 n2 a b) = [].
Proof.
  intros Hname Hn1 Hn2 Ha Hb.
  pose proof (no_bracket_not_gt a Ha) as Hg.
  pose proof (no_bracket_no_lt a Ha) as Hl.
  assert (H1 : forallb no_lt n1 = true).
  { apply no_bracket_no_lt, (name_no_bracket n1 name Hn1).
    destruct Hname as [<-|[<-|[<-|[<-|[]]]]]; reflexivity. }
  assert (H2 : forallb no_lt n2 = true).
  { apply no_bracket_no_lt, (name_no_bracket n2 name Hn2).
    destruct Hname as [<-|[<-|[<-|[<-|[]]]]]; reflexivity. }
  unfold pass, removeElements, re_head, re_script, re_style, re_svg.
  change (js "") with (@nil char).
  destruct Hname as [<-|[<-|[<-|[<-|[]]]]].
  - rewrite (element_step "head") by assumption. vm_compute; reflexivity.
  - rewrite (other_step (element_re "head")) by other_name "script"%string.
    rewrite (element_step "script") by assumption. vm_compute; reflexivity.
  - rewrite (other_step (element_re "head")) by other_name "style"%string.
    rewrite (other_step (element_re "script")) by other_name "style"%string.
    rewrite (element_step "style") by assumption. vm_compute; reflexivity.
  - rewrite (other_step (element_re "head")) by other_name "svg"%string.
    rewrite (other_step (element_re "script")) by other_name "svg"%string.
    rewrite (other_step (element_re "style")) by other_name "svg"%string.
    rewrite (element_step "svg") by assumption. vm_compute; reflexivity.
Qed.

(** *** A tag without a closing one *)

Lemma void_exec name n a t :
  same_name n name = true -> forallb not_gt a = true ->
  exec_at (void_re name) (void_tag n a ++ t)
  = Some (mkMatch (void_tag n a) [] t).
Proof.
  intros Hn Ha. apply same_name_eq in Hn.
  unfold exec_at, void_re. cbn [pattern ignoreCase].
  set (k0 := fun (caps : captures) (s' : jsstring) =>
               Some (mkMatch (consumed (void_tag n a ++ t) s') caps s')).
  assert (Hs : void_tag n a ++ t = (ch "<" :: n) ++ a ++ ch ">" :: t).
  { unfold void_tag. cbn [app]. f_equal.
    repeat (rewrite <- app_assoc; cbn [app]). reflexivity. }
  rewrite Hs at 1.
  change (rmatch true (str ("<" ++ name) ;; ?r)%re [] ?s k0)
    with (rmatch true (lit (js ("<" ++ name))) [] s
            (fun caps' s' => rmatch true r caps' s' k0)).
  rewrite lit_spec, (strip_prefix_same (ch "<" :: n))
    by (change (js ("<" ++ name)) with (ch "<" :: js name); simpl; now rewrite Hn).
  cbn [rmatch].
  rewrite star_greedy_commit.
  2:{ intros c u Hc. apply not_gt_iff in Hc.
      destruct (char_match true (ch ">") c) eqn:E; [|reflexivity].
      apply char_match_gt in E. contradiction. }
  fold not_gt. rewrite (dropWhile_app not_gt a) by (auto; reflexivity).
  rewrite char_match_refl. unfold k0. now rewrite consumed_app.
Qed.

Lemma starts_void name : starts_with is_lt (void_re name).
Proof.
  apply starts_is_lt. unfold void_re. cbn [pattern first_char].
  unfold str. change (js ("<" ++ name)) with (ch "<" :: js name).
  destruct (js name); reflexivity.
Qed.

Lemma void_step name n a :
  same_name n name = true -> forallb not_gt a = true ->
  replaceAll (void_re name) [] (void_tag n a) = [].
Proof.
  intros Hn Ha. pose proof (void_exec name n a [] Hn Ha) as E.
  rewrite app_nil_r in E. unfold replaceAll.
  rewrite (replaceAllFn_hit _ _ (starts_void name) _ _ _ E). cbn [rest app].
  apply (replaceAllFn_nil _ _ (starts_void name)).
Qed.

Lemma other_void_step re n a :
  starts_with is_lt re ->
  (forall s, exec_at re (ch "<" :: n ++ s) = None) ->
  forallb no_lt n = true -> forallb no_lt a = true ->
  replaceAll re [] (void_tag n a) = void_tag n a.
Proof.
  intros Hre Hopen Hn Ha. unfold replaceAll, void_tag.
  rewrite replaceAllFn_miss by apply Hopen.
  f_equal. apply (replaceAllFn_plain _ _ _ Hre).
  rewrite !forallb_app. cbn [forallb]. rewrite Hn, Ha. reflexivity.
Qed.

(** The pattern for [i] elements opens at an [input] tag and then finds no
    closing tag. *)
Lemma i_on_input n a :
  same_name n "input" = true -> forallb not_gt a = true ->
  exec_at re_i (void_tag n a) = None.
Proof.
  intros Hn Ha.
  assert (Hg : forallb not_gt n = true).
  { apply no_bracket_not_gt, (name_no_bracket n "input" Hn). reflexivity. }
  apply same_name_eq in Hn.
  destruct n as [|c n]; [discriminate|]. cbn [map] in Hn.
  change (js "input") with (ch "i" :: js "nput") in Hn. cbn [map] in Hn.
  injection Hn as Hc Hn. cbn [forallb] in Hg. apply andb_true_iff in Hg as [_ Hg].
  unfold exec_at, re_i, element_re, void_tag. cbn [pattern ignoreCase].
  replace (ch "<" :: (c :: n) ++ a ++ [ch ">"])
    with ([ch "<"; c] ++ (n ++ a) ++ [ch ">"])
    by (cbn [app]; now rewrite <- app_assoc).
  set (k0 := fun (caps : captures) (s' : jsstring) => @Some MatchResult _).
  change (rmatch true (str ("<" ++ "i") ;; ?r)%re [] ?s k0)
    with (rmatch true (lit (js "<i")) [] s
            (fun caps' s' => rmatch true r caps' s' k0)).
  rewrite lit_spec, (strip_prefix_same [ch "<"; c])
    by (cbn [map]; now rewrite Hc).
  cbn [rmatch].
  rewrite star_greedy_commit.
  2:{ intros x u Hx. apply not_gt_iff in Hx.
      destruct (char_match true (ch ">") x) eqn:E; [|reflexivity].
      apply char_match_gt in E. contradiction. }
  fold not_gt. rewrite (dropWhile_app not_gt (n ++ a)).
  - reflexivity.
  - rewrite forallb_app, Hg, Ha. reflexivity.
  - reflexivity.
Qed.

(** *** The payload rule never eats a closing bracket at the end *)

Lemma star_greedy_run {R} ic cs s (k : jsstring -> option R) x :
  star_greedy ic cs s k = Some x ->
  exists m s', s = m ++ s' /\ forallb (cset_match ic cs) m = true /\ k s' = Some x.
Proof.
  induction s as [|c s IH]; simpl; intros H.
  - exists [], []. auto.
  - destruct (cset_match ic cs c) eqn:Ec.
    + destruct (star_greedy ic cs s k) eqn:E.
      * inversion H; subst. destruct (IH eq_refl) as (m & s' & -> & Hm & Hk).
        exists (c :: m), s'. simpl. rewrite Ec. auto.
      * exists [], (c :: s). auto.
    + exists [], (c :: s). auto.
Qed.

Lemma last_of_run (p : char -> bool) c (r : jsstring) :
  p c = true -> forallb p r = true ->
  exists body l, c :: r = body ++ [l] /\ p l = true.
Proof.
  revert c. induction r as [|d r IH]; intros c Hc Hr.
  - exists [], c. auto.
  - simpl in Hr. apply andb_true_iff in Hr as [Hd Hr].
    destruct (IH d Hd Hr) as (body & l & E & Hl).
    exists (c :: body), l. simpl. now rewrite E.
Qed.

Lemma base64_no_bracket c : cset_match false c_base64 c = true -> no_bracket c = true.
Proof.
  unfold c_base64, c_AZ, c_az, c_09, no_bracket. cbn [cset_match cset_mem].
  chars. intros H. b2p. lia.
Qed.

Lemma data_uri_last s m :
  exec_at re_data_uri s = Some m ->
  exists body l, matched m = body ++ [l] /\ no_bracket l = true.
Proof.
  unfold exec_at, re_data_uri. cbn [pattern ignoreCase rmatch]. intros H.
  apply rmatch_suffix in H. destruct H as (c1 & s1 & [m1 ->] & H).
  apply star_greedy_suffix in H. destruct H as (s2 & [m2 ->] & H).
  apply rmatch_suffix in H. destruct H as (c3 & s3 & [m3 ->] & H).
  destruct s3 as [|c s3]; [discriminate|].
  fold c_base64 in H.
  destruct (cset_match false c_base64 c) eqn:Ec; [|discriminate].
  apply star_greedy_run in H. destruct H as (r & s' & -> & Hr & H).
  inversion H; subst m; clear H. cbn [matched].
  destruct (last_of_run _ c r Ec Hr) as (body & l & E & Hl).
  exists (m1 ++ m2 ++ m3 ++ body), l. split; [|now apply base64_no_bracket].
  replace (m1 ++ m2 ++ m3 ++ c :: r ++ s')
    with ((m1 ++ m2 ++ m3 ++ c :: r) ++ s')
    by (repeat (rewrite <- app_assoc; cbn [app]); reflexivity).
  rewrite consumed_app, E. now rewrite <- !app_assoc.
Qed.

Lemma starts_data : starts_with (fun c => N.eqb c (ch "d")) re_data_uri.
Proof.
  apply (starts_with_first_char _ (ch "d")); [reflexivity|].
  intros c Hc. change (N.eqb (ch "d") c = true) in Hc.
  apply N.eqb_eq in Hc. subst. reflexivity.
Qed.

Lemma app_tail_cases (X R q : jsstring) z :
  X ++ R = q ++ [z] ->
  (R = [] /\ X = q ++ [z]) \/ (exists q2, R = q2 ++ [z] /\ q = X ++ q2).
Proof.
  destruct R as [|r R] using rev_ind.
  - rewrite app_nil_r. auto.
  - clear IHR. rewrite app_assoc. intros H. apply app_inj_tail in H as [H ->].
    right. exists R. auto.
Qed.

Lemma data_uri_keeps_end (s : jsstring) :
  forall q, s = q ++ [ch ">"] -> forallb no_bracket q = true ->
  exists q', replaceAll re_data_uri [] s = q' ++ [ch ">"]
             /\ forallb no_bracket q' = true.
Proof.
  unfold replaceAll.
  apply (scan_ind re_data_uri _ starts_data (fun s =>
    forall q, s = q ++ [ch ">"] -> forallb no_bracket q = true ->
    exists q', replaceAllFn re_data_uri (fun _ => []) s = q' ++ [ch ">"]
               /\ forallb no_bracket q' = true)).
  - intros q H. destruct q; discriminate.
  - intros c s1 E IH q H Hq. rewrite (replaceAllFn_miss _ _ _ _ E).
    destruct q as [|c' q]; simpl in H.
    + injection H as -> ->. rewrite (replaceAllFn_nil _ _ starts_data).
      exists []. auto.
    + injection H as -> ->. simpl in Hq. apply andb_true_iff in Hq as [Hc Hq].
      destruct (IH q eq_refl Hq) as (q' & -> & Hq').
      exists (c' :: q'). simpl. rewrite Hc. auto.
  - intros s1 m E IH q H Hq.
    rewrite (replaceAllFn_hit _ _ starts_data _ _ _ E). cbn [app].
    pose proof (exec_at_split _ _ _ E) as Hs. rewrite H in Hs. symmetry in Hs.
    destruct (app_tail_cases _ _ _ _ Hs) as [[_ Hm]|(q2 & Hr & Hq2)].
    + exfalso. destruct (data_uri_last _ _ E) as (body & l & Hb & Hl).
      rewrite Hb in Hm. apply app_inj_tail in Hm as [_ ->]. discriminate.
    + apply (IH q2 Hr). rewrite Hq2, forallb_app in Hq.
      now apply andb_true_iff in Hq as [_ Hq].
Qed.

Lemma exec_at_other re P c s :
  starts_with P re -> P c = false -> exec_at re (c :: s) = None.
Proof.
  intros Hre Hc. destruct (exec_at re (c :: s)) as [m|] eqn:E; [exfalso|reflexivity].
  destruct (Hre _ _ E) as (c' & t & Hm & Hc').
  apply exec_at_split in E. rewrite Hm in E. injection E as E _. congruence.
Qed.

Lemma replaceAllFn_other re P f p s :
  starts_with P re -> forallb (fun c => negb (P c)) p = true ->
  replaceAllFn re f (p ++ s) = p ++ replaceAllFn re f s.
Proof.
  intros Hre. induction p as [|c p IH]; simpl; [reflexivity|].
  rewrite andb_true_iff, negb_true_iff. intros [Hc Hp].
  rewrite replaceAllFn_miss by (now apply (exec_at_other re P)).
  now rewrite IH.
Qed.

Lemma upper_not_d c :
  negb (N.eqb (toUpperAscii c) (ch "D")) = true -> negb (N.eqb c (ch "d")) = true.
Proof.
  rewrite !negb_true_iff, !N.eqb_neq. chars.
  destruct (upper_cases c) as [[-> H]|[H ->]]; lia.
Qed.

Lemma data_uri_on_input n a :
  same_name n "input" = true -> forallb no_bracket a = true ->
  exists a', replaceAll re_data_uri [] (void_tag n a) = void_tag n a'
             /\ forallb no_bracket a' = true.
Proof.
  intros Hn Ha. destruct (data_uri_keeps_end (a ++ [ch ">"]) a eq_refl Ha)
    as (a' & E & Ha').
  exists a'. split; [|assumption]. unfold replaceAll, void_tag in *.
  change (ch "<" :: n ++ a ++ [ch ">"]) with ((ch "<" :: n) ++ a ++ [ch ">"]).
  rewrite (replaceAllFn_other _ _ _ _ _ starts_data).
  - now rewrite E.
  - cbn [forallb]. apply andb_true_iff. split; [reflexivity|].
    apply same_name_eq in Hn.
    apply (upper_forallb (fun c => negb (N.eqb c (ch "D"))) _ n upper_not_d).
    rewrite Hn. reflexivity.
Qed.

Lemma pass_void name n a :
  In name ["meta"; "input"]%string ->
  same_name n name = true ->
  forallb no_bracket a = true -> pass (void_tag n a) = [].
Proof.
  intros Hname Hn Ha.
  assert (H1 : forallb no_lt n = true).
  { apply no_bracket_no_lt, (name_no_bracket n name Hn).
    destruct Hname as [<-|[<-|[]]]; reflexivity. }
  unfold pass, removeElements, re_head, re_script, re_style, re_svg,
    re_meta, re_input.
  change (js "") with (@nil char).
  destruct Hname as [<-|[<-|[]]].
  - pose proof (no_bracket_not_gt a Ha) as Hg.
    pose proof (no_bracket_no_lt a Ha) as Hl.
    rewrite (other_void_step (element_re "head")) by other_name "meta"%string.
    rewrite (other_void_step (element_re "script")) by other_name "meta"%string.
    rewrite (other_void_step (element_re "style")) by other_name "meta"%string.
    rewrite (other_void_step (element_re "svg")) by other_name "meta"%string.
    rewrite (other_void_step re_img_base64) by other_name "meta"%string.
    rewrite (void_step "meta") by assumption. vm_compute; reflexivity.
  - pose proof (no_bracket_no_lt a Ha) as Hl.
    rewrite (other_void_step (element_re "head")) by other_name "input"%string.
    rewrite (other_void_step (element_re "script")) by other_name "input"%string.
    rewrite (other_void_step (element_re "style")) by other_name "input"%string.
    rewrite (other_void_step (element_re "svg")) by other_name "input"%string.
    rewrite (other_void_step re_img_base64) by other_name "input"%string.
    rewrite (other_void_step (void_re "meta")) by other_name "input"%string.
    destruct (data_uri_on_input n a Hn Ha) as (a' & -> & Ha').
    pose proof (no_bracket_not_gt a' Ha') as Hg'.
    pose proof (no_bracket_no_lt a' Ha') as Hl'.
    assert (Hi : replaceAll re_i [] (void_tag n a') = void_tag n a').
    { unfold replaceAll, void_tag.
      rewrite replaceAllFn_miss by (now apply i_on_input).
      f_equal. apply (replaceAllFn_plain _ _ _ (starts_element "i")).
      rewrite !forallb_app. cbn [forallb]. rewrite H1, Hl'. reflexivity. }
    rewrite Hi.
    rewrite (void_step "input") by assumption. vm_compute; reflexivity.
Qed.


End MoreFacts.

Import MoreFacts.

(** ** Tags written out in full *)

Module MarkupFacts.

(** *** Strings without a semicolon *)

Lemma suffix_In (c : char) s' s : suffix s' s -> In c s' -> In c s.
Proof. intros [m ->] H. apply in_or_app. now right. Qed.

Lemma lit_head {R} ic (p : string) c0 p0 caps s (k : captures -> jsstring -> option R) x :
  js p = c0 :: p0 -> toUpperAscii c0 = c0 -> (c0 < 65 \/ 90 < c0)%N ->
  rmatch ic (str p) caps s k = Some x -> In c0 s.
Proof.
  intros Hp Hu Hr H. unfold str in H. rewrite lit_spec, Hp in H.
  destruct s as [|y s]; [discriminate|]. cbn [strip_prefix] in H.
  destruct (char_match ic c0 y) eqn:E; [|discriminate].
  apply char_match_exact in E; auto. subst. now left.
Qed.

Lemma img_needs_semicolon s m :
  exec_at re_img_base64 s = Some m -> In (ch ";") s.
Proof.
  unfold exec_at, re_img_base64. cbn [pattern ignoreCase rmatch]. intros H.
  apply rmatch_suffix in H. destruct H as (c1 & s1 & H1 & H).
  apply star_greedy_suffix in H. destruct H as (s2 & H2 & H).
  apply rmatch_suffix in H. destruct H as (c3 & s3 & H3 & H).
  destruct s3 as [|q s3]; [discriminate|].
  destruct (cset_match true c_quote q); [|discriminate].
  apply rmatch_suffix in H. destruct H as (c4 & s4 & H4 & H).
  apply star_greedy_suffix in H. destruct H as (s5 & H5 & H).
  apply (lit_head true ";base64," (ch ";") (js "base64,")) in H;
    [|reflexivity|reflexivity|left; reflexivity].
  apply (suffix_In _ _ _ H1), (suffix_In _ _ _ H2), (suffix_In _ _ _ H3).
  right. apply (suffix_In _ _ _ H4), (suffix_In _ _ _ H5), H.
Qed.

Lemma data_needs_semicolon s m :
  exec_at re_data_uri s = Some m -> In (ch ";") s.
Proof.
  unfold exec_at, re_data_uri. cbn [pattern ignoreCase rmatch]. intros H.
  apply rmatch_suffix in H. destruct H as (c1 & s1 & H1 & H).
  apply star_greedy_suffix in H. destruct H as (s2 & H2 & H).
  apply (lit_head false ";base64," (ch ";") (js "base64,")) in H;
    [|reflexivity|reflexivity|left; reflexivity].
  apply (suffix_In _ _ _ H1), (suffix_In _ _ _ H2), H.
Qed.

Lemma replaceAllFn_never re P f :
  starts_with P re -> forall s,
  (forall q, suffix q s -> exec_at re q = None) -> replaceAllFn re f s = s.
Proof.
  intros Hre. induction s as [|c s IH]; intros H.
  - apply (replaceAllFn_nil _ _ Hre).
  - rewrite replaceAllFn_miss by (apply H, suffix_refl).
    rewrite IH; [reflexivity|]. intros q Hq. apply H. now apply suffix_cons.
Qed.

Lemma no_semicolon_In (s : jsstring) :
  forallb no_semicolon s = true -> ~ In (ch ";") s.
Proof.
  intros H Hin. apply (In_forallb_false no_semicolon _ s Hin); [reflexivity | exact H].
Qed.

Lemma data_rules_idle s :
  forallb no_semicolon s = true ->
  replaceAll re_img_base64 [] s = s /\ replaceAll re_data_uri [] s = s.
Proof.
  intros Hs. apply no_semicolon_In in Hs. unfold replaceAll. split.
  - apply (replaceAllFn_never _ _ _ starts_img_base64). intros q Hq.
    destruct (exec_at re_img_base64 q) as [m|] eqn:E; [exfalso|reflexivity].
    apply Hs, (suffix_In _ _ _ Hq), (img_needs_semicolon _ _ E).
  - apply (replaceAllFn_never _ _ _ starts_data_uri). intros q Hq.
    destruct (exec_at re_data_uri q) as [m|] eqn:E; [exfalso|reflexivity].
    apply Hs, (suffix_In _ _ _ Hq), (data_needs_semicolon _ _ E).
Qed.

(** *** Literals that stop before a character *)

Lemma strip_prefix_stop ic p : forall t c r s',
  forallb (fun x => negb (char_match ic x c)) p = true ->
  strip_prefix ic p (t ++ c :: r) = Some s' ->
  exists t1 t2, t = t1 ++ t2 /\ s' = t2 ++ c :: r.
Proof.
  induction p as [|x p IH]; intros t c r s' Hp H.
  - inversion H. exists [], t. auto.
  - cbn [forallb] in Hp. apply andb_true_iff in Hp as [Hx Hp].
    apply negb_true_iff in Hx.
    destruct t as [|y t]; cbn [app strip_prefix] in H.
    + rewrite Hx in H. discriminate.
    + destruct (char_match ic x y); [|discriminate].
      destruct (IH _ _ _ _ Hp H) as (t1 & t2 & -> & ->).
      exists (y :: t1), t2. auto.
Qed.

Lemma strip_prefix_longer p : forall n d s,
  forallb (fun x => negb (char_match true x d)) p = true ->
  strip_prefix true p n = None ->
  strip_prefix true p (n ++ d :: s) = None.
Proof.
  induction p as [|x p IH]; intros n d s Hp H; [discriminate|].
  cbn [forallb] in Hp. apply andb_true_iff in Hp as [Hx Hp].
  apply negb_true_iff in Hx.
  destruct n as [|y n]; cbn [app strip_prefix] in *.
  - now rewrite Hx.
  - destruct (char_match true x y); [now apply IH | reflexivity].
Qed.

(** Two names closed by the same character: the literal goes through only
    when the names are the same, case apart. *)
Lemma strip_prefix_whole e p : forall n s s',
  forallb (fun x => negb (char_match true x e)) p = true ->
  forallb (fun y => negb (char_match true e y)) n = true ->
  strip_prefix true (p ++ [e]) (n ++ e :: s) = Some s' ->
  map toUpperAscii p = map toUpperAscii n.
Proof.
  induction p as [|x p IH]; intros n s s' Hp Hn H.
  - destruct n as [|y n]; [reflexivity|]. exfalso.
    cbn [forallb] in Hn. apply andb_true_iff in Hn as [Hy _].
    apply negb_true_iff in Hy. cbn [app strip_prefix] in H.
    rewrite Hy in H. discriminate.
  - cbn [forallb] in Hp. apply andb_true_iff in Hp as [Hx Hp].
    apply negb_true_iff in Hx.
    destruct n as [|y n]; cbn [app strip_prefix] in H.
    + rewrite Hx in H. discriminate.
    + cbn [forallb] in Hn. apply andb_true_iff in Hn as [_ Hn].
      destruct (char_match true x y) eqn:E; [|discriminate].
      unfold char_match in E. apply N.eqb_eq in E.
      cbn [map]. rewrite E. f_equal. exact (IH _ _ _ Hp Hn H).
Qed.

Lemma star_lazy_none {R} ic cs : forall r (k : jsstring -> option R),
  (forall q, suffix q r -> k q = None) -> star_lazy ic cs r k = None.
Proof.
  induction r as [|c r IH]; intros k H; cbn [star_lazy].
  - now rewrite (H [] (suffix_refl _)).
  - rewrite (H _ (suffix_refl _)). destruct (cset_match ic cs c); [|reflexivity].
    apply IH. intros q Hq. apply H. now apply suffix_cons.
Qed.

(** *** An element rule at an opening tag *)

(** The rule for [nm] elements fails at a tag whose text has no closing
    bracket before the one that ends it, when no closing tag for [nm]
    follows. *)
Lemma element_re_fails nm (t r : jsstring) :
  forallb (fun x => negb (char_match true x (ch ">"))) (js ("<" ++ nm)) = true ->
  forallb not_gt t = true ->
  (forall q, suffix q r -> strip_prefix true (js ("</" ++ nm ++ ">")) q = None) ->
  exec_at (element_re nm) (t ++ ch ">" :: r) = None.
Proof.
  intros Hp Ht Hr. unfold exec_at, element_re. cbn [pattern ignoreCase].
  set (k0 := fun (caps : captures) (s' : jsstring) => @Some MatchResult _).
  change (rmatch true (str ("<" ++ nm) ;; ?r)%re [] ?s k0)
    with (rmatch true (lit (js ("<" ++ nm))) [] s
            (fun caps' s' => rmatch true r caps' s' k0)).
  rewrite lit_spec.
  destruct (strip_prefix true (js ("<" ++ nm)) (t ++ ch ">" :: r)) as [s'|] eqn:E;
    [|reflexivity].
  destruct (strip_prefix_stop _ _ _ _ _ _ Hp E) as (t1 & t2 & -> & ->).
  rewrite forallb_app in Ht. apply andb_true_iff in Ht as [_ Ht].
  cbn [rmatch].
  rewrite star_greedy_commit.
  2:{ intros c u Hc. apply not_gt_iff in Hc.
      destruct (char_match true (ch ">") c) eqn:Ec; [|reflexivity].
      apply char_match_gt in Ec. contradiction. }
  fold not_gt. rewrite (dropWhile_app not_gt t2) by (auto; reflexivity).
  rewrite char_match_refl.
  apply star_lazy_none. intros q Hq. unfold str. rewrite lit_spec.
  now rewrite (Hr q Hq).
Qed.

(** The five element rules. *)
Lemma suffix_nil_inv (q : jsstring) : suffix q [] -> q = [].
Proof. intros [m H]. symmetry in H. now apply app_eq_nil in H. Qed.

Lemma suffix_cons_inv (q : jsstring) c s :
  suffix q (c :: s) -> q = c :: s \/ suffix q s.
Proof.
  intros [m H]. destruct m as [|x m]; cbn [app] in H.
  - left. now symmetry.
  - right. exists m. now injection H.
Qed.

Lemma suffix_app_inv (q a b : jsstring) :
  suffix q (a ++ b) -> (exists a1 a2, a = a1 ++ a2 /\ a2 <> [] /\ q = a2 ++ b) \/ suffix q b.
Proof.
  induction a as [|c a IH]; intros H; [now right|].
  cbn [app] in H. apply suffix_cons_inv in H as [->|H].
  - left. exists [], (c :: a). repeat split; auto. discriminate.
  - destruct (IH H) as [(a1 & a2 & -> & Hn & ->)|Hb]; [left|now right].
    exists (c :: a1), a2. auto.
Qed.

Lemma strip_prefix_lt p x (u : jsstring) :
  x <> ch "<" -> strip_prefix true (ch "<" :: p) (x :: u) = None.
Proof.
  intros Hx. cbn [strip_prefix].
  destruct (char_match true (ch "<") x) eqn:E; [|reflexivity].
  apply char_match_lt in E. contradiction.
Qed.

Lemma no_lt_head x (u : jsstring) : forallb no_lt (x :: u) = true -> x <> ch "<".
Proof.
  cbn [forallb]. rewrite andb_true_iff. unfold no_lt at 1.
  rewrite negb_true_iff, N.eqb_neq. tauto.
Qed.

Lemma no_lt_suffix (a1 a2 : jsstring) :
  forallb no_lt (a1 ++ a2) = true -> forallb no_lt a2 = true.
Proof. rewrite forallb_app, andb_true_iff. tauto. Qed.

(** No closing tag for [nm] in a text followed by the closing tag of another
    name. *)
Lemma no_closing nm (name b : jsstring) :
  forallb (fun x => negb (char_match true x (ch ">"))) (js nm) = true ->
  forallb (fun y => negb (char_match true (ch ">") y)) name = true ->
  same_name name nm = false ->
  forallb no_lt b = true -> forallb no_lt name = true ->
  forall q, suffix q (b ++ close_tag name) ->
            strip_prefix true (js ("</" ++ nm ++ ">")) q = None.
Proof.
  intros Hnm Hname Hdiff Hb Hn q Hq.
  change (js ("</" ++ nm ++ ">")) with (ch "<" :: ch "/" :: js (nm ++ ">")).
  apply suffix_app_inv in Hq as [(a1 & a2 & -> & Hne & ->)|Hq].
  - destruct a2 as [|x a2]; [contradiction|]. apply strip_prefix_lt.
    apply no_lt_suffix in Hb. now apply no_lt_head in Hb.
  - unfold close_tag in Hq. cbn [app js] in Hq.
    change (js "</" ++ name ++ [ch ">"]) with (ch "<" :: ch "/" :: name ++ [ch ">"]) in Hq.
    apply suffix_cons_inv in Hq as [->|Hq].
    + cbn [strip_prefix]. rewrite !char_match_refl. rewrite js_app.
      destruct (strip_prefix true (js nm ++ js ">") (name ++ [ch ">"])) as [s'|] eqn:E;
        [exfalso|reflexivity].
      apply (strip_prefix_whole (ch ">") (js nm) name [] s' Hnm Hname) in E.
      unfold same_name in Hdiff. rewrite <- E, jseqb_refl in Hdiff. discriminate.
    + assert (Hrest : forallb no_lt (ch "/" :: name ++ [ch ">"]) = true).
      { cbn [forallb]. rewrite forallb_app, Hn. reflexivity. }
      destruct Hq as [m Hm]. destruct q as [|x q]; [reflexivity|].
      apply strip_prefix_lt. rewrite Hm in Hrest.
      apply no_lt_suffix in Hrest. now apply no_lt_head in Hrest.
Qed.

(** *** The characters of a well-formed tag *)

Lemma text_char_iff c :
  text_char c = true <-> c <> ch "<" /\ c <> ch ">" /\ c <> ch ";".
Proof.
  unfold text_char, no_bracket, no_semicolon.
  rewrite !andb_true_iff, !negb_true_iff, !N.eqb_neq. tauto.
Qed.

Lemma alnum_dash_text c : alnum_dash c = true -> text_char c = true.
Proof.
  unfold alnum_dash. rewrite alnum_dash_iff, text_char_iff.
  unfold is_letter, is_digit. chars. lia.
Qed.

Lemma alnum_text c : alnum c = true -> text_char c = true.
Proof.
  unfold alnum. rewrite alnum_iff, text_char_iff.
  unfold is_letter, is_digit. chars. lia.
Qed.

Lemma value_text c : value_char c = true -> text_char c = true.
Proof.
  unfold value_char, text_char. rewrite !andb_true_iff. tauto.
Qed.

Lemma text_not_gt c : text_char c = true -> not_gt c = true.
Proof. rewrite text_char_iff. intros H. apply not_gt_iff. chars. tauto. Qed.

Lemma text_no_lt c : text_char c = true -> no_lt c = true.
Proof.
  rewrite text_char_iff. unfold no_lt. rewrite negb_true_iff, N.eqb_neq. tauto.
Qed.

Lemma text_no_semicolon c : text_char c = true -> no_semicolon c = true.
Proof. unfold text_char. rewrite andb_true_iff. tauto. Qed.

Lemma tag_name_inv name :
  tag_name name = true ->
  exists a n, name = a :: n /\ letter a = true /\ forallb alnum n = true.
Proof.
  destruct name as [|a n]; [discriminate|]. cbn [tag_name].
  rewrite andb_true_iff. intros [Ha Hn]. eauto.
Qed.

Lemma attr_name_inv name :
  attr_name name = true ->
  exists a n, name = a :: n /\ letter a = true /\ forallb alnum_dash n = true.
Proof.
  destruct name as [|a n]; [discriminate|]. cbn [attr_name].
  rewrite andb_true_iff. intros [Ha Hn]. eauto.
Qed.

Lemma letter_alnum_dash c : letter c = true -> alnum_dash c = true.
Proof. unfold letter, alnum_dash. rewrite az_iff, alnum_dash_iff. auto. Qed.

Lemma tag_name_alnum name : tag_name name = true -> forallb alnum name = true.
Proof.
  intros H. destruct (tag_name_inv _ H) as (a & n & -> & Ha & Hn).
  cbn [forallb]. now rewrite (letter_alnum _ Ha), Hn.
Qed.

Lemma tag_name_text name : tag_name name = true -> forallb text_char name = true.
Proof.
  intros H. apply (forallb_weaken alnum); [exact alnum_text | now apply tag_name_alnum].
Qed.

Lemma attribute_text nv :
  wellformed nv = true -> forallb text_char (attribute nv) = true.
Proof.
  unfold wellformed, attribute. rewrite andb_true_iff. intros [Hn Hv].
  destruct (attr_name_inv _ Hn) as (a & n & -> & Ha & Hn').
  rewrite forallb_app. cbn [forallb]. rewrite forallb_app. cbn [forallb].
  rewrite (alnum_dash_text _ (letter_alnum_dash _ Ha)).
  rewrite (forallb_weaken alnum_dash text_char n alnum_dash_text Hn').
  rewrite (forallb_weaken value_char text_char _ value_text Hv).
  reflexivity.
Qed.

Lemma attributes_text l :
  forallb wellformed l = true -> forallb text_char (attributes l) = true.
Proof.
  induction l as [|nv l IH]; [reflexivity|]. cbn [forallb].
  rewrite andb_true_iff. intros [Hnv Hl].
  unfold attributes. cbn [map concat app forallb]. rewrite forallb_app.
  rewrite (attribute_text _ Hnv). fold (attributes l). rewrite (IH Hl). reflexivity.
Qed.

Lemma attributes_cons nv l :
  attributes (nv :: l) = ch " " :: attribute nv ++ attributes l.
Proof. reflexivity. Qed.

Lemma filter_wellformed (f : jsstring * jsstring -> bool) l :
  forallb wellformed l = true -> forallb wellformed (filter f l) = true.
Proof.
  induction l as [|nv l IH]; [reflexivity|]. cbn [forallb filter].
  rewrite andb_true_iff. intros [Hnv Hl].
  destruct (f nv); cbn [forallb]; [rewrite Hnv|]; auto.
Qed.

Lemma filter_twice {A} (f : A -> bool) l : filter f (filter f l) = filter f l.
Proof.
  induction l as [|x l IH]; [reflexivity|]. cbn [filter].
  destruct (f x) eqn:E; cbn [filter]; [rewrite E, IH|]; auto.
Qed.

(** *** The attributes that the replacer finds *)

Lemma attribute_parse nv z :
  wellformed nv = true ->
  exists m, attr_parse (attribute nv ++ z) = Some m
            /\ matched m = attribute nv /\ rest m = z
            /\ allowed m = on_allow_list nv.
Proof.
  unfold wellformed, attribute. rewrite andb_true_iff. intros [Hn Hv].
  destruct (attr_name_inv _ Hn) as (a & n & E & Ha & Hn').
  destruct nv as [nm v]. cbn [fst snd] in *. subst nm.
  assert (Hq : forallb not_quote v = true).
  { apply (forallb_weaken value_char); [|exact Hv]. intros c.
    unfold value_char. rewrite !andb_true_iff. tauto. }
  pose proof (attr_parse_intro a n [] [] dquote v dquote z Ha Hn' eq_refl eq_refl
                eq_refl Hq eq_refl) as Hp.
  cbn [app] in Hp.
  exists (mkMatch (a :: n ++ ch "=" :: dquote :: v ++ [dquote]) [(2, v); (1, a :: n)] z).
  split; [|split; [|split]].
  - etransitivity; [|exact Hp]. f_equal. cbn [app]. f_equal.
    repeat (rewrite <- app_assoc; cbn [app]). reflexivity.
  - reflexivity.
  - reflexivity.
  - reflexivity.
Qed.

Lemma cleaned_attributes l :
  forallb wellformed l = true ->
  cleanedAttrs (attributes l) = map attribute (filter on_allow_list l).
Proof.
  induction l as [|nv l IH]; intros H.
  - apply cleaned_nil.
  - cbn [forallb] in H. apply andb_true_iff in H as [Hnv Hl].
    rewrite attributes_cons. rewrite cleaned_miss by (now apply attr_parse_other).
    destruct (attribute_parse nv (attributes l) Hnv) as (m & Hp & Hm & Hr & Ha).
    rewrite (cleaned_hit _ _ Hp), Hm, Hr, Ha, (IH Hl). cbn [filter].
    now destruct (on_allow_list nv).
Qed.

Lemma cleaned_attributes_tail nv l :
  forallb wellformed (nv :: l) = true ->
  cleanedAttrs (attribute nv ++ attributes l)
  = map attribute (filter on_allow_list (nv :: l)).
Proof.
  intros H. rewrite <- (cleaned_attributes _ H), attributes_cons.
  now rewrite cleaned_miss by (now apply attr_parse_other).
Qed.

Lemma join_attributes nv l :
  js " " ++ join (js " ") (map attribute (nv :: l)) = attributes (nv :: l).
Proof.
  revert nv. induction l as [|nv' l IH]; intros nv.
  - cbn [map join]. rewrite attributes_cons.
    change (js " " ++ ?x) with (ch " " :: x). cbn [attributes map concat].
    now rewrite app_nil_r.
  - change (map attribute (nv :: nv' :: l))
      with (attribute nv :: attribute nv' :: map attribute l).
    rewrite join_cons. change (attribute nv' :: map attribute l)
      with (map attribute (nv' :: l)).
    rewrite attributes_cons.
    change (js " " ++ attribute nv ++ ?x) with (ch " " :: attribute nv ++ x).
    f_equal. f_equal. apply IH.
Qed.

Lemma rebuild_attributes name nv l :
  forallb wellformed (nv :: l) = true ->
  rebuildTag name (attribute nv ++ attributes l)
  = void_tag name (attributes (filter on_allow_list (nv :: l))).
Proof.
  intros H. unfold rebuildTag. rewrite (cleaned_attributes_tail _ _ H).
  unfold void_tag.
  destruct (filter on_allow_list (nv :: l)) as [|k ks]; [reflexivity|].
  change (match map attribute (k :: ks) with
          | [] => js ""
          | _ :: _ => js " " ++ join (js " ") (map attribute (k :: ks))
          end) with (js " " ++ join (js " ") (map attribute (k :: ks))).
  rewrite join_attributes. reflexivity.
Qed.

(** *** One pass over a well-formed tag and what follows it *)

Lemma collapse_no_gt (p s : jsstring) :
  forallb not_gt p = true -> collapseGaps (p ++ s) = p ++ collapseGaps s.
Proof.
  induction p as [|c p IH]; intros H; [reflexivity|].
  cbn [forallb] in H. apply andb_true_iff in H as [Hc Hp].
  cbn [app]. rewrite collapse_miss.
  - now rewrite IH.
  - apply gap_parse_other. now apply not_gt_iff in Hc.
Qed.

Lemma strip_no_lt (p s : jsstring) :
  forallb no_lt p = true -> stripAttributes (p ++ s) = p ++ stripAttributes s.
Proof.
  intros H. unfold stripAttributes. apply replaceAllFn_no_lt; [|exact H].
  now apply starts_is_lt.
Qed.

Section Markup.

Variable name : jsstring.
Variable r : jsstring.

Hypothesis tag_name_ok : tag_name name = true.
Hypothesis not_meta : begins "meta" name = false.
Hypothesis not_input : begins "input" name = false.

(** What follows the tag: it is left alone by the rules that start at an
    opening bracket, it has no closing tag for one of the five element
    rules, no semicolon, and it does not start with white space or a
    bracket. *)
Hypothesis rest_idle :
  forall re f, starts_with is_lt re ->
               (forall s, exec_at re (ch "<" :: ch "/" :: s) = None) ->
               replaceAllFn re f r = r.
Hypothesis rest_open :
  forall nm, In nm element_names ->
  forall q, suffix q r -> strip_prefix true (js ("</" ++ nm ++ ">")) q = None.
Hypothesis rest_semicolon : forallb no_semicolon r = true.
Hypothesis rest_head :
  match r with [] => True | x :: _ => is_space x = false /\ x <> ch "<" end.
Hypothesis rest_gaps : collapseGaps r = r.

Lemma void_tag_rest a : void_tag name a ++ r = markup name a r.
Proof.
  unfold void_tag, markup. cbn [app]. f_equal.
  repeat (rewrite <- app_assoc; cbn [app]). reflexivity.
Qed.

Lemma lt_rule_idle re f a :
  starts_with is_lt re ->
  exec_at re (markup name a r) = None ->
  (forall s, exec_at re (ch "<" :: ch "/" :: s) = None) ->
  forallb text_char (name ++ a) = true ->
  replaceAllFn re f (markup name a r) = markup name a r.
Proof.
  intros Hre H0 Hc Ht. unfold markup in *. rewrite replaceAllFn_miss by exact H0.
  f_equal.
  replace ((name ++ a) ++ ch ">" :: r) with (((name ++ a) ++ [ch ">"]) ++ r)
    by (now rewrite <- app_assoc).
  rewrite replaceAllFn_no_lt; [|exact Hre|].
  - now rewrite (rest_idle re f Hre Hc).
  - rewrite forallb_app. cbn [forallb].
    now rewrite (forallb_weaken text_char no_lt _ text_no_lt Ht).
Qed.

Lemma element_rule_idle nm a :
  In nm element_names ->
  forallb text_char (name ++ a) = true ->
  replaceAll (element_re nm) [] (markup name a r) = markup name a r.
Proof.
  intros Hnm Ht. unfold replaceAll. apply lt_rule_idle; [apply starts_element| | |exact Ht].
  - unfold markup.
    change (ch "<" :: (name ++ a) ++ ch ">" :: r)
      with ((ch "<" :: name ++ a) ++ ch ">" :: r).
    apply element_re_fails.
    + destruct Hnm as [<-|[<-|[<-|[<-|[<-|[]]]]]]; reflexivity.
    + cbn [forallb]. now rewrite (forallb_weaken text_char not_gt _ text_not_gt Ht).
    + now apply rest_open.
  - intros s. unfold element_re.
    apply (lit_clash _ _ [ch "<"; ch "/"]).
    destruct Hnm as [<-|[<-|[<-|[<-|[<-|[]]]]]]; vm_compute; discriminate.
Qed.

Lemma void_rule_idle (nm : string) l :
  begins nm name = false ->
  forallb (fun x => negb (char_match true x (ch " "))) (js nm) = true ->
  forallb (fun x => negb (char_match true x (ch ">"))) (js nm) = true ->
  (forall s, exec_at (void_re nm) (ch "<" :: ch "/" :: s) = None) ->
  forallb wellformed l = true ->
  replaceAll (void_re nm) [] (markup name (attributes l) r) = markup name (attributes l) r.
Proof.
  intros Hb Hs Hg Hc Hl. unfold replaceAll.
  apply lt_rule_idle; [apply starts_void| |exact Hc|].
  - unfold markup, exec_at, void_re. cbn [pattern ignoreCase].
    set (k0 := fun (caps : captures) (s' : jsstring) => @Some MatchResult _).
    change (rmatch true (str ("<" ++ nm) ;; ?x)%re [] ?s k0)
      with (rmatch true (lit (js ("<" ++ nm))) [] s
              (fun caps' s' => rmatch true x caps' s' k0)).
    rewrite lit_spec. change (js ("<" ++ nm)) with (ch "<" :: js nm).
    cbn [strip_prefix]. rewrite char_match_refl.
    unfold begins in Hb.
    destruct (strip_prefix true (js nm) name) eqn:E; [discriminate|].
    rewrite <- app_assoc.
    destruct l as [|nv l].
    + cbn [attributes map concat app]. now rewrite (strip_prefix_longer _ _ _ _ Hg E).
    + rewrite attributes_cons. cbn [app].
      now rewrite (strip_prefix_longer _ _ _ _ Hs E).
  - rewrite forallb_app, (tag_name_text _ tag_name_ok), (attributes_text _ Hl).
    reflexivity.
Qed.

Lemma markup_no_semicolon a :
  forallb text_char (name ++ a) = true -> forallb no_semicolon (markup name a r) = true.
Proof.
  intros Ht. unfold markup. cbn [forallb]. rewrite forallb_app. cbn [forallb].
  now rewrite (forallb_weaken text_char no_semicolon _ text_no_semicolon Ht),
    rest_semicolon.
Qed.

Lemma removeElements_markup l :
  forallb wellformed l = true ->
  removeElements (markup name (attributes l) r) = markup name (attributes l) r.
Proof.
  intros Hl.
  assert (Ht : forallb text_char (name ++ attributes l) = true).
  { rewrite forallb_app, (tag_name_text _ tag_name_ok), (attributes_text _ Hl).
    reflexivity. }
  destruct (data_rules_idle _ (markup_no_semicolon _ Ht)) as [Hi Hd].
  unfold removeElements, re_head, re_script, re_style, re_svg, re_i, re_meta, re_input.
  change (js "") with (@nil char).
  rewrite (element_rule_idle "head") by (auto; cbn; tauto).
  rewrite (element_rule_idle "script") by (auto; cbn; tauto).
  rewrite (element_rule_idle "style") by (auto; cbn; tauto).
  rewrite (element_rule_idle "svg") by (auto; cbn; tauto).
  rewrite Hi.
  rewrite (void_rule_idle "meta") by
    (auto; try reflexivity; intros s; apply (lit_clash _ _ [ch "<"; ch "/"]);
     vm_compute; discriminate).
  rewrite Hd.
  rewrite (element_rule_idle "i") by (auto; cbn; tauto).
  apply (void_rule_idle "input");
    (auto; try reflexivity; intros s; apply (lit_clash _ _ [ch "<"; ch "/"]);
     vm_compute; discriminate).
Qed.

Lemma tag_rule_closing s : exec_at re_tag (ch "<" :: ch "/" :: s) = None.
Proof. rewrite exec_tag. reflexivity. Qed.

Lemma strip_markup l :
  forallb wellformed l = true ->
  stripAttributes (markup name (attributes l) r)
  = markup name (attributes (filter on_allow_list l)) r.
Proof.
  intros Hl.
  assert (Hr : stripAttributes r = r).
  { apply rest_idle; [now apply starts_is_lt | exact tag_rule_closing]. }
  destruct (tag_name_inv _ tag_name_ok) as (a & n & En & Ha & Hn).
  destruct l as [|nv l].
  - cbn [filter attributes map concat]. unfold markup. rewrite app_nil_r.
    rewrite strip_miss.
    + f_equal.
      replace (name ++ ch ">" :: r) with ((name ++ [ch ">"]) ++ r)
        by (now rewrite <- app_assoc).
      rewrite strip_no_lt, Hr; [reflexivity|].
      rewrite forallb_app. cbn [forallb].
      now rewrite (forallb_weaken text_char no_lt _ text_no_lt
                     (tag_name_text _ tag_name_ok)).
    + rewrite En. unfold tag_parse. cbn [app]. unfold letter in Ha.
      rewrite Ha, char_match_refl. cbn [andb].
      rewrite (dropWhile_app alnum n) by (auto; reflexivity). reflexivity.
  - assert (Hw : forallb wellformed (nv :: l) = true) by exact Hl.
    cbn [forallb] in Hl. apply andb_true_iff in Hl as [Hnv Hl].
    set (attrs := attribute nv ++ attributes l).
    assert (Hat : forallb text_char attrs = true).
    { unfold attrs. rewrite forallb_app, (attribute_text _ Hnv), (attributes_text _ Hl).
      reflexivity. }
    assert (Hst : stops is_space attrs).
    { unfold attrs, attribute.
      unfold wellformed in Hnv. apply andb_true_iff in Hnv as [Hnm _].
      destruct (attr_name_inv _ Hnm) as (a' & n' & -> & Ha' & _).
      cbn [app stops]. now apply letter_not_space. }
    pose proof (tag_parse_intro a n (ch " ") [] attrs r Ha Hn eq_refl eq_refl
                  (forallb_weaken text_char not_gt _ text_not_gt Hat) Hst) as Hp.
    cbn [app] in Hp.
    assert (E : markup name (attributes (nv :: l)) r
                = ch "<" :: a :: n ++ ch " " :: attrs ++ ch ">" :: r).
    { unfold markup. rewrite attributes_cons, En. fold attrs. cbn [app].
      f_equal. f_equal. repeat (rewrite <- app_assoc; cbn [app]). reflexivity. }
    rewrite E, (strip_hit _ _ Hp). cbn [rest]. rewrite Hr.
    unfold tagReplacer. cbn [groups get_cap Nat.eqb].
    unfold attrs. rewrite <- En, (rebuild_attributes _ _ _ Hw).
    apply void_tag_rest.
Qed.

Lemma collapse_markup a :
  forallb text_char a = true -> collapseGaps (markup name a r) = markup name a r.
Proof.
  intros Ha. unfold markup.
  change (ch "<" :: (name ++ a) ++ ch ">" :: r)
    with ((ch "<" :: name ++ a) ++ ch ">" :: r).
  rewrite collapse_no_gt.
  - f_equal. rewrite collapse_miss; [now rewrite rest_gaps|].
    unfold gap_parse. destruct r as [|x r']; [reflexivity|].
    destruct rest_head as [Hx _]. rewrite Hx. now rewrite andb_false_r.
  - cbn [forallb]. rewrite forallb_app.
    rewrite (forallb_weaken text_char not_gt _ text_not_gt (tag_name_text _ tag_name_ok)).
    now rewrite (forallb_weaken text_char not_gt _ text_not_gt Ha).
Qed.

Lemma empty_rule_fails l :
  forallb wellformed l = true ->
  exec_at re_empty (markup name (attributes l) r) = None.
Proof.
  intros Hl.
  destruct (tag_name_inv _ tag_name_ok) as (a & n & En & Ha & Hn).
  unfold markup. rewrite En.
  unfold exec_at, re_empty. cbn [pattern ignoreCase rmatch app].
  rewrite char_match_refl. unfold letter in Ha. rewrite Ha.
  rewrite star_greedy_commit.
  2:{ intros c t Hc. fold alnum in Hc. apply alnum_not_gt, not_gt_iff in Hc.
      destruct (char_match true (ch ">") c) eqn:E; [|reflexivity].
      apply char_match_gt in E. contradiction. }
  fold alnum. rewrite <- app_assoc.
  destruct l as [|nv l].
  - cbn [attributes map concat app].
    rewrite (dropWhile_app alnum n) by (auto; reflexivity).
    rewrite char_match_refl.
    rewrite star_greedy_commit.
    2:{ intros c t Hc. rewrite space_match in Hc. unfold str.
        rewrite lit_spec. change (js "</") with [ch "<"; ch "/"].
        rewrite strip_prefix_lt; [reflexivity|]. intros ->. discriminate. }
    rewrite (dropWhile_ext _ is_space) by (intros c; apply space_match).
    unfold str. rewrite lit_spec. change (js "</") with [ch "<"; ch "/"].
    destruct r as [|x r']; [reflexivity|]. destruct rest_head as [Hx Hlt].
    cbn [dropWhile]. rewrite Hx. now rewrite strip_prefix_lt.
  - rewrite attributes_cons. cbn [app].
    rewrite (dropWhile_app alnum n) by (auto; reflexivity). reflexivity.
Qed.

Lemma empty_rule_closing s : exec_at re_empty (ch "<" :: ch "/" :: s) = None.
Proof. reflexivity. Qed.

Lemma prune_markup l :
  forallb wellformed l = true ->
  pruneEmpty (markup name (attributes l) r) = markup name (attributes l) r.
Proof.
  intros Hl. unfold pruneEmpty, replaceAll.
  apply lt_rule_idle; [now apply starts_is_lt | now apply empty_rule_fails
                      | exact empty_rule_closing |].
  rewrite forallb_app, (tag_name_text _ tag_name_ok), (attributes_text _ Hl).
  reflexivity.
Qed.

Lemma pass_markup l :
  forallb wellformed l = true ->
  pass (void_tag name (attributes l) ++ r)
  = void_tag name (attributes (filter on_allow_list l)) ++ r.
Proof.
  intros Hl. rewrite !void_tag_rest. unfold pass.
  rewrite (removeElements_markup _ Hl), (strip_markup _ Hl).
  pose proof (filter_wellformed on_allow_list _ Hl) as Hk.
  rewrite (collapse_markup _ (attributes_text _ Hk)).
  now apply prune_markup.
Qed.

Lemma filter_markup l :
  forallb wellformed l = true ->
  removeUnwantedElements (void_tag name (attributes l) ++ r)
  = void_tag name (attributes (filter on_allow_list l)) ++ r.
Proof.
  intros Hl. rewrite <- pass_then_filter, (pass_markup _ Hl).
  apply fixed_returned.
  rewrite (pass_markup _ (filter_wellformed on_allow_list _ Hl)).
  now rewrite filter_twice.
Qed.

End Markup.

(** *** A tag on its own, and an element with a text in it *)

Lemma tag_filtered name l :
  tag_name name = true ->
  begins "meta" name = false -> begins "input" name = false ->
  forallb wellformed l = true ->
  removeUnwantedElements (void_tag name (attributes l))
  = void_tag name (attributes (filter on_allow_list l)).
Proof.
  intros Hn Hm Hi Hl.
  rewrite <- (app_nil_r (void_tag name (attributes l))).
  rewrite <- (app_nil_r (void_tag name (attributes (filter on_allow_list l)))).
  apply filter_markup; auto.
  - intros re f Hre _. apply (replaceAllFn_nil _ _ Hre).
  - intros nm _ q Hq. rewrite (suffix_nil_inv _ Hq).
    change (js ("</" ++ nm ++ ">")) with (ch "<" :: js ("/" ++ nm ++ ">")).
    reflexivity.
Qed.

Lemma alnum_not_gt_match y : alnum y = true -> negb (char_match true (ch ">") y) = true.
Proof.
  intros H. apply alnum_not_gt, not_gt_iff in H. apply negb_true_iff.
  destruct (char_match true (ch ">") y) eqn:E; [|reflexivity].
  apply char_match_gt in E. contradiction.
Qed.

Lemma element_filtered name l x b :
  tag_name name = true ->
  begins "meta" name = false -> begins "input" name = false ->
  existsb (same_name name) element_names = false ->
  forallb wellformed l = true ->
  is_space x = false -> forallb text_char (x :: b) = true ->
  removeUnwantedElements (element name name (attributes l) (x :: b))
  = element name name (attributes (filter on_allow_list l)) (x :: b).
Proof.
  intros Hn Hm Hi He Hl Hx Hb.
  assert (E : forall a, element name name a (x :: b)
                        = void_tag name a ++ (x :: b) ++ close_tag name).
  { intros a. unfold element, void_tag, close_tag. cbn [app]. f_equal.
    repeat (rewrite <- app_assoc; cbn [app]). reflexivity. }
  rewrite !E.
  pose proof (tag_name_text _ Hn) as Hnt.
  assert (Hc : forallb no_lt (ch "/" :: name ++ [ch ">"]) = true).
  { cbn [forallb]. rewrite forallb_app. cbn [forallb].
    now rewrite (forallb_weaken text_char no_lt _ text_no_lt Hnt). }
  apply filter_markup; auto.
  - intros re f Hre Hclose.
    rewrite replaceAllFn_no_lt;
      [|exact Hre | exact (forallb_weaken text_char no_lt _ text_no_lt Hb)].
    f_equal. unfold close_tag.
    change (js "</" ++ name ++ [ch ">"]) with (ch "<" :: ch "/" :: name ++ [ch ">"]).
    rewrite replaceAllFn_miss by apply Hclose. f_equal.
    now apply replaceAllFn_plain.
  - intros nm Hnm. apply no_closing.
    + destruct Hnm as [<-|[<-|[<-|[<-|[<-|[]]]]]]; reflexivity.
    + apply (forallb_weaken alnum); [exact alnum_not_gt_match|].
      now apply tag_name_alnum.
    + destruct (same_name name nm) eqn:Es; [|reflexivity].
      assert (Hex : existsb (same_name name) element_names = true)
        by (apply existsb_exists; eauto).
      congruence.
    + exact (forallb_weaken text_char no_lt _ text_no_lt Hb).
    + exact (forallb_weaken text_char no_lt _ text_no_lt Hnt).
  - unfold close_tag. rewrite !forallb_app.
    rewrite (forallb_weaken text_char no_semicolon _ text_no_semicolon Hb).
    rewrite (forallb_weaken text_char no_semicolon _ text_no_semicolon Hnt).
    reflexivity.
  - cbn [app]. split; [exact Hx|].
    apply (no_lt_head x b), (forallb_weaken text_char no_lt _ text_no_lt Hb).
  - unfold close_tag.
    replace ((x :: b) ++ js "</" ++ name ++ [ch ">"])
      with (((x :: b) ++ js "</" ++ name) ++ [ch ">"])
      by (repeat (rewrite <- app_assoc; cbn [app]); reflexivity).
    rewrite collapse_no_gt.
    + f_equal.
    + rewrite !forallb_app.
      rewrite (forallb_weaken text_char not_gt _ text_not_gt Hb).
      now rewrite (forallb_weaken text_char not_gt _ text_not_gt Hnt).
Qed.

(** *** An image tag with a base64 source *)

Lemma star_greedy_base {R} ic cs t (k : jsstring -> option R) :
  k t <> None -> star_greedy ic cs t k <> None.
Proof.
  intros H. destruct t as [|c t]; cbn [star_greedy]; [exact H|].
  destruct (cset_match ic cs c); [|exact H].
  destruct (star_greedy ic cs t k); [discriminate | exact H].
Qed.

Lemma star_greedy_some {R} ic cs m : forall t (k : jsstring -> option R),
  forallb (cset_match ic cs) m = true -> k t <> None ->
  star_greedy ic cs (m ++ t) k <> None.
Proof.
  induction m as [|c m IH]; intros t k Hm Hk.
  - now apply star_greedy_base.
  - cbn [forallb] in Hm. apply andb_true_iff in Hm as [Hc Hm].
    cbn [app star_greedy]. rewrite Hc.
    pose proof (IH t k Hm Hk) as H.
    destruct (star_greedy ic cs (m ++ t) k); [discriminate | contradiction].
Qed.

Lemma strip_prefix_refl ic p s : strip_prefix ic p (p ++ s) = Some s.
Proof.
  induction p as [|c p IH]; [reflexivity|].
  cbn [app strip_prefix]. now rewrite char_match_refl.
Qed.

Lemma img_rule_matches n a1 q1 v1 v2 q2 a2 :
  same_name n "img" = true ->
  forallb not_gt a1 = true -> forallb not_gt a2 = true ->
  forallb not_quote v1 = true -> forallb not_quote v2 = true ->
  cset_match true c_quote q1 = true -> cset_match true c_quote q2 = true ->
  exec_at re_img_base64 (base64_image n a1 q1 v1 v2 q2 a2) <> None.
Proof.
  intros Hn H1 H2 Hv1 Hv2 Hq1 Hq2. apply same_name_eq in Hn.
  unfold exec_at, re_img_base64, base64_image, void_tag.
  cbn [pattern ignoreCase rmatch].
  unfold str at 1. rewrite lit_spec.
  change (ch "<" :: n ++ ?x) with ((ch "<" :: n) ++ x).
  rewrite (strip_prefix_same (ch "<" :: n))
    by (change (js "<img") with (ch "<" :: js "img"); cbn [map]; now rewrite Hn).
  rewrite <- app_assoc.
  apply star_greedy_some; [exact H1|].
  unfold str at 1. rewrite lit_spec.
  repeat (rewrite <- app_assoc; cbn [app]).
  rewrite strip_prefix_refl. cbn [app]. rewrite Hq1.
  unfold str at 1. rewrite lit_spec, strip_prefix_refl.
  apply star_greedy_some; [exact Hv1|].
  unfold str at 1. rewrite lit_spec, strip_prefix_refl.
  apply star_greedy_some; [exact Hv2|].
  cbn [app]. rewrite Hq2.
  apply star_greedy_some; [exact H2|].
  rewrite char_match_refl. discriminate.
Qed.

Lemma only_gt_last (t : jsstring) : forall mm s',
  forallb not_gt t = true -> t ++ [ch ">"] = mm ++ ch ">" :: s' -> s' = [].
Proof.
  induction t as [|c t IH]; intros mm s' Ht H.
  - destruct mm as [|x mm]; cbn [app] in H.
    + now injection H.
    + injection H as _ H. destruct mm; discriminate.
  - cbn [forallb] in Ht. apply andb_true_iff in Ht as [Hc Ht].
    destruct mm as [|x mm]; cbn [app] in H.
    + injection H as -> _. discriminate.
    + injection H as _ H. now apply (IH mm).
Qed.

Lemma img_rule_ends s m :
  exec_at re_img_base64 s = Some m ->
  exists mm, s = mm ++ ch ">" :: rest m.
Proof.
  unfold exec_at, re_img_base64. cbn [pattern ignoreCase rmatch]. intros H.
  apply rmatch_suffix in H. destruct H as (c1 & s1 & S1 & H).
  apply star_greedy_suffix in H. destruct H as (s2 & S2 & H).
  apply rmatch_suffix in H. destruct H as (c3 & s3 & S3 & H).
  destruct s3 as [|q s3]; [discriminate|].
  destruct (cset_match true c_quote q); [|discriminate].
  apply rmatch_suffix in H. destruct H as (c4 & s4 & S4 & H).
  apply star_greedy_suffix in H. destruct H as (s5 & S5 & H).
  apply rmatch_suffix in H. destruct H as (c6 & s6 & S6 & H).
  apply star_greedy_suffix in H. destruct H as (s7 & S7 & H).
  destruct s7 as [|q' s7]; [discriminate|].
  destruct (cset_match true c_quote q'); [|discriminate].
  apply star_greedy_suffix in H. destruct H as (s8 & S8 & H).
  destruct s8 as [|g s8]; [discriminate|].
  destruct (char_match true (ch ">") g) eqn:Eg; [|discriminate].
  apply char_match_gt in Eg. subst g.
  inversion H; subst m; clear H. cbn [rest].
  assert (T7 : suffix s7 s6)
    by exact (suffix_trans _ _ _ (suffix_cons q' _ _ (suffix_refl _)) S7).
  assert (T3 : suffix s3 s2)
    by exact (suffix_trans _ _ _ (suffix_cons q _ _ (suffix_refl _)) S3).
  assert (S : suffix (ch ">" :: s8) s).
  { apply (suffix_trans _ _ _ S8), (suffix_trans _ _ _ T7),
      (suffix_trans _ _ _ S6), (suffix_trans _ _ _ S5),
      (suffix_trans _ _ _ S4), (suffix_trans _ _ _ T3),
      (suffix_trans _ _ _ S2), S1. }
  destruct S as [mm ->]. now exists mm.
Qed.

Lemma void_tag_split n a : void_tag n a = (ch "<" :: n ++ a) ++ [ch ">"].
Proof. unfold void_tag. cbn [app]. now rewrite app_assoc. Qed.

Lemma img_step n a1 q1 v1 v2 q2 a2 :
  same_name n "img" = true ->
  forallb no_bracket a1 = true -> forallb no_bracket a2 = true ->
  forallb not_quote v1 = true -> forallb no_bracket v1 = true ->
  forallb not_quote v2 = true -> forallb no_bracket v2 = true ->
  cset_match true c_quote q1 = true -> cset_match true c_quote q2 = true ->
  replaceAll re_img_base64 [] (base64_image n a1 q1 v1 v2 q2 a2) = [].
Proof.
  intros Hn H1 H2 Hv1 Hb1 Hv2 Hb2 Hq1 Hq2.
  pose proof (img_rule_matches n a1 q1 v1 v2 q2 a2 Hn (no_bracket_not_gt _ H1)
                (no_bracket_not_gt _ H2) Hv1 Hv2 Hq1 Hq2) as Hex.
  destruct (exec_at re_img_base64 (base64_image n a1 q1 v1 v2 q2 a2)) as [m|] eqn:E;
    [|contradiction].
  unfold replaceAll. rewrite (replaceAllFn_hit _ _ starts_img_base64 _ _ _ E).
  destruct (img_rule_ends _ _ E) as [mm Hm].
  assert (Hr : rest m = []).
  { unfold base64_image in Hm. rewrite void_tag_split in Hm.
    apply only_gt_last in Hm; [exact Hm|].
    repeat (rewrite ?forallb_app; cbn [forallb]).
    rewrite (no_bracket_not_gt n) by (apply (name_no_bracket n "img" Hn); reflexivity).
    rewrite (no_bracket_not_gt _ H1), (no_bracket_not_gt _ H2),
      (no_bracket_not_gt _ Hb1), (no_bracket_not_gt _ Hb2).
    apply quote_iff in Hq1, Hq2.
    assert (G1 : not_gt q1 = true) by (apply not_gt_iff; lia).
    assert (G2 : not_gt q2 = true) by (apply not_gt_iff; lia).
    rewrite G1, G2. reflexivity. }
  rewrite Hr. apply (replaceAllFn_nil _ _ starts_img_base64).
Qed.

Lemma pass_base64_image n a1 q1 v1 v2 q2 a2 :
  same_name n "img" = true ->
  forallb no_bracket a1 = true -> forallb no_bracket a2 = true ->
  forallb not_quote v1 = true -> forallb no_bracket v1 = true ->
  forallb not_quote v2 = true -> forallb no_bracket v2 = true ->
  cset_match true c_quote q1 = true -> cset_match true c_quote q2 = true ->
  pass (base64_image n a1 q1 v1 v2 q2 a2) = [].
Proof.
  intros Hn H1 H2 Hv1 Hb1 Hv2 Hb2 Hq1 Hq2.
  pose proof (img_step n a1 q1 v1 v2 q2 a2 Hn H1 H2 Hv1 Hb1 Hv2 Hb2 Hq1 Hq2) as Hs.
  assert (Hl : forallb no_lt n = true).
  { apply no_bracket_no_lt, (name_no_bracket n "img" Hn). reflexivity. }
  assert (Hb : forallb no_lt (a1 ++ js "src=" ++ q1 :: js "data:image" ++ v1
                                 ++ js ";base64," ++ v2 ++ q2 :: a2) = true).
  { repeat (rewrite ?forallb_app; cbn [forallb]).
    rewrite (no_bracket_no_lt _ H1), (no_bracket_no_lt _ H2),
      (no_bracket_no_lt _ Hb1), (no_bracket_no_lt _ Hb2).
    apply quote_iff in Hq1, Hq2. unfold no_lt. chars.
    assert (G1 : negb (60 =? q1)%N = true) by (apply negb_true_iff, N.eqb_neq; lia).
    assert (G2 : negb (60 =? q2)%N = true) by (apply negb_true_iff, N.eqb_neq; lia).
    rewrite N.eqb_sym in G1, G2. rewrite G1, G2. reflexivity. }
  unfold pass, removeElements, re_head, re_script, re_style, re_svg.
  change (js "") with (@nil char). unfold base64_image in *.
  rewrite (other_void_step (element_re "head")) by other_name "img"%string.
  rewrite (other_void_step (element_re "script")) by other_name "img"%string.
  rewrite (other_void_step (element_re "style")) by other_name "img"%string.
  rewrite (other_void_step (element_re "svg")) by other_name "img"%string.
  rewrite Hs. vm_compute; reflexivity.
Qed.

Lemma base64_image_filtered n a1 q1 v1 v2 q2 a2 :
  same_name n "img" = true ->
  forallb no_bracket a1 = true -> forallb no_bracket a2 = true ->
  forallb not_quote v1 = true -> forallb no_bracket v1 = true ->
  forallb not_quote v2 = true -> forallb no_bracket v2 = true ->
  cset_match true c_quote q1 = true -> cset_match true c_quote q2 = true ->
  removeUnwantedElements (base64_image n a1 q1 v1 v2 q2 a2) = [].
Proof.
  intros Hn H1 H2 Hv1 Hb1 Hv2 Hb2 Hq1 Hq2. rewrite <- pass_then_filter.
  rewrite (pass_base64_image n a1 q1 v1 v2 q2 a2) by assumption.
  vm_compute; reflexivity.
Qed.

End MarkupFacts.

Import MarkupFacts.

(** ** The properties of the specification *)

(** C7. The content filter is total: on every input the loop stops within
    [iterations html] passes, with any larger budget as well, and returns the
    string [removeUnwantedElements html]. *)
Theorem removeUnwantedElements_total :
  forall (html : jsstring) (extra : nat),
    sanitizeLoop (iterations html + extra) html
    = Some (removeUnwantedElements html).
Proof.
  intros html extra. apply sanitizeLoop_plus, removeUnwantedElements_run.
Qed.

(** C2. The content filter is idempotent: filtering its own output changes
    nothing. *)
Theorem removeUnwantedElements_idempotent :
  forall x : jsstring,
    removeUnwantedElements (removeUnwantedElements x) = removeUnwantedElements x.
Proof.
  intros x. pose proof (removeUnwantedElements_fixed x) as H.
  remember (removeUnwantedElements x) as r eqn:Er.
  unfold removeUnwantedElements, iterations.
  replace (2 * weight r + 2) with (S (2 * weight r + 1)) by lia.
  cbn [sanitizeLoop]. now rewrite H, jseqb_refl.
Qed.



(** The statements about the tags of the output are not empty ones: the
    output for the [div] of the specification has one tag with attribute
    text, whose only attribute is [id]. *)
Example tags_of_the_div_example :
  map (fun m => (get_cap 1 (groups m), get_cap 2 (groups m)))
      (execAll re_tag
         (removeUnwantedElements
            (qjs "<div onclick=`evil()` id=`x` data-foo=`y`>t</div>")))
  = [(js "div", qjs "id=`x`")].
Proof. vm_compute; reflexivity. Qed.










(** C6, as the specification states it, fails: an empty element whose name
    has a hyphen is kept, and of an empty [meta] element the closing tag
    stays. *)
Lemma empty_custom_element_survives :
  removeUnwantedElements (js "<my-widget></my-widget>")
  = js "<my-widget></my-widget>"
  /\ removeUnwantedElements (js "<meta></meta>") = js "</meta>".
Proof. split; vm_compute; reflexivity. Qed.

(** C6, amended.  On every input the output has no empty element left whose
    name is a letter followed by letters and digits (an opening tag without
    attributes, then only white space, then the closing tag of the same name
    whatever its case) and no white space between a closing bracket and the
    next opening one; [<span></span>] and [<p>   </p>] become the empty
    string, also two levels deep. *)
Theorem empty_elements_are_pruned :
  forall html : jsstring,
    let out := removeUnwantedElements html in
    test re_empty out = false
    /\ test re_gap out = false
    /\ removeUnwantedElements (js "<span></span>") = js ""
    /\ removeUnwantedElements (js "<p>   </p>") = js ""
    /\ removeUnwantedElements (js "<div><p>   </p><span></span></div>") = js ""
    /\ removeUnwantedElements (js "<div> <section> <p>   </p> </section> </div>")
       = js "".
Proof.
  intros html out.
  destruct (fixed_tests out (removeUnwantedElements_fixed html))
    as (_ & _ & _ & _ & _ & _ & _ & _ & _ & EG & EE & _).
  repeat split; try assumption; vm_compute; reflexivity.
Qed.

(** C8.  Whatever the debugging endpoint lists, [listPages] answers with the
    targets of type [page] only, in the order given, as index, title and
    url, the index counting from 0 in the filtered list.  Three targets of
    kinds page, other, page give two entries, 0 and 1. *)
Theorem listPages_enumerates_pages :
  forall (host port : string) (targets : list CDPTarget)
         (connect : string -> bool)
         (evaluate : string -> expression -> option Evaluation),
    let pages := filter (fun t => String.eqb (type t) "page") targets in
    exists listed,
      listPages (mkChrome host port (Some targets) connect evaluate)
      = Resolved listed
      /\ map index listed = seq 0 (length pages)
      /\ map (fun p => (page_title p, page_url p)) listed
         = map (fun t => (title t, url t)) pages
      /\ listPages
           (mkChrome host port
              (Some [mkTarget "A" "first" "https://a/" "page" None;
                     mkTarget "B" "worker" "https://b/" "other" None;
                     mkTarget "C" "second" "https://c/" "page" None])
              connect evaluate)
         = Resolved [mkPageInfo 0 "first" "https://a/";
                     mkPageInfo 1 "second" "https://c/"].
Proof.
  intros host port targets connect evaluate pages.
  exists (mapi 0 pages). repeat split.
  - apply mapi_index.
  - apply mapi_fields.
Qed.

(** C9.  With at least one page target, a page index below 0 or not below
    the number of page targets makes [getHtmlContent] fail, before any
    session is opened, with the invalid-request error whose message gives the
    range from 0 to the number of targets minus one. *)
Theorem getHtmlContent_rejects_index_out_of_range :
  forall (chrome : Chrome) (listed : list CDPTarget) (pageIndex : Z)
         (selector : option string),
    CDP_List chrome = Some listed ->
    let targets := filter (fun t => String.eqb (type t) "page") listed in
    targets <> [] ->
    (pageIndex < 0 \/ Z.of_nat (length targets) <= pageIndex)%Z ->
    getHtmlContent chrome (Some pageIndex) selector
    = (Rejected (mkMcpError InvalidRequest
         ("Invalid page index. Available pages: 0-"
            ++ decimal (length targets - 1))), []).
Proof.
  intros chrome listed pageIndex selector HL targets Hne Hout.
  unfold getHtmlContent, getTargets. rewrite HL. fold targets.
  destruct targets as [|t ts] eqn:E; [congruence|].
  cbn [length Nat.eqb].
  assert (Hb : ((pageIndex <? 0) || (Z.of_nat (S (length ts)) <=? pageIndex))%Z = true).
  { apply orb_true_iff. rewrite Z.ltb_lt, Z.leb_le. simpl length in Hout. lia. }
  cbn [length] in Hb. rewrite Hb. reflexivity.
Qed.

(** Index 5 against two page targets (and one that is not a page): the
    message gives the range 0-1. *)
Lemma getHtmlContent_index_5_of_2 :
  getHtmlContent
    (mkChrome "localhost" "9222"
       (Some [mkTarget "A" "first" "https://a/" "page" None;
              mkTarget "B" "worker" "https://b/" "other" None;
              mkTarget "C" "second" "https://c/" "page" None])
       (fun _ => true) (fun _ _ => None))
    (Some 5%Z) None
  = (Rejected (mkMcpError InvalidRequest
       "Invalid page index. Available pages: 0-1"), []).
Proof.
  apply (getHtmlContent_rejects_index_out_of_range
           (mkChrome "localhost" "9222"
              (Some [mkTarget "A" "first" "https://a/" "page" None;
                     mkTarget "B" "worker" "https://b/" "other" None;
                     mkTarget "C" "second" "https://c/" "page" None])
              (fun _ => true) (fun _ _ => None))
           [mkTarget "A" "first" "https://a/" "page" None;
            mkTarget "B" "worker" "https://b/" "other" None;
            mkTarget "C" "second" "https://c/" "page" None] 5%Z None).
  - reflexivity.
  - discriminate.
  - right. simpl. lia.
Defined.

(** ** Further properties of the code *)

(** X1. The filter only deletes: apart from white space, the characters of
    its output are characters of its input, in the same order. *)
Theorem filter_only_deletes :
  forall html : jsstring,
    subseq (visible (removeUnwantedElements html)) (visible html).
Proof.
  intros html.
  apply (sanitizeLoop_visible _ _ _ (removeUnwantedElements_run html)).
Qed.

Lemma pass_plain html :
  forallb no_lt html = true -> test re_data_uri html = false -> pass html = html.
Proof.
  intros Hlt Hd. unfold pass, removeElements, pruneEmpty, stripAttributes, replaceAll.
  change (js "") with (@nil char).
  rewrite (replaceAllFn_plain re_head) by (try assumption; now apply starts_is_lt).
  rewrite (replaceAllFn_plain re_script) by (try assumption; now apply starts_is_lt).
  rewrite (replaceAllFn_plain re_style) by (try assumption; now apply starts_is_lt).
  rewrite (replaceAllFn_plain re_svg) by (try assumption; now apply starts_is_lt).
  rewrite (replaceAllFn_plain re_img_base64)
    by (try assumption; now apply starts_is_lt).
  rewrite (replaceAllFn_plain re_meta) by (try assumption; now apply starts_is_lt).
  rewrite (replaceAllFn_unmatched re_data_uri _ _ _ starts_data_uri
             (test_unmatched _ _ Hd)).
  rewrite (replaceAllFn_plain re_i) by (try assumption; now apply starts_is_lt).
  rewrite (replaceAllFn_plain re_input) by (try assumption; now apply starts_is_lt).
  rewrite (replaceAllFn_plain re_tag) by (try assumption; now apply starts_is_lt).
  rewrite collapse_plain by assumption.
  apply replaceAllFn_plain; [now apply starts_is_lt | assumption].
Qed.

(** X2. Text without markup is left alone: a string with no opening bracket
    in which the payload pattern finds no base64 image comes back unchanged. *)
Theorem plain_text_is_unchanged :
  forall html : jsstring,
    forallb no_lt html = true ->
    test re_data_uri html = false ->
    removeUnwantedElements html = html.
Proof. intros html Hlt Hd. apply fixed_returned. now apply pass_plain. Qed.

Lemma plain_text_example :
  forallb no_lt (js "Hello, world: if 1 > 0 then data & more") = true
  /\ test re_data_uri (js "Hello, world: if 1 > 0 then data & more") = false
  /\ removeUnwantedElements (js "Hello, world: if 1 > 0 then data & more")
     = js "Hello, world: if 1 > 0 then data & more".
Proof.
  split; [reflexivity|]. split; [reflexivity|].
  apply plain_text_is_unchanged; reflexivity.
Defined.

Lemma unmatched_fixed re P r s :
  starts_with P re -> test re s = false -> replaceAll re r s = s.
Proof.
  intros Hre H. unfold replaceAll.
  apply (replaceAllFn_unmatched _ _ _ _ Hre). now apply test_unmatched.
Qed.

(** X3. The filter gives its input back exactly when no rule applies to it:
    none of the eleven patterns matches, and the attribute step would
    rebuild every tag as it is. *)
Theorem unchanged_iff_no_rule_applies :
  forall html : jsstring,
    removeUnwantedElements html = html
    <-> (test re_head html = false /\ test re_script html = false /\
         test re_style html = false /\ test re_svg html = false /\
         test re_img_base64 html = false /\ test re_meta html = false /\
         test re_data_uri html = false /\ test re_i html = false /\
         test re_input html = false /\ test re_gap html = false /\
         test re_empty html = false /\ stripAttributes html = html).
Proof.
  intros html. split.
  - intros H. apply fixed_tests. rewrite <- H at 1 2.
    now rewrite removeUnwantedElements_fixed.
  - intros (E1 & E2 & E3 & E4 & E5 & E6 & E7 & E8 & E9 & EG & EE & HT).
    apply fixed_returned. unfold pass, removeElements, collapseGaps, pruneEmpty.
    rewrite (unmatched_fixed re_head _ _ _ starts_head E1).
    rewrite (unmatched_fixed re_script _ _ _ starts_script E2).
    rewrite (unmatched_fixed re_style _ _ _ starts_style E3).
    rewrite (unmatched_fixed re_svg _ _ _ starts_svg E4).
    rewrite (unmatched_fixed re_img_base64 _ _ _ starts_img_base64 E5).
    rewrite (unmatched_fixed re_meta _ _ _ starts_meta E6).
    rewrite (unmatched_fixed re_data_uri _ _ _ starts_data_uri E7).
    rewrite (unmatched_fixed re_i _ _ _ starts_i E8).
    rewrite (unmatched_fixed re_input _ _ _ starts_input E9).
    rewrite HT.
    rewrite (unmatched_fixed re_gap _ _ _ starts_gap EG).
    apply (unmatched_fixed re_empty _ _ _ starts_empty EE).
Qed.

(** X4. The attribute step is idempotent: the tags it has rebuilt are tags
    it rebuilds to themselves, and it finds no others. *)
Theorem stripAttributes_idempotent :
  forall s : jsstring,
    stripAttributes (stripAttributes s) = stripAttributes s.
Proof. exact strip_idem. Qed.

(** X5. The gap step deletes white space and nothing else, leaves no gap
    behind, and so does nothing when run again. *)
Theorem collapseGaps_drops_only_white_space :
  forall s : jsstring,
    visible (collapseGaps s) = visible s
    /\ test re_gap (collapseGaps s) = false
    /\ collapseGaps (collapseGaps s) = collapseGaps s.
Proof.
  intros s. split; [apply collapse_visible|]. split; [|apply collapse_idem].
  apply test_false, collapse_fixed, collapse_idem.
Qed.

(** X6. An attribute needs a quoted value to be kept: when the attribute
    text of a tag has no quote in it, the tag is rebuilt bare, whatever the
    names in it. *)
Theorem unquoted_attributes_are_dropped :
  forall tag attrs : jsstring,
    forallb not_quote attrs = true ->
    rebuildTag tag attrs = js "<" ++ tag ++ js ">".
Proof.
  intros tag attrs H. unfold rebuildTag. now rewrite (cleaned_unquoted attrs H).
Qed.

Lemma unquoted_attributes_example :
  forallb not_quote (js "id=x href=javascript:evil() disabled") = true
  /\ rebuildTag (js "a") (js "id=x href=javascript:evil() disabled") = js "<a>".
Proof.
  split; [reflexivity|].
  apply (unquoted_attributes_are_dropped (js "a")). reflexivity.
Defined.

(** X7. A complete [head], [script], [style] or [svg] element, its two tag
    names written in any mix of upper and lower case, with no bracket in its
    attribute text and no opening bracket in its content, is deleted with all
    of its content: on its own it filters to the empty string. *)
Theorem wellformed_elements_are_removed :
  forall (name : string) (n1 n2 a b : jsstring),
    In name ["head"; "script"; "style"; "svg"]%string ->
    same_name n1 name = true ->
    same_name n2 name = true ->
    forallb no_bracket a = true ->
    forallb no_lt b = true ->
    removeUnwantedElements (element n1 n2 a b) = [].
Proof.
  intros name n1 n2 a b Hname H1 H2 Ha Hb. rewrite <- pass_then_filter.
  rewrite (pass_element name n1 n2 a b Hname H1 H2 Ha Hb). vm_compute; reflexivity.
Qed.

Lemma script_element_example :
  In "script"%string ["head"; "script"; "style"; "svg"]%string
  /\ same_name (js "SCRIPT") "script" = true
  /\ same_name (js "Script") "script" = true
  /\ forallb no_bracket (js " type=module") = true
  /\ forallb no_lt (js "if (a > b) alert(1)") = true
  /\ removeUnwantedElements
       (js "<SCRIPT type=module>if (a > b) alert(1)</Script>") = [].
Proof.
  split; [right; left; reflexivity|]. split; [reflexivity|].
  split; [reflexivity|]. split; [reflexivity|]. split; [reflexivity|].
  apply (wellformed_elements_are_removed "script" (js "SCRIPT") (js "Script")
           (js " type=module") (js "if (a > b) alert(1)")).
  - right; left; reflexivity.
  - reflexivity.
  - reflexivity.
  - reflexivity.
  - reflexivity.
Defined.

(** X8. A [meta] or [input] tag, its name written in any mix of upper and
    lower case, with no bracket in its attribute text, is deleted: on its own
    it filters to the empty string, also when a base64 payload in its
    attributes is deleted first. *)
Theorem void_tags_are_removed :
  forall (name : string) (n a : jsstring),
    In name ["meta"; "input"]%string ->
    same_name n name = true ->
    forallb no_bracket a = true ->
    removeUnwantedElements (void_tag n a) = [].
Proof.
  intros name n a Hname Hn Ha. rewrite <- pass_then_filter.
  rewrite (pass_void name n a Hname Hn Ha). vm_compute; reflexivity.
Qed.

Lemma input_tag_example :
  In "input"%string ["meta"; "input"]%string
  /\ same_name (js "Input") "input" = true
  /\ forallb no_bracket (qjs " value=`data:image/png;base64,AAAA` id=`q`") = true
  /\ removeUnwantedElements
       (qjs "<Input value=`data:image/png;base64,AAAA` id=`q`>") = [].
Proof.
  split; [right; left; reflexivity|]. split; [reflexivity|]. split; [reflexivity|].
  apply (void_tags_are_removed "input" (js "Input")
           (qjs " value=`data:image/png;base64,AAAA` id=`q`")).
  - right; left; reflexivity.
  - reflexivity.
  - reflexivity.
Defined.

(** *** The server *)

Lemma at_index_nat targets k : at_index targets (Z.of_nat k) = nth_error targets k.
Proof.
  unfold at_index. destruct (Z.ltb_spec (Z.of_nat k) 0); [lia|].
  now rewrite Nat2Z.id.
Qed.

Lemma in_range targets k (t : CDPTarget) :
  nth_error targets k = Some t ->
  Nat.eqb (length targets) 0 = false
  /\ ((Z.of_nat k <? 0) || (Z.of_nat (length targets) <=? Z.of_nat k))%Z = false.
Proof.
  intros H. assert (k < length targets) by (apply nth_error_Some; congruence).
  split; [apply Nat.eqb_neq; lia|].
  apply orb_false_iff. rewrite Z.ltb_ge, Z.leb_gt. lia.
Qed.

Lemma nth_mapi l : forall k0 k p,
  nth_error (mapi k0 l) k = Some p ->
  exists t, nth_error l k = Some t /\ p = mkPageInfo (k0 + k) (title t) (url t).
Proof.
  induction l as [|t l IH]; intros k0 k p H.
  - destruct k; discriminate.
  - destruct k as [|k]; simpl in H.
    + inversion H; subst. exists t. now rewrite Nat.add_0_r.
    + destruct (IH _ _ _ H) as (t' & Ht & ->). exists t'. split; [exact Ht|].
      f_equal. lia.
Qed.

(** X9. When the listing has no target of type page, every fetch fails with
    the invalid-request error "No open pages found in Chrome", whatever the
    index and the selector, and no session is opened. *)
Theorem no_pages_is_an_error :
  forall (chrome : Chrome) (listed : list CDPTarget) (pageIndex : option Z)
         (selector : option string),
    CDP_List chrome = Some listed ->
    filter (fun t => String.eqb (type t) "page") listed = [] ->
    getHtmlContent chrome pageIndex selector
    = (Rejected (mkMcpError InvalidRequest "No open pages found in Chrome"), []).
Proof.
  intros chrome listed pageIndex selector HL HF.
  unfold getHtmlContent, getTargets. rewrite HL, HF. reflexivity.
Qed.

Lemma no_pages_example :
  CDP_List (mkChrome "localhost" "9222"
              (Some [mkTarget "W" "worker" "https://w/" "service_worker" None])
              (fun _ => true) (fun _ _ => None))
  = Some [mkTarget "W" "worker" "https://w/" "service_worker" None]
  /\ getHtmlContent
       (mkChrome "localhost" "9222"
          (Some [mkTarget "W" "worker" "https://w/" "service_worker" None])
          (fun _ => true) (fun _ _ => None))
       (Some 0%Z) None
     = (Rejected (mkMcpError InvalidRequest "No open pages found in Chrome"), []).
Proof.
  split; [reflexivity|].
  apply (no_pages_is_an_error _
           [mkTarget "W" "worker" "https://w/" "service_worker" None]);
    reflexivity.
Defined.

(** X10. When the listing call fails, both operations fail with the same
    internal error, whose message names the configured host and port twice
    over (the address and the flag to start the browser with); a fetch opens
    no session. *)
Theorem listing_failure_is_reported :
  forall (chrome : Chrome) (pageIndex : option Z) (selector : option string),
    CDP_List chrome = None ->
    let e := mkMcpError InternalError
               ("Failed to connect to Chrome DevTools at " ++ CDP_HOST chrome
                  ++ ":" ++ CDP_PORT chrome
                  ++ ". Ensure Chrome is running with --remote-debugging-port="
                  ++ CDP_PORT chrome) in
    listPages chrome = Rejected e
    /\ getHtmlContent chrome pageIndex selector = (Rejected e, []).
Proof.
  intros chrome pageIndex selector HL e.
  unfold listPages, getHtmlContent, getTargets. rewrite HL. split; reflexivity.
Qed.

Lemma listing_failure_example :
  CDP_List (mkChrome "devbox" "9333" None (fun _ => true) (fun _ _ => None)) = None
  /\ listPages (mkChrome "devbox" "9333" None (fun _ => true) (fun _ _ => None))
     = Rejected (mkMcpError InternalError
         "Failed to connect to Chrome DevTools at devbox:9333. Ensure Chrome is running with --remote-debugging-port=9333").
Proof.
  split; [reflexivity|].
  exact (proj1 (listing_failure_is_reported
                  (mkChrome "devbox" "9333" None (fun _ => true) (fun _ _ => None))
                  None None eq_refl)).
Defined.

(** X11. A fetch opens at most one session, only on the page target at the
    requested index (0 when none is given) and only when the browser accepts
    it, and closes every session it opens, whatever the evaluation does. *)
Theorem sessions_are_closed :
  forall (chrome : Chrome) (pageIndex : option Z) (selector : option string),
    let events := snd (getHtmlContent chrome pageIndex selector) in
    events = []
    \/ exists listed k t,
         CDP_List chrome = Some listed
         /\ nth_error (filter (fun t => String.eqb (type t) "page") listed) k = Some t
         /\ match pageIndex with Some i => i | None => 0%Z end = Z.of_nat k
         /\ connect chrome (id t) = true
         /\ events = [Opened (id t); Closed (id t)].
Proof.
  intros chrome pageIndex selector. unfold getHtmlContent, getTargets.
  destruct (CDP_List chrome) as [listed|] eqn:HL; [|now left].
  set (targets := filter (fun t => String.eqb (type t) "page") listed).
  set (i := match pageIndex with Some i => i | None => 0%Z end).
  destruct (Nat.eqb (length targets) 0); [now left|].
  destruct ((i <? 0) || (Z.of_nat (length targets) <=? i))%Z eqn:Hr; [now left|].
  destruct (at_index targets i) as [t|] eqn:Ht; [|now left].
  destruct (connect chrome (id t)) eqn:Hc; [|now left].
  right. exists listed, (Z.to_nat i), t.
  apply orb_false_iff in Hr as [Hlo _]. apply Z.ltb_ge in Hlo.
  unfold at_index in Ht. apply Z.ltb_ge in Hlo as Hlo'. rewrite Hlo' in Ht.
  repeat split; auto. now rewrite Z2Nat.id.
Qed.

(** X12. A selector that matches nothing is reported by name: when the page
    at the index accepts the session and the evaluation of the query returns
    null, the fetch fails with the invalid-request error "Element not found
    for selector: ..." and the session is closed. *)
Theorem selector_miss_names_the_selector :
  forall (chrome : Chrome) (listed : list CDPTarget) (k : nat) (t : CDPTarget)
         (c : ascii) (sel : string),
    CDP_List chrome = Some listed ->
    nth_error (filter (fun t => String.eqb (type t) "page") listed) k = Some t ->
    connect chrome (id t) = true ->
    evaluate chrome (id t) (QuerySelector (String c sel))
    = Some (mkEvaluation false None) ->
    getHtmlContent chrome (Some (Z.of_nat k)) (Some (String c sel))
    = (Rejected (mkMcpError InvalidRequest
         ("Element not found for selector: " ++ String c sel)),
       [Opened (id t); Closed (id t)]).
Proof.
  intros chrome listed k t c sel HL Hk Hc He.
  unfold getHtmlContent, getTargets. rewrite HL.
  destruct (in_range _ _ _ Hk) as [H0 Hr]. rewrite H0, Hr.
  rewrite at_index_nat, Hk, Hc. cbn [negb truthy]. rewrite He. reflexivity.
Qed.

Lemma selector_miss_example :
  getHtmlContent
    (mkChrome "localhost" "9222"
       (Some [mkTarget "A" "first" "https://a/" "page" None])
       (fun _ => true) (fun _ _ => Some (mkEvaluation false None)))
    (Some 0%Z) (Some "#missing"%string)
  = (Rejected (mkMcpError InvalidRequest "Element not found for selector: #missing"),
     [Opened "A"; Closed "A"]).
Proof.
  apply (selector_miss_names_the_selector
           (mkChrome "localhost" "9222"
              (Some [mkTarget "A" "first" "https://a/" "page" None])
              (fun _ => true) (fun _ _ => Some (mkEvaluation false None)))
           [mkTarget "A" "first" "https://a/" "page" None] 0
           (mkTarget "A" "first" "https://a/" "page" None) "#"%char "missing"%string);
    reflexivity.
Defined.

(** X13. An exception in the page wins over whatever value came with it:
    when the evaluation of the expression sent (the query for a selector
    that is not empty, the whole document otherwise) carries exception
    details, the fetch fails with the internal error "Failed to evaluate
    expression in page context" and the session is closed. *)
Theorem evaluation_exception_is_reported :
  forall (chrome : Chrome) (listed : list CDPTarget) (k : nat) (t : CDPTarget)
         (selector : option string) (value : option jsstring),
    CDP_List chrome = Some listed ->
    nth_error (filter (fun t => String.eqb (type t) "page") listed) k = Some t ->
    connect chrome (id t) = true ->
    evaluate chrome (id t)
      match selector with
      | Some (String c sel) => QuerySelector (String c sel)
      | _ => OuterHTML
      end
    = Some (mkEvaluation true value) ->
    getHtmlContent chrome (Some (Z.of_nat k)) selector
    = (Rejected (mkMcpError InternalError
         "Failed to evaluate expression in page context"),
       [Opened (id t); Closed (id t)]).
Proof.
  intros chrome listed k t selector value HL Hk Hc He.
  unfold getHtmlContent, getTargets. rewrite HL.
  destruct (in_range _ _ _ Hk) as [H0 Hr]. rewrite H0, Hr.
  rewrite at_index_nat, Hk, Hc. cbn [negb].
  destruct selector as [[|c sel]|]; cbn [truthy]; rewrite He; reflexivity.
Qed.

(** A browser in which only the query for a selector throws. *)
Lemma evaluation_exception_example :
  getHtmlContent
    (mkChrome "localhost" "9222"
       (Some [mkTarget "A" "first" "https://a/" "page" None])
       (fun _ => true)
       (fun _ e => match e with
                   | QuerySelector _ => Some (mkEvaluation true (Some (js "<p>x</p>")))
                   | OuterHTML => Some (mkEvaluation false (Some (js "<p>x</p>")))
                   end))
    (Some 0%Z) (Some "main"%string)
  = (Rejected (mkMcpError InternalError
       "Failed to evaluate expression in page context"),
     [Opened "A"; Closed "A"]).
Proof.
  apply (evaluation_exception_is_reported
           (mkChrome "localhost" "9222"
              (Some [mkTarget "A" "first" "https://a/" "page" None])
              (fun _ => true)
              (fun _ e => match e with
                          | QuerySelector _ =>
                              Some (mkEvaluation true (Some (js "<p>x</p>")))
                          | OuterHTML =>
                              Some (mkEvaluation false (Some (js "<p>x</p>")))
                          end))
           [mkTarget "A" "first" "https://a/" "page" None] 0
           (mkTarget "A" "first" "https://a/" "page" None) (Some "main"%string)
           (Some (js "<p>x</p>")));
    reflexivity.
Defined.

(** X14. Whatever a fetch resolves to has been through the filter: it is a
    string the filter returns unchanged, and the one session that produced it
    has been closed. *)
Theorem fetched_markup_is_filtered :
  forall (chrome : Chrome) (pageIndex : option Z) (selector : option string)
         (out : jsstring) (events : list event),
    getHtmlContent chrome pageIndex selector = (Resolved out, events) ->
    removeUnwantedElements out = out
    /\ exists target, events = [Opened target; Closed target].
Proof.
  intros chrome pageIndex selector out events. unfold getHtmlContent, getTargets.
  destruct (CDP_List chrome) as [listed|]; [|discriminate].
  destruct (Nat.eqb _ 0); [discriminate|].
  destruct (_ || _)%bool; [discriminate|].
  destruct (at_index _ _) as [t|]; [|discriminate].
  destruct (connect chrome (id t)); [|discriminate]. cbn [negb].
  destruct (evaluate chrome (id t) _) as [[ex v]|]; [|discriminate].
  cbn [exceptionDetails value]. destruct ex; [discriminate|].
  destruct v as [html|]; [|discriminate].
  intros H. inversion H; subst. split.
  - apply fixed_returned, removeUnwantedElements_fixed.
  - eauto.
Qed.

Lemma fetched_markup_example :
  getHtmlContent
    (mkChrome "localhost" "9222"
       (Some [mkTarget "A" "first" "https://a/" "page" None])
       (fun _ => true)
       (fun _ _ => Some (mkEvaluation false (Some (qjs "<p onclick=`x()`>hi</p>")))))
    None None
  = (Resolved (js "<p>hi</p>"), [Opened "A"; Closed "A"])
  /\ removeUnwantedElements (js "<p>hi</p>") = js "<p>hi</p>".
Proof.
  assert (E : getHtmlContent
    (mkChrome "localhost" "9222"
       (Some [mkTarget "A" "first" "https://a/" "page" None])
       (fun _ => true)
       (fun _ _ => Some (mkEvaluation false (Some (qjs "<p onclick=`x()`>hi</p>")))))
    None None
  = (Resolved (js "<p>hi</p>"), [Opened "A"; Closed "A"]))
    by (vm_compute; reflexivity).
  split; [exact E|]. exact (proj1 (fetched_markup_is_filtered _ _ _ _ _ E)).
Defined.

(** X15. The index that [listPages] gives a page is the index that fetches
    it: entry number [k] of the listing carries index [k] and the title and
    url of the page target number [k] of the browser's listing, and a fetch
    with that index opens its session on that very target whenever the
    browser accepts it. *)
Theorem listed_index_fetches_that_page :
  forall (chrome : Chrome) (pages : list PageInfo) (k : nat) (p : PageInfo),
    listPages chrome = Resolved pages ->
    nth_error pages k = Some p ->
    index p = k
    /\ exists listed t,
         CDP_List chrome = Some listed
         /\ nth_error (filter (fun t => String.eqb (type t) "page") listed) k = Some t
         /\ title t = page_title p /\ url t = page_url p
         /\ forall selector,
              connect chrome (id t) = true ->
              snd (getHtmlContent chrome (Some (Z.of_nat (index p))) selector)
              = [Opened (id t); Closed (id t)].
Proof.
  intros chrome pages k p HL Hk. unfold listPages, getTargets in HL.
  destruct (CDP_List chrome) as [listed|] eqn:E; [|discriminate].
  inversion HL; subst pages; clear HL.
  destruct (nth_mapi _ _ _ _ Hk) as (t & Ht & ->). cbn [index page_title page_url].
  split; [reflexivity|]. exists listed, t. repeat split; [exact Ht|].
  intros selector Hc. unfold getHtmlContent, getTargets. rewrite E.
  destruct (in_range _ _ _ Ht) as [H0 Hr]. cbn [Nat.add]. rewrite H0, Hr.
  rewrite at_index_nat, Ht, Hc. reflexivity.
Qed.

(** Three targets, the second of them no page: the second entry of the
    listing has index 1, and fetching index 1 opens the third target. *)
Lemma listed_index_example :
  listPages
    (mkChrome "localhost" "9222"
       (Some [mkTarget "A" "first" "https://a/" "page" None;
              mkTarget "B" "worker" "https://b/" "other" None;
              mkTarget "C" "second" "https://c/" "page" None])
       (fun _ => true) (fun _ _ => None))
  = Resolved [mkPageInfo 0 "first" "https://a/"; mkPageInfo 1 "second" "https://c/"]
  /\ index (mkPageInfo 1 "second" "https://c/") = 1
  /\ snd (getHtmlContent
            (mkChrome "localhost" "9222"
               (Some [mkTarget "A" "first" "https://a/" "page" None;
                      mkTarget "B" "worker" "https://b/" "other" None;
                      mkTarget "C" "second" "https://c/" "page" None])
               (fun _ => true) (fun _ _ => None))
            (Some 1%Z) None)
     = [Opened "C"; Closed "C"].
Proof.
  split; [reflexivity|].
  destruct (listed_index_fetches_that_page
              (mkChrome "localhost" "9222"
                 (Some [mkTarget "A" "first" "https://a/" "page" None;
                        mkTarget "B" "worker" "https://b/" "other" None;
                        mkTarget "C" "second" "https://c/" "page" None])
                 (fun _ => true) (fun _ _ => None))
              [mkPageInfo 0 "first" "https://a/"; mkPageInfo 1 "second" "https://c/"]
              1 (mkPageInfo 1 "second" "https://c/") eq_refl eq_refl)
    as (Hi & listed & t & HL & Ht & _ & _ & Hs).
  split; [exact Hi|].
  cbn [CDP_List] in HL. injection HL as <-.
  cbn in Ht. injection Ht as <-.
  exact (Hs None eq_refl).
Defined.

(** X16. A fetch that goes well resolves to the filtered markup: the whole
    document when no selector or the empty selector is given, the queried
    element otherwise; the session is opened on the page at the index and
    closed again. *)
Theorem fetch_resolves_to_filtered_markup :
  forall (chrome : Chrome) (listed : list CDPTarget) (k : nat) (t : CDPTarget)
         (selector : option string) (html : jsstring),
    CDP_List chrome = Some listed ->
    nth_error (filter (fun t => String.eqb (type t) "page") listed) k = Some t ->
    connect chrome (id t) = true ->
    evaluate chrome (id t)
      match selector with
      | Some (String c sel) => QuerySelector (String c sel)
      | _ => OuterHTML
      end
    = Some (mkEvaluation false (Some html)) ->
    getHtmlContent chrome (Some (Z.of_nat k)) selector
    = (Resolved (removeUnwantedElements html), [Opened (id t); Closed (id t)]).
Proof.
  intros chrome listed k t selector html HL Hk Hc He.
  unfold getHtmlContent, getTargets. rewrite HL.
  destruct (in_range _ _ _ Hk) as [H0 Hr]. rewrite H0, Hr.
  rewrite at_index_nat, Hk, Hc. cbn [negb].
  destruct selector as [[|c sel]|]; cbn [truthy]; rewrite He; reflexivity.
Qed.

Lemma fetch_example :
  getHtmlContent
    (mkChrome "localhost" "9222"
       (Some [mkTarget "W" "worker" "https://w/" "service_worker" None;
              mkTarget "A" "first" "https://a/" "page" None])
       (fun _ => true)
       (fun _ e => match e with
                   | OuterHTML =>
                       Some (mkEvaluation false
                               (Some (qjs "<html><head><title>t</title></head><body><p class=`c` id=`m`>hi</p></body></html>")))
                   | QuerySelector _ => Some (mkEvaluation false None)
                   end))
    (Some 0%Z) (Some ""%string)
  = (Resolved (qjs "<html><body><p id=`m`>hi</p></body></html>"),
     [Opened "A"; Closed "A"]).
Proof.
  etransitivity.
  - apply (fetch_resolves_to_filtered_markup _
             [mkTarget "W" "worker" "https://w/" "service_worker" None;
              mkTarget "A" "first" "https://a/" "page" None] 0
             (mkTarget "A" "first" "https://a/" "page" None) (Some ""%string)
             (qjs "<html><head><title>t</title></head><body><p class=`c` id=`m`>hi</p></body></html>"));
      reflexivity.
  - vm_compute; reflexivity.
Defined.

(** X17. A session that the browser refuses is not reported as a tool error
    and leaves nothing to close: the failure of the connection call is passed
    on as it is, and no session has been opened. *)
Theorem refused_session_is_passed_on :
  forall (chrome : Chrome) (listed : list CDPTarget) (k : nat) (t : CDPTarget)
         (selector : option string),
    CDP_List chrome = Some listed ->
    nth_error (filter (fun t => String.eqb (type t) "page") listed) k = Some t ->
    connect chrome (id t) = false ->
    getHtmlContent chrome (Some (Z.of_nat k)) selector = (RejectedOther, []).
Proof.
  intros chrome listed k t selector HL Hk Hc.
  unfold getHtmlContent, getTargets. rewrite HL.
  destruct (in_range _ _ _ Hk) as [H0 Hr]. rewrite H0, Hr.
  rewrite at_index_nat, Hk, Hc. reflexivity.
Qed.

Lemma refused_session_example :
  getHtmlContent
    (mkChrome "localhost" "9222"
       (Some [mkTarget "A" "first" "https://a/" "page" None])
       (fun _ => false) (fun _ _ => None))
    (Some 0%Z) None
  = (RejectedOther, []).
Proof.
  apply (refused_session_is_passed_on _
           [mkTarget "A" "first" "https://a/" "page" None] 0
           (mkTarget "A" "first" "https://a/" "page" None));
    reflexivity.
Defined.

(** X18. When the evaluation call itself fails for the expression sent (the
    query for a selector that is not empty, the whole document otherwise),
    the failure is passed on as it is, not as a tool error, and the session
    is closed all the same. *)
Theorem failed_evaluation_closes_the_session :
  forall (chrome : Chrome) (listed : list CDPTarget) (k : nat) (t : CDPTarget)
         (selector : option string),
    CDP_List chrome = Some listed ->
    nth_error (filter (fun t => String.eqb (type t) "page") listed) k = Some t ->
    connect chrome (id t) = true ->
    evaluate chrome (id t)
      match selector with
      | Some (String c sel) => QuerySelector (String c sel)
      | _ => OuterHTML
      end
    = None ->
    getHtmlContent chrome (Some (Z.of_nat k)) selector
    = (RejectedOther, [Opened (id t); Closed (id t)]).
Proof.
  intros chrome listed k t selector HL Hk Hc He.
  unfold getHtmlContent, getTargets. rewrite HL.
  destruct (in_range _ _ _ Hk) as [H0 Hr]. rewrite H0, Hr.
  rewrite at_index_nat, Hk, Hc. cbn [negb].
  destruct selector as [[|c sel]|]; cbn [truthy]; rewrite He; reflexivity.
Qed.

(** A browser in which only the query for a selector fails. *)
Lemma failed_evaluation_example :
  getHtmlContent
    (mkChrome "localhost" "9222"
       (Some [mkTarget "A" "first" "https://a/" "page" None])
       (fun _ => true)
       (fun _ e => match e with
                   | QuerySelector _ => None
                   | OuterHTML => Some (mkEvaluation false (Some (js "<p>x</p>")))
                   end))
    (Some 0%Z) (Some "main"%string)
  = (RejectedOther, [Opened "A"; Closed "A"]).
Proof.
  apply (failed_evaluation_closes_the_session
           (mkChrome "localhost" "9222"
              (Some [mkTarget "A" "first" "https://a/" "page" None])
              (fun _ => true)
              (fun _ e => match e with
                          | QuerySelector _ => None
                          | OuterHTML =>
                              Some (mkEvaluation false (Some (js "<p>x</p>")))
                          end))
           [mkTarget "A" "first" "https://a/" "page" None] 0
           (mkTarget "A" "first" "https://a/" "page" None) (Some "main"%string));
    reflexivity.
Defined.

(** X19. The filter absorbs a pass of its own loop: running the body of the
    loop once before the filter gives what the filter gives. *)
Theorem filter_absorbs_a_pass :
  forall s : jsstring,
    removeUnwantedElements (pass s) = removeUnwantedElements s.
Proof. exact pass_then_filter. Qed.
